(** * Graffiti Monkey: tag propagation (graffiti_monkey/core.py)

    A shallow embedding of [GraffitiMonkey] from [graffiti_monkey/core.py]
    and the properties of its tag propagation.

    Conventions of the embedding.
    - A Python [dict] of tags is a [gmap string pyval]; a tag value is a
      string or [None].
    - Methods are computations in a state-and-exception monad [M St A].
      The state of a stage is the [World]: the [GraffitiMonkey] object
      ([self], whose list attributes are the caller's list objects), the
      provider behind [self._conn], and the chronological trace of the
      observable calls (log records, [time.sleep], the provider queries and
      [add_tags]).
    - The per-resource methods ([tag_volume], [tag_snapshot],
      [_set_resource_tags]) run on [World * R], where the second component is
      the resource object they were handed: its attributes live as long as the
      object does, across the attempts of the retry loop.
    - The local variable [tags_to_set] is a reference ([TagsRef]): either a
      dict of its own or the very dict held by [resource.tags].
    - [__init__] stores its arguments in [self] and connects; a [World]
      starts from the stored configuration and the provider connected to.
      The [Logging] class configures the loggers and has no part here.
    - core.py as given has slips of syntax: the [if] on lines 109 and
      216 lacks its colon, and lines 125 and 231 write [filters:] for
      [filters =]. They are read as the statement they evidently are. *)

From stdpp Require Import gmap strings list fin_maps.
From Stdlib Require Import ZArith Lia.

Local Open Scope Z_scope.
Local Open Scope nat_scope.

(** ** Python values *)

(** A tag value, an attachment attribute: a string or [None]. *)
Inductive pyval : Type :=
  | PyNone
  | PyStr (s : string).

#[global] Instance pyval_eq_dec : EqDecision pyval.
Proof. solve_decision. Defined.

#[global] Instance pyval_countable : Countable pyval.
Proof.
  refine (inj_countable'
            (λ v, match v with PyNone => None | PyStr s => Some s end)
            (λ o, match o with None => PyNone | Some s => PyStr s end) _).
  by intros [|s].
Defined.

(** Python truth value of a string-or-None attribute. *)
Definition truthy (v : pyval) : bool :=
  match v with
  | PyNone => false
  | PyStr s => negb (bool_decide (s = ""%string))
  end.

Abbreviation tagmap := (gmap string pyval).

(** ** The objects of the provider (boto's EC2 objects) *)

Inductive Kind : Type := KVolume | KSnapshot.

#[global] Instance Kind_eq_dec : EqDecision Kind.
Proof. solve_decision. Defined.

Module AttachData.
Record t : Type := mk { instance_id : pyval; device : pyval }.
End AttachData.

Module Instance.
Record t : Type := mk { id : string; tags : tagmap }.
End Instance.

(** [tagged] records whether the object's class derives from boto's
    [TaggedEC2Object] (what [isinstance] tests on line 290); boto's own
    [Volume] and [Snapshot] classes do. *)
Module Volume.
Record t : Type := mk {
  tagged : bool;
  id : string;
  status : string;
  size : Z;
  attach_data : AttachData.t;
  tags : tagmap
}.
Definition with_tags (d : tagmap) (v : t) : t :=
  mk (tagged v) (id v) (status v) (size v) (attach_data v) d.
End Volume.

Module Snapshot.
Record t : Type := mk {
  tagged : bool;
  id : string;
  volume_id : string;
  owner_id : string;
  tags : tagmap
}.
Definition with_tags (d : tagmap) (s : t) : t :=
  mk (tagged s) (id s) (volume_id s) (owner_id s) d.
End Snapshot.

(** What [_set_resource_tags] needs of a resource. *)
Class EC2Object (R : Type) : Type := {
  obj_kind : Kind;
  obj_id : R → string;
  obj_tags : R → tagmap;
  obj_with_tags : tagmap → R → R;
  obj_tagged : R → bool;
  obj_repr : R → string
}.

#[global] Instance Volume_EC2Object : EC2Object Volume.t := {|
  obj_kind := KVolume;
  obj_id := Volume.id;
  obj_tags := Volume.tags;
  obj_with_tags := Volume.with_tags;
  obj_tagged := Volume.tagged;
  obj_repr := λ v, ("Volume:" +:+ Volume.id v)%string
|}.

#[global] Instance Snapshot_EC2Object : EC2Object Snapshot.t := {|
  obj_kind := KSnapshot;
  obj_id := Snapshot.id;
  obj_tags := Snapshot.tags;
  obj_with_tags := Snapshot.with_tags;
  obj_tagged := Snapshot.tagged;
  obj_repr := λ s, ("Snapshot:" +:+ Snapshot.id s)%string
|}.

(** [obj_with_tags] replaces the [tags] attribute and nothing else. *)
Class EC2ObjectLaws (R : Type) `{EC2Object R} : Prop := {
  obj_tags_with_tags d r : obj_tags (obj_with_tags d r) = d;
  obj_id_with_tags d r : obj_id (obj_with_tags d r) = obj_id r;
  obj_tagged_with_tags d r : obj_tagged (obj_with_tags d r) = obj_tagged r;
  obj_with_tags_twice d d' r :
    obj_with_tags d' (obj_with_tags d r) = obj_with_tags d' r;
  obj_with_tags_same r : obj_with_tags (obj_tags r) r = r
}.

#[global] Instance Volume_EC2ObjectLaws : EC2ObjectLaws Volume.t.
Proof. split; try done. by intros []. Qed.

#[global] Instance Snapshot_EC2ObjectLaws : EC2ObjectLaws Snapshot.t.
Proof. split; try done. by intros []. Qed.

(** ** Exceptions *)

(** The exception classes that core.py raises or catches.
    [EC2ResponseError] derives from [BotoServerError] in boto, which is why
    its handler comes first on lines 147 and 248. [GraffitiMonkeyException]
    comes from the package's own [exceptions] module, which core.py also
    raises for unusable credentials (lines 69, 75); it is no boto error. *)
Inductive Exn : Type :=
  | EC2ResponseError (error_code : string)
  | BotoServerError (error_code : string)
  | GraffitiMonkeyException (msg : string)
  | KeyError (key : pyval)
  | NameError (name : string).

#[global] Instance Exn_eq_dec : EqDecision Exn.
Proof. solve_decision. Defined.

(** How the provider may answer a write call with an error. *)
Inductive Fault : Type :=
  | ClientFault (error_code : string)
  | ServerFault (error_code : string).

Definition fault_exn (f : Fault) : Exn :=
  match f with
  | ClientFault c => EC2ResponseError c
  | ServerFault c => BotoServerError c
  end.

(** ** The trace of observable calls *)

Inductive Level : Type := DEBUG | INFO | ERROR.

Inductive LogArg : Type :=
  | AStr (s : string)
  | AVal (v : pyval)
  | ABool (b : bool)
  | ANat (n : nat)
  | AInt (z : Z)
  | ATags (d : tagmap)
  | AObjs (reprs : list string).

Inductive Event : Type :=
  | Log (lvl : Level) (fmt : string) (args : list LogArg)
  | Sleep (secs : nat)
  | GetAllVolumes (filter : option (gset string))
  | GetAllInstances (filter : gset pyval)
  | GetAllSnapshots (owner : option string) (filter : option (gset string))
  | AddTags (k : Kind) (id : string) (delta : tagmap).

(** ** The provider behind [self._conn] *)

(** The inventory of the account's region, the snapshots visible to it (its
    own and those shared with it), and the answers the provider will give to
    the coming write calls: [Some f] is an error, [None] and the exhausted
    list are acceptance. *)
Record Provider : Type := mkProvider {
  account : string;
  volumes : list Volume.t;
  instances : list Instance.t;
  snapshots : list Snapshot.t;
  faults : list (option Fault)
}.

(** ** The GraffitiMonkey object *)

Record GraffitiMonkey : Type := mkGraffitiMonkey {
  _instance_tags_to_propagate : list string;
  _volume_tags_to_propagate : list string;
  _region : string;
  _profile : pyval;
  _dryrun : bool;
  _append : bool;
  _volumes_to_tag : list string;
  _snapshots_to_tag : list string;
  _novolumes : bool;
  _nosnapshots : bool
}.

Record World : Type := mkWorld {
  self : GraffitiMonkey;
  conn : Provider;
  trace : list Event
}.

(** ** The monad *)

Inductive Res (A : Type) : Type :=
  | Ok (a : A)
  | Raise (e : Exn).
Arguments Ok {A} a.
Arguments Raise {A} e.

Definition M (St A : Type) : Type := St → Res A * St.

#[global] Instance M_ret St : MRet (M St) := λ A a s, (Ok a, s).

#[global] Instance M_bind St : MBind (M St) := λ A B k m s,
  match m s with
  | (Ok a, s') => k a s'
  | (Raise e, s') => (Raise e, s')
  end.

Definition raise {St A} (e : Exn) : M St A := λ s, (Raise e, s).
Definition gets {St A} (f : St → A) : M St A := λ s, (Ok (f s), s).
Definition modify {St} (f : St → St) : M St unit := λ s, (Ok tt, f s).

(** [for x in l: body] on a list that the body does not change, threading the
    local variables [acc] that the body assigns. *)
Fixpoint for_each {St A B} (l : list A) (acc : B) (body : A → B → M St B)
    : M St B :=
  match l with
  | [] => mret acc
  | x :: l' => acc' ← body x acc; for_each l' acc' body
  end.

(** Run a per-resource computation on the object [r]. *)
Definition with_object {R A} (r : R) (m : M (World * R) A) : M World A :=
  λ w, let '(res, (w', _)) := m (w, r) in (res, w').

Definition liftW {R A} (m : M World A) : M (World * R) A :=
  λ '(w, r), let '(res, w') := m w in (res, (w', r)).

Definition get_obj {R} : M (World * R) R := gets snd.

Definition add_trace (tr : list Event) (w : World) : World :=
  mkWorld (self w) (conn w) (trace w ++ tr).

Definition emit (e : Event) : M World unit := modify (add_trace [e]).

Definition log (lvl : Level) (fmt : string) (args : list LogArg) : M World unit :=
  emit (Log lvl fmt args).

Definition sleep (secs : nat) : M World unit := emit (Sleep secs).

Definition set_conn (p : Provider) : M World unit :=
  modify (λ w, mkWorld (self w) p (trace w)).

(** ** The calls on the provider *)

Definition get_all_volumes (filters : option (gset string))
    : M World (list Volume.t) :=
  emit (GetAllVolumes filters);;
  gets (λ w, match filters with
             | None => volumes (conn w)
             | Some ids => filter (λ v, Volume.id v ∈ ids) (volumes (conn w))
             end).

Definition get_all_instances (filters : gset pyval) : M World (list Instance.t) :=
  emit (GetAllInstances filters);;
  gets (λ w, filter (λ i, PyStr (Instance.id i) ∈ filters) (instances (conn w))).

Definition owned_by (p : Provider) (owner : option string) (s : Snapshot.t) : bool :=
  match owner with
  | None => true
  | Some o =>
      if bool_decide (o = "self"%string)
      then bool_decide (Snapshot.owner_id s = account p)
      else bool_decide (Snapshot.owner_id s = o)
  end.

Definition get_all_snapshots (owner : option string) (filters : option (gset string))
    : M World (list Snapshot.t) :=
  emit (GetAllSnapshots owner filters);;
  gets (λ w,
    filter (λ s, owned_by (conn w) owner s
                 && match filters with
                    | None => true
                    | Some ids => bool_decide (Snapshot.id s ∈ ids)
                    end = true)
           (snapshots (conn w))).

(** The provider's side of a write: the delta is merged into the tags of the
    resource of that kind and id; tags outside the delta stay. *)
Definition provider_add_tags (k : Kind) (rid : string) (delta : tagmap)
    (p : Provider) : Provider :=
  match k with
  | KVolume =>
      mkProvider (account p)
        (map (λ v, if decide (Volume.id v = rid)
                   then Volume.with_tags (delta ∪ Volume.tags v) v else v)
             (volumes p))
        (instances p) (snapshots p) (faults p)
  | KSnapshot =>
      mkProvider (account p) (volumes p) (instances p)
        (map (λ s, if decide (Snapshot.id s = rid)
                   then Snapshot.with_tags (delta ∪ Snapshot.tags s) s else s)
             (snapshots p))
        (faults p)
  end.

Definition set_faults (fs : list (option Fault)) (p : Provider) : Provider :=
  mkProvider (account p) (volumes p) (instances p) (snapshots p) fs.

(** boto's [TaggedEC2Object.add_tags]: one [CreateTags] request for the
    resource's id; when the provider accepts it, the delta is also merged
    into the object's own [tags] dict. *)
Definition add_tags `{EC2Object R} (delta : tagmap) : M (World * R) unit :=
  resource ← get_obj;
  liftW (emit (AddTags obj_kind (obj_id resource) delta));;
  fs ← gets (λ s, faults (conn (fst s)));
  match fs with
  | Some f :: rest =>
      liftW (p ← gets conn; set_conn (set_faults rest p));;
      raise (fault_exn f)
  | _ =>
      liftW (p ← gets conn;
             set_conn (provider_add_tags obj_kind (obj_id resource) delta
                         (set_faults (tail fs) p)));;
      modify (λ '(w, r), (w, obj_with_tags (delta ∪ obj_tags r) r))
  end.

(** ** tags_to_set *)

Inductive TagsRef : Type :=
  | Fresh (d : tagmap)   (* a dict of its own: [tags_to_set = {}] *)
  | Alias.               (* the resource's dict: [tags_to_set = volume.tags] *)

Definition deref `{EC2Object R} (t : TagsRef) : M (World * R) tagmap :=
  match t with
  | Fresh d => mret d
  | Alias => gets (λ s, obj_tags (snd s))
  end.

(** [tags_to_set[k] = v] *)
Definition setitem `{EC2Object R} (t : TagsRef) (k : string) (v : pyval)
    : M (World * R) TagsRef :=
  match t with
  | Fresh d => mret (Fresh (<[k := v]> d))
  | Alias => modify (λ '(w, r), (w, obj_with_tags (<[k := v]> (obj_tags r)) r));;
             mret Alias
  end.

(** ** _set_resource_tags (lines 287-303) *)

(** The test of line 297. *)
Definition tag_differs (current : tagmap) (tag_key : string) (tag_value : pyval)
    : bool :=
  match current !! tag_key with
  | None => true
  | Some cur => bool_decide (cur ≠ tag_value)
  end.

(** The loop of lines 294-298. *)
Definition delta_of (current tags : tagmap) : tagmap :=
  map_fold (λ tag_key tag_value delta_tags,
              if tag_differs current tag_key tag_value
              then <[tag_key := tag_value]> delta_tags
              else delta_tags)
           ∅ tags.

(** The message of line 291. *)
Definition not_tagged_message `{EC2Object R} (r : R) : string :=
  "Resource " +:+ obj_repr r +:+ " is not an instance of TaggedEC2Object".

Definition _set_resource_tags `{EC2Object R} (tags : TagsRef) : M (World * R) unit :=
  resource ← get_obj;
  if negb (obj_tagged resource) then
    raise (GraffitiMonkeyException (not_tagged_message resource))
  else
    items ← deref tags;
    current ← gets (λ s, obj_tags (snd s));
    let delta_tags := delta_of current items in
    if bool_decide (size delta_tags = 0) then mret tt
    else add_tags delta_tags.

(** ** tag_volume (lines 163-192) *)

(** [d[key]] on a dict keyed by ids; a key that is not there is a
    [KeyError]. *)
Definition lookup_id {A} (d : gmap string A) (key : pyval) : option A :=
  match key with
  | PyStr k => d !! k
  | PyNone => None
  end.

Definition getitem {St A} (d : gmap string A) (key : pyval) : M St A :=
  match lookup_id d key with
  | Some x => mret x
  | None => raise (KeyError key)
  end.

(** Lines 166-171: [x = None; if attr: x = attr]. *)
Definition or_none (attr : pyval) : pyval :=
  if truthy attr then attr else PyNone.

(** The loop of lines 178-182 and 274-277: copy the listed tags that the
    parent has. *)
Definition copy_tags `{EC2Object R} (fmt : string) (names : list string)
    (parent_tags : tagmap) (tags_to_set : TagsRef) : M (World * R) TagsRef :=
  for_each names tags_to_set (λ tag_name tags_to_set,
    liftW (log DEBUG fmt [AStr tag_name]);;
    match parent_tags !! tag_name with
    | Some value => setitem tags_to_set tag_name value
    | None => mret tags_to_set
    end).

Definition tag_volume (instances : gmap string Instance.t)
    : M (World * Volume.t) bool :=
  volume ← get_obj;
  let instance_id := or_none (AttachData.instance_id (Volume.attach_data volume)) in
  let device := or_none (AttachData.device (Volume.attach_data volume)) in
  instance ← getitem instances instance_id;
  let instance_tags := Instance.tags instance in
  append ← gets (λ s, _append (self (fst s)));
  let tags_to_set := if append : bool then Alias else Fresh ∅ in
  names ← gets (λ s, _instance_tags_to_propagate (self (fst s)));
  tags_to_set ← copy_tags "Trying to propagate instance tag: %s"
                   names instance_tags tags_to_set;
  tags_to_set ← setitem tags_to_set "instance_id" instance_id;
  tags_to_set ← setitem tags_to_set "device" device;
  dryrun ← gets (λ s, _dryrun (self (fst s)));
  (if dryrun : bool then
     d ← deref tags_to_set;
     liftW (log INFO "DRYRUN: Volume %s would have been tagged %s"
                [AStr (Volume.id volume); ATags d])
   else _set_resource_tags tags_to_set);;
  mret true.

(** ** tag_snapshot (lines 261-283) *)

Definition tag_snapshot (volumes : gmap string Volume.t)
    : M (World * Snapshot.t) bool :=
  snapshot ← get_obj;
  let volume_id := Snapshot.volume_id snapshot in
  volume ← getitem volumes (PyStr volume_id);
  let volume_tags := Volume.tags volume in
  append ← gets (λ s, _append (self (fst s)));
  let tags_to_set := if append : bool then Alias else Fresh ∅ in
  names ← gets (λ s, _volume_tags_to_propagate (self (fst s)));
  tags_to_set ← copy_tags "Trying to propagate volume tag: %s"
                   names volume_tags tags_to_set;
  dryrun ← gets (λ s, _dryrun (self (fst s)));
  (if dryrun : bool then
     d ← deref tags_to_set;
     liftW (log INFO "DRYRUN: Snapshot %s would have been tagged %s"
                [AStr (Snapshot.id snapshot); ATags d])
   else _set_resource_tags tags_to_set);;
  mret true.

(** ** The retry loop (lines 144-157 and 245-258) *)

(** How the [for attempt in range(5)] loop is left: by the [break] of the
    [else] of the [try], by the [break] of the [EC2ResponseError] handler, or
    through the [else] of the [for]. *)
Inductive Outcome : Type := Success | PermanentFailure | ExhaustedFailure.

(** [last] is what the names [e] and [attempt] are bound to when the [for]
    runs out: the error code of the last error caught and the last attempt
    number. The three format strings are those of the three [log.error]
    calls. An exception of another class leaves the loop. *)
Fixpoint retry `{EC2Object R} (perm_fmt trans_fmt exhausted_fmt : string)
    (op : M (World * R) bool) (attempts : list nat) (last : option (string * nat))
    : M (World * R) Outcome :=
  match attempts with
  | [] =>
      match last with
      | Some (error_code, attempt) =>
          resource ← get_obj;
          liftW (log ERROR exhausted_fmt
                     [AStr error_code; AStr (obj_id resource); ANat attempt]);;
          mret ExhaustedFailure
      | None => raise (NameError "e")
      end
  | attempt :: rest => λ s,
      match op s with
      | (Ok _, s') => (Ok Success, s')
      | (Raise (EC2ResponseError error_code), s') =>
          (resource ← get_obj;
           liftW (log ERROR perm_fmt [AStr error_code; AStr (obj_id resource)]);;
           mret PermanentFailure) s'
      | (Raise (BotoServerError error_code), s') =>
          (resource ← get_obj;
           liftW (log ERROR trans_fmt
                      [AStr error_code; AStr (obj_id resource); ANat attempt]);;
           liftW (sleep attempt);;
           retry perm_fmt trans_fmt exhausted_fmt op rest
                 (Some (error_code, attempt))) s'
      | (Raise e, s') => (Raise e, s')
      end
  end.

Definition range (n : nat) : list nat := seq 0 n.

(** ** tag_volumes (lines 90-160) *)

(** [list.remove(x)]: the first element equal to [x] goes. *)
Fixpoint list_remove (x : string) (l : list string) : list string :=
  match l with
  | [] => []
  | y :: l' => if decide (y = x) then l' else y :: list_remove x l'
  end.

Definition set_volumes_to_tag (l : list string) (g : GraffitiMonkey)
    : GraffitiMonkey :=
  mkGraffitiMonkey (_instance_tags_to_propagate g) (_volume_tags_to_propagate g)
    (_region g) (_profile g) (_dryrun g) (_append g) l (_snapshots_to_tag g)
    (_novolumes g) (_nosnapshots g).

(** The loop of lines 108-111. The [for] walks [self._volumes_to_tag] by
    position, [i] being the position of the next element, while the body
    removes from that same list. Each round moves [i] one step and the list
    never grows, so [fuel] above the length of the list is never used up. *)
Fixpoint drop_missing_volumes (fuel i : nat) (volume_ids : list string)
    : M World unit :=
  match fuel with
  | 0 => mret tt
  | S fuel' =>
      l ← gets (λ w, _volumes_to_tag (self w));
      match l !! i with
      | None => mret tt
      | Some volume_id =>
          (if bool_decide (volume_id ∉ volume_ids) then
             log INFO "Volume %s does not exist and will not be tagged"
                 [AStr volume_id];;
             modify (λ w, mkWorld
                            (set_volumes_to_tag (list_remove volume_id l) (self w))
                            (conn w) (trace w))
           else mret tt);;
          drop_missing_volumes fuel' (S i) volume_ids
      end
  end.

(** Lines 144-157. *)
Definition retry_tag_volume (instances : gmap string Instance.t)
    : M (World * Volume.t) Outcome :=
  retry "Encountered Error %s on volume %s"
        "Encountered Error %s on volume %s, waiting %d seconds then retrying"
        "Encountered Error %s on volume %s, %d retries failed, continuing"
        (tag_volume instances) (range 5) None.

(** The body of the [for volume in volumes] loop, lines 136-157; the local
    counters are [this_vol] and [storage_counter]. *)
Definition volume_body (instances : gmap string Instance.t) (total_vols : nat)
    (volume : Volume.t) (counters : nat * Z) : M World (nat * Z) :=
  let this_vol := S (fst counters) in
  let storage_counter := (snd counters + Volume.size volume)%Z in
  log INFO "Processing volume %d of %d total volumes"
      [ANat this_vol; ANat total_vols];;
  (if bool_decide (Volume.status volume ≠ "in-use"%string) then
     log DEBUG
       "Skipping %s as it is not attached to an EC2 instance, so there is nothing to propagate"
       [AStr (Volume.id volume)]
   else
     with_object volume (retry_tag_volume instances);;
     mret tt);;
  mret (this_vol, storage_counter).

(** Lines 98-115: the volumes to work on. *)
Definition list_volumes : M World (list Volume.t) :=
  volumes_to_tag ← gets (λ w, _volumes_to_tag (self w));
  match volumes_to_tag with
  | _ :: _ =>
      log INFO "Using volume list from cli/config file" [];;
      volumes ← get_all_volumes (Some (list_to_set volumes_to_tag));
      let volume_ids := map Volume.id volumes in
      drop_missing_volumes (S (length volumes_to_tag)) 0 volume_ids;;
      mret volumes
  | [] =>
      log INFO "Getting list of all volumes" [];;
      get_all_volumes None
  end.

(** Line 129. *)
Definition instances_by_id (reservation : list Instance.t)
    : gmap string Instance.t :=
  foldl (λ d i, <[Instance.id i := i]> d) ∅ reservation.

(** Lines 117-160: the parents and the loop. *)
Definition tag_listed_volumes (volumes : list Volume.t) : M World (option bool) :=
  match volumes with
  | [] => log INFO "No volumes found" [];; mret (Some true)
  | _ :: _ =>
      let all_instance_ids : gset pyval :=
        list_to_set (map (λ v, AttachData.instance_id (Volume.attach_data v))
                         volumes) in
      reservation ← get_all_instances all_instance_ids;
      let instances := instances_by_id reservation in
      log DEBUG "Volume list >%s<" [AObjs (map obj_repr volumes)];;
      let total_vols := length volumes in
      log INFO "Found %d volume(s)" [ANat total_vols];;
      counters ← for_each volumes (0, 0%Z) (volume_body instances total_vols);
      log INFO "Processed a total of {0} GB of AWS Volumes" [AInt (snd counters)];;
      log INFO "Completed processing all volumes" [];;
      mret None
  end.

Definition tag_volumes : M World (option bool) :=
  volumes ← list_volumes;
  tag_listed_volumes volumes.

(** ** tag_snapshots (lines 195-259) *)

(** Lines 245-258. *)
Definition retry_tag_snapshot (volumes : gmap string Volume.t)
    : M (World * Snapshot.t) Outcome :=
  retry "Encountered Error %s on snapshot %s"
        "Encountered Error %s on snapshot %s, waiting %d seconds then retrying"
        "Encountered Error %s on snapshot %s, %d retries failed, continuing"
        (tag_snapshot volumes) (range 5) None.

(** The body of the [for snapshot in snapshots] loop, lines 243-258. *)
Definition snapshot_body (volumes : gmap string Volume.t) (total_snaps : nat)
    (snapshot : Snapshot.t) (this_snap : nat) : M World nat :=
  let this_snap := S this_snap in
  log INFO "Processing snapshot %d of %d total snapshots"
      [ANat this_snap; ANat total_snaps];;
  with_object snapshot (retry_tag_snapshot volumes);;
  mret this_snap.

(** Lines 199-221: the snapshots to work on. Lines 215-218 test
    [volume_id not in volume_ids]: neither name is bound in [tag_snapshots]
    or in the module, so the first round of that loop raises [NameError]. *)
Definition list_snapshots : M World (list Snapshot.t) :=
  snapshots_to_tag ← gets (λ w, _snapshots_to_tag (self w));
  match snapshots_to_tag with
  | _ :: _ =>
      log INFO "Using snapshot list from cli/config file" [];;
      log INFO "Using volume list from cli/config file" [];;
      snapshots ← get_all_snapshots (Some "self"%string)
                    (Some (list_to_set snapshots_to_tag));
      let snapshot_ids := map Snapshot.id snapshots in
      for_each snapshots_to_tag tt
        (λ snapshot_id _, raise (NameError "volume_id"));;
      mret snapshots
  | [] =>
      log INFO "Getting list of all snapshots" [];;
      get_all_snapshots (Some "self"%string) None
  end.

(** Line 235. *)
Definition volumes_by_id (volumes : list Volume.t) : gmap string Volume.t :=
  foldl (λ d v, <[Volume.id v := v]> d) ∅ volumes.

(** Lines 223-259: the parents and the loop. *)
Definition tag_listed_snapshots (snapshots : list Snapshot.t)
    : M World (option bool) :=
  match snapshots with
  | [] => log INFO "No snapshots found" [];; mret (Some true)
  | _ :: _ =>
      let all_volume_ids : gset string :=
        list_to_set (map Snapshot.volume_id snapshots) in
      volumes ← get_all_volumes (Some all_volume_ids);
      let volumes := volumes_by_id volumes in
      log DEBUG "Snapshot list >%s<" [AObjs (map obj_repr snapshots)];;
      let total_snaps := length snapshots in
      log INFO "Found %d snapshot(s)" [ANat total_snaps];;
      for_each snapshots 0 (snapshot_body volumes total_snaps);;
      log INFO "Completed processing all snapshots" [];;
      mret None
  end.

Definition tag_snapshots : M World (option bool) :=
  snapshots ← list_snapshots;
  tag_listed_snapshots snapshots.

(** ** propagate_tags (lines 80-88) *)

Definition propagate_tags : M World unit :=
  novolumes ← gets (λ w, _novolumes (self w));
  (if novolumes : bool then mret tt else tag_volumes;; mret tt);;
  nosnapshots ← gets (λ w, _nosnapshots (self w));
  (if nosnapshots : bool then mret tt else tag_snapshots;; mret tt).

(** ** __init__ (lines 30-75) *)

(** The two boto exceptions that [__init__] catches. *)
Inductive ConnectError : Type := NoAuthHandlerFound | ProfileNotFoundError.

(** What [ec2.connect_to_region(region, profile_name=...)] answers, by its
    arguments; the second is [None] for the call of line 73, which leaves the
    keyword out. *)
Definition Connect : Type := string → option pyval → ConnectError + Provider.

(** How the constructor is left: with the object, with an exception that
    core.py raises, or with a boto exception that it lets through. The trace
    holds the log records written until then. *)
Inductive Constructed : Type :=
  | Built (w : World)
  | Failed (e : Exn) (tr : list Event)
  | FailedBoto (e : ConnectError) (tr : list Event).

Definition __init__ (connect : Connect) (region : string) (profile : pyval)
    (instance_tags_to_propagate volume_tags_to_propagate : list string)
    (dryrun append : bool) (volumes_to_tag snapshots_to_tag : list string)
    (novolumes nosnapshots : bool) : Constructed :=
  let self :=
    mkGraffitiMonkey instance_tags_to_propagate volume_tags_to_propagate
      region profile dryrun append volumes_to_tag snapshots_to_tag
      novolumes nosnapshots in
  let tr :=
    [Log INFO "Starting Graffiti Monkey" [];
     Log INFO "Options: dryrun %s, append %s, novolumes %s, nosnapshots %s"
       [ABool (_dryrun self); ABool (_append self); ABool (_novolumes self);
        ABool (_nosnapshots self)];
     Log INFO "Connecting to region %s using profile %s"
       [AStr (_region self); AVal (_profile self)]] in
  match connect (_region self) (Some (_profile self)) with
  | inr conn => Built (mkWorld self conn tr)
  | inl NoAuthHandlerFound =>
      Failed (GraffitiMonkeyException
                "No AWS credentials found - check your credentials") tr
  | inl ProfileNotFoundError =>
      let tr :=
        tr ++ [Log INFO "Connecting to region %s using default credentials"
                 [AStr (_region self)]] in
      match connect (_region self) None with
      | inr conn => Built (mkWorld self conn tr)
      | inl NoAuthHandlerFound =>
          Failed (GraffitiMonkeyException
                    "No AWS credentials found - check your credentials") tr
      | inl ProfileNotFoundError => FailedBoto ProfileNotFoundError tr
      end
  end.

(** ** Logging.configure (lines 306-328) *)

Module Logging.

(** The levels of the [logging] module that [configure] passes on, and their
    numbers. *)
Inductive level : Type := DEBUG | INFO | CRITICAL.

Definition levelno (l : level) : Z :=
  match l with
  | DEBUG => 10
  | INFO => 20
  | CRITICAL => 50
  end.

Definition _log_simple_format : string :=
  "%(asctime)s [%(levelname)s] %(message)s".

Definition _log_detailed_format : string :=
  "%(asctime)s [%(levelname)s] [%(name)s(%(lineno)s):%(funcName)s] %(message)s".

(** [verbosity >= n]. The default of [verbosity] is [None], which Python 2
    orders below every number. *)
Definition ge (verbosity : option Z) (n : Z) : bool :=
  match verbosity with
  | None => false
  | Some v => (n <=? v)%Z
  end.

(** The two calls of [configure], in order. *)
Inductive call : Type :=
  | basicConfig (lvl : level) (format datefmt : string)
  | setLevel (logger : string) (lvl : level).

Definition configure (verbosity : option Z) : list call :=
  [ if ge verbosity 2 then basicConfig DEBUG _log_detailed_format "%F %T"
    else if ge verbosity 1 then basicConfig INFO _log_detailed_format "%F %T"
    else basicConfig INFO _log_simple_format "%F %T";
    if ge verbosity 4 then setLevel "boto" DEBUG
    else if ge verbosity 3 then setLevel "boto" INFO
    else setLevel "boto" CRITICAL ].

(** [v'] is at least as verbose as [v]. *)
Definition le (v v' : option Z) : Prop :=
  match v, v' with
  | None, _ => True
  | Some _, None => False
  | Some a, Some b => (a <= b)%Z
  end.

End Logging.

(** ** Reading a trace *)

Definition writes (tr : list Event) : list (Kind * string * tagmap) :=
  omap (λ e, match e with AddTags k i d => Some (k, i, d) | _ => None end) tr.

Definition sleeps (tr : list Event) : list nat :=
  omap (λ e, match e with Sleep n => Some n | _ => None end) tr.

Definition snapshot_queries (tr : list Event)
    : list (option string * option (gset string)) :=
  omap (λ e, match e with GetAllSnapshots o f => Some (o, f) | _ => None end) tr.

(** The dict that [tags_to_set] denotes when the resource is [r]. *)
Definition ref_dict `{EC2Object R} (t : TagsRef) (r : R) : tagmap :=
  match t with
  | Fresh d => d
  | Alias => obj_tags r
  end.

(** * The vocabulary of the properties *)

(** The dict that the loop of lines 178-182 (274-277) leaves, from [acc]. *)
Definition copied (names : list string) (parent_tags acc : tagmap) : tagmap :=
  foldl (λ d tag_name,
           match parent_tags !! tag_name with
           | Some value => <[tag_name := value]> d
           | None => d
           end) acc names.

Definition copy_log (fmt : string) (names : list string) : list Event :=
  map (λ tag_name, Log DEBUG fmt [AStr tag_name]) names.

(** Assignments through [tags_to_set] land in the resource when it is an
    alias. *)
Definition ref_update `{EC2Object R} (t : TagsRef) (f : tagmap → tagmap)
    : TagsRef * R → TagsRef * R :=
  λ '(_, r), match t with
             | Fresh d => (Fresh (f d), r)
             | Alias => (Alias, obj_with_tags (f (obj_tags r)) r)
             end.

(** The tags that [tag_volume] wants on the volume, from the accumulator's
    initial content [acc]. *)
Definition volume_tags_to_set (g : GraffitiMonkey) (instance : Instance.t)
    (volume : Volume.t) (acc : tagmap) : tagmap :=
  <["device"%string := or_none (AttachData.device (Volume.attach_data volume))]>
    (<["instance_id"%string :=
         or_none (AttachData.instance_id (Volume.attach_data volume))]>
       (copied (_instance_tags_to_propagate g) (Instance.tags instance) acc)).

Definition snapshot_tags_to_set (g : GraffitiMonkey) (volume : Volume.t)
    (acc : tagmap) : tagmap :=
  copied (_volume_tags_to_propagate g) (Volume.tags volume) acc.

(** The parent that [tag_volume] looks up. *)
Definition volume_parent (instances : gmap string Instance.t) (volume : Volume.t)
    : option Instance.t :=
  lookup_id instances (or_none (AttachData.instance_id (Volume.attach_data volume))).

Definition snapshot_parent (volumes : gmap string Volume.t) (snapshot : Snapshot.t)
    : option Volume.t :=
  volumes !! Snapshot.volume_id snapshot.

(** An operation that, on the object [r] under the configuration [g], logs
    [pre] and then makes the write call [add_tags delta]: what [tag_volume]
    and [tag_snapshot] are when there is something to write. *)
Definition attempts_write `{EC2Object R} (op : M (World * R) bool) (r : R)
    (g : GraffitiMonkey) (pre : list Event) (delta : tagmap) : Prop :=
  ∀ w, self w = g → op (w, r) = (add_tags delta;; mret true) (add_trace pre w, r).

(** The provider's next answer is acceptance. *)
Definition accepts_next (fs : list (option Fault)) : bool :=
  match fs with
  | Some _ :: _ => false
  | _ => true
  end.

(** The trace of a run of attempts that each met a server fault, and what
    [e] and [attempt] are bound to after them. *)
Fixpoint failed_attempts (trans_fmt : string) (pre : list Event) (call : Event)
    (rid : string) (codes : list string) (attempts : list nat) : list Event :=
  match codes, attempts with
  | c :: codes', a :: attempts' =>
      pre ++ [call; Log ERROR trans_fmt [AStr c; AStr rid; ANat a]; Sleep a]
      ++ failed_attempts trans_fmt pre call rid codes' attempts'
  | _, _ => []
  end.

Fixpoint last_caught (codes : list string) (attempts : list nat)
    (last : option (string * nat)) : option (string * nat) :=
  match codes, attempts with
  | c :: codes', a :: attempts' => last_caught codes' attempts' (Some (c, a))
  | _, _ => last
  end.

(** What the claim about the retry loop says of a run [run] of the loop for
    one resource, under the configuration [g], when every attempt makes the
    write call [call]: the provider's answers decide the outcome, the number
    of attempts (each attempt is one write call) and the sleeps. *)
Definition retry_contract (g : GraffitiMonkey) (run : M World Outcome)
    (call : Kind * string * tagmap) : Prop :=
  ∀ w, self w = g →
    (∀ codes rest,
       length codes < 5 → accepts_next rest = true →
       faults (conn w) = (Some ∘ ServerFault <$> codes) ++ rest →
       let '(res, w') := run w in
       res = Ok Success ∧
       writes (trace w') = writes (trace w) ++ replicate (S (length codes)) call ∧
       sleeps (trace w') = sleeps (trace w) ++ seq 0 (length codes)) ∧
    (∀ codes rest,
       length codes = 5 →
       faults (conn w) = (Some ∘ ServerFault <$> codes) ++ rest →
       let '(res, w') := run w in
       res = Ok ExhaustedFailure ∧
       writes (trace w') = writes (trace w) ++ replicate 5 call ∧
       sleeps (trace w') = sleeps (trace w) ++ seq 0 5) ∧
    (∀ c rest,
       faults (conn w) = Some (ClientFault c) :: rest →
       let '(res, w') := run w in
       res = Ok PermanentFailure ∧
       writes (trace w') = writes (trace w) ++ [call] ∧
       sleeps (trace w') = sleeps (trace w)).

(** [frames P w w']: from [w] to [w'] the object [self] is untouched and the
    trace has grown by events that satisfy [P]. *)
Definition frames (P : Event → Prop) (w w' : World) : Prop :=
  self w' = self w ∧ ∃ tr, trace w' = trace w ++ tr ∧ Forall P tr.

Class HasWorld (St : Type) : Type := world_of : St → World.
#[global] Instance World_HasWorld : HasWorld World := λ w, w.
#[global] Instance Obj_HasWorld {R} : HasWorld (World * R) := fst.

(** A computation all of whose runs are framed. *)
Definition Framed `{HasWorld St} {A} (P : Event → Prop) (m : M St A) : Prop :=
  ∀ s, frames P (world_of s) (world_of (snd (m s))).

(** The events of the tagging itself: everything but a query. *)
Definition tagging_event (e : Event) : Prop :=
  match e with
  | Log _ _ _ | Sleep _ | AddTags _ _ _ => True
  | _ => False
  end.

(** The list that the loop of lines 108-111 leaves, and its log records. *)
Fixpoint dropped (fuel i : nat) (volume_ids l : list string) : list string :=
  match fuel with
  | 0 => l
  | S fuel' =>
      match l !! i with
      | None => l
      | Some volume_id =>
          dropped fuel' (S i) volume_ids
            (if bool_decide (volume_id ∉ volume_ids)
             then list_remove volume_id l else l)
      end
  end.

Fixpoint dropped_log (fuel i : nat) (volume_ids l : list string) : list Event :=
  match fuel with
  | 0 => []
  | S fuel' =>
      match l !! i with
      | None => []
      | Some volume_id =>
          if bool_decide (volume_id ∉ volume_ids) then
            Log INFO "Volume %s does not exist and will not be tagged"
                [AStr volume_id]
            :: dropped_log fuel' (S i) volume_ids (list_remove volume_id l)
          else dropped_log fuel' (S i) volume_ids l
      end
  end.

(** The events of a stage after its listing: no snapshot query is among
    them. *)
Definition no_snapshot_query (e : Event) : Prop :=
  match e with
  | GetAllSnapshots _ _ => False
  | _ => True
  end.

(** The exceptions that the retry loop catches. *)
Definition is_boto (e : Exn) : bool :=
  match e with
  | EC2ResponseError _ | BotoServerError _ => true
  | _ => false
  end.

(** What the body of a stage loop is about to do with a resource, when the
    provider accepts every write: pass on without a write, leave the loop
    with an exception, or bring the resource's tags to contain [d]. *)
Inductive Plan : Type :=
  | Quiet
  | Abort (e : Exn)
  | Want (d : tagmap).

Definition is_ok {A} (r : Res A) : bool :=
  match r with
  | Ok _ => true
  | Raise _ => false
  end.

(** The provider's entry of a resource after the write [(i, d)], and after
    the writes [ups]. *)
Definition upd `{EC2Object R} (i : string) (d : tagmap) (r : R) : R :=
  if decide (obj_id r = i) then obj_with_tags (d ∪ obj_tags r) r else r.

Definition relist `{EC2Object R} (ups : list (string * tagmap)) (r : R) : R :=
  foldl (λ r '(i, d), upd i d r) r ups.

Definition apply_ups (k : Kind) (ups : list (string * tagmap)) (p : Provider)
    : Provider :=
  foldl (λ p '(i, d), provider_add_tags k i d p) p ups.

(** The body of a stage loop does what the plan says, under the
    configurations [cfg] and when the provider accepts every write. *)
Definition follows_plan `{EC2Object R} {C : Type} (cfg : GraffitiMonkey → Prop)
    (plan : R → Plan) (body : R → C → M World C) : Prop :=
  ∀ r c w, cfg (self w) → faults (conn w) = [] →
    ∃ tr,
      match plan r with
      | Quiet =>
          (∃ c', body r c w = (Ok c', add_trace tr w)) ∧ writes tr = []
      | Abort e =>
          body r c w = (Raise e, add_trace tr w) ∧ writes tr = []
      | Want d =>
          let delta := delta_of (obj_tags r) d in
          (∃ c', body r c w =
                 (Ok c',
                  mkWorld (self w)
                    (provider_add_tags obj_kind (obj_id r) delta (conn w))
                    (trace w ++ tr))) ∧
          writes tr = if decide (delta = ∅) then []
                      else [(obj_kind, obj_id r, delta)]
      end.

(** The part of the configuration that the tagging methods read. *)
Definition tagging_config (g : GraffitiMonkey)
    : bool * bool * list string * list string :=
  (_dryrun g, _append g, _instance_tags_to_propagate g,
   _volume_tags_to_propagate g).

Definition volume_plan (g : GraffitiMonkey) (instances : gmap string Instance.t)
    (v : Volume.t) : Plan :=
  if bool_decide (Volume.status v ≠ "in-use"%string) then Quiet
  else
    match volume_parent instances v with
    | None =>
        Abort (KeyError (or_none (AttachData.instance_id (Volume.attach_data v))))
    | Some instance =>
        if _dryrun g then Quiet
        else if negb (Volume.tagged v)
        then Abort (GraffitiMonkeyException (not_tagged_message v))
        else if _append g then Quiet
        else Want (volume_tags_to_set g instance v ∅)
    end.

Definition snapshot_plan (g : GraffitiMonkey) (volumes : gmap string Volume.t)
    (s : Snapshot.t) : Plan :=
  match snapshot_parent volumes s with
  | None => Abort (KeyError (PyStr (Snapshot.volume_id s)))
  | Some parent =>
      if _dryrun g then Quiet
      else if negb (Snapshot.tagged s)
      then Abort (GraffitiMonkeyException (not_tagged_message s))
      else if _append g then Quiet
      else Want (snapshot_tags_to_set g parent ∅)
  end.

(** What one call of a tagging method does when the provider accepts every
    write, in the terms of a plan. *)
Definition op_follows `{EC2Object R} (op : M (World * R) bool) (r : R)
    (p : Plan) (w : World) : Prop :=
  ∃ tr r',
    match p with
    | Quiet => op (w, r) = (Ok true, (add_trace tr w, r')) ∧ writes tr = []
    | Abort e =>
        op (w, r) = (Raise e, (add_trace tr w, r')) ∧ writes tr = [] ∧
        is_boto e = false
    | Want d =>
        let delta := delta_of (obj_tags r) d in
        op (w, r) =
          (Ok true,
           (mkWorld (self w)
              (provider_add_tags obj_kind (obj_id r) delta (conn w))
              (trace w ++ tr), r')) ∧
        writes tr = if decide (delta = ∅) then [] else [(obj_kind, obj_id r, delta)]
    end.

(** The volumes that [list_volumes] returns. *)
Definition listed_volumes (g : GraffitiMonkey) (p : Provider) : list Volume.t :=
  match _volumes_to_tag g with
  | [] => volumes p
  | l => filter (λ v, Volume.id v ∈ (list_to_set l : gset string)) (volumes p)
  end.

(** The parent mappings that the stages build. *)
Definition volume_parents (L : list Volume.t) (p : Provider)
    : gmap string Instance.t :=
  instances_by_id
    (filter (λ i, PyStr (Instance.id i) ∈
                  (list_to_set
                     (map (λ v, AttachData.instance_id (Volume.attach_data v)) L)
                   : gset pyval))
            (instances p)).

Definition snapshot_parents (L : list Snapshot.t) (p : Provider)
    : gmap string Volume.t :=
  volumes_by_id
    (filter (λ v, Volume.id v ∈
                  (list_to_set (map Snapshot.volume_id L) : gset string))
            (volumes p)).

(** The two halves of [propagate_tags]. *)
Definition volumes_part : M World unit :=
  novolumes ← gets (λ w, _novolumes (self w));
  if novolumes : bool then mret tt else tag_volumes;; mret tt.

Definition snapshots_part : M World unit :=
  nosnapshots ← gets (λ w, _nosnapshots (self w));
  if nosnapshots : bool then mret tt else tag_snapshots;; mret tt.

(** The two modes in which nothing is sent to the provider: the dry-run, and
    the append mode, where [tags_to_set] is the resource's own dict. *)
Definition no_write_mode (g : GraffitiMonkey) : bool := _dryrun g || _append g.

(** From [w] to [w'] no write call was made and the provider is as it was,
    if [w] is in one of these modes; [w'] is then in one of them too. *)
Definition quiet (w w' : World) : Prop :=
  no_write_mode (self w) = true →
  no_write_mode (self w') = true ∧ conn w' = conn w ∧
  writes (trace w') = writes (trace w).

(** The events that are neither a query nor a write. *)
Definition silent (e : Event) : Prop :=
  match e with
  | Log _ _ _ | Sleep _ => True
  | _ => False
  end.

(** The sum of the sizes of [L], in GB. *)
Definition total_size (L : list Volume.t) : Z :=
  foldr (λ v z, (Volume.size v + z)%Z) 0%Z L.

(** The queries among the events of a trace. *)
Definition is_query (e : Event) : bool :=
  match e with
  | GetAllVolumes _ | GetAllInstances _ | GetAllSnapshots _ _ => true
  | _ => false
  end.

Definition queries (tr : list Event) : list Event :=
  filter (λ e, is_query e = true) tr.

(** The [filters] argument of the listing query of a stage. *)
Definition id_filter (l : list string) : option (gset string) :=
  match l with
  | [] => None
  | _ :: _ => Some (list_to_set l)
  end.

(** What a [for] over a list of distinct ids leaves when its body removes the
    ids that are not in [ids] from that same list: the id that follows a
    removed one moves into its place, is stepped over, and stays. *)
Fixpoint scan_skipping (ids l : list string) : list string :=
  match l with
  | [] => []
  | x :: l' =>
      if decide (x ∈ ids) then x :: scan_skipping ids l'
      else match l' with
           | [] => []
           | y :: l'' => y :: scan_skipping ids l''
           end
  end.

(** The snapshots that [list_snapshots] returns when no ids are requested:
    those of the account itself. *)
Definition listed_snapshots (p : Provider) : list Snapshot.t :=
  filter (λ s, owned_by p (Some "self"%string) s && true = true) (snapshots p).

(** The write calls that a stage loop makes on the resources [L] when each
    body follows its plan, and the resource that a plan leaves. *)
Definition plan_ups `{EC2Object R} (plan : R → Plan) (L : list R)
    : list (string * tagmap) :=
  omap (λ r, match plan r with
             | Want d => Some (obj_id r, delta_of (obj_tags r) d)
             | _ => None
             end) L.

Definition planned `{EC2Object R} (plan : R → Plan) (r : R) : R :=
  match plan r with
  | Want d => obj_with_tags (d ∪ obj_tags r) r
  | _ => r
  end.

(** Whether the volume stage works on the volume [v]. *)
Definition requested (g : GraffitiMonkey) (v : Volume.t) : bool :=
  match _volumes_to_tag g with
  | [] => true
  | l => bool_decide (Volume.id v ∈ l)
  end.

(** A volume in use with the tags of its instance assigned into its own, and
    a snapshot with the tags of its volume assigned into its own. *)
Definition tagged_volume (g : GraffitiMonkey) (instances : gmap string Instance.t)
    (v : Volume.t) : Volume.t :=
  if bool_decide (Volume.status v ≠ "in-use"%string) then v
  else match volume_parent instances v with
       | Some instance =>
           Volume.with_tags (volume_tags_to_set g instance v (Volume.tags v)) v
       | None => v
       end.

Definition tagged_snapshot (g : GraffitiMonkey) (volumes : gmap string Volume.t)
    (s : Snapshot.t) : Snapshot.t :=
  match snapshot_parent volumes s with
  | Some volume =>
      Snapshot.with_tags (snapshot_tags_to_set g volume (Snapshot.tags s)) s
  | None => s
  end.

(** From [w] to [w'] the tagging configuration is kept, and every write call
    made satisfies [Q]. *)
Definition writes_within (Q : Kind * string * tagmap → Prop) (w w' : World)
    : Prop :=
  tagging_config (self w') = tagging_config (self w) ∧
  ∃ ws, writes (trace w') = writes (trace w) ++ ws ∧ ∀ x, x ∈ ws → Q x.

(** The write calls that a run under the configuration [g] on the inventory
    [p] may make: on a volume of the inventory that is in use, and is among
    the requested ones if there are any, with tags named [device],
    [instance_id] or in the list of instance tags; on a snapshot of the
    inventory that the account owns, with tags named in the list of volume
    tags. *)
Definition volume_write_ok (g : GraffitiMonkey) (p : Provider)
    (x : Kind * string * tagmap) : Prop :=
  x.1.1 = KVolume ∧
  (∃ v, v ∈ volumes p ∧ Volume.id v = x.1.2 ∧
        Volume.status v = "in-use"%string ∧ requested g v = true) ∧
  ∀ key, is_Some (x.2 !! key) →
         key = "device"%string ∨ key = "instance_id"%string ∨
         key ∈ _instance_tags_to_propagate g.

Definition snapshot_write_ok (g : GraffitiMonkey) (p : Provider)
    (x : Kind * string * tagmap) : Prop :=
  x.1.1 = KSnapshot ∧
  (∃ s, s ∈ snapshots p ∧ Snapshot.id s = x.1.2 ∧
        Snapshot.owner_id s = account p) ∧
  ∀ key, is_Some (x.2 !! key) → key ∈ _volume_tags_to_propagate g.

(** From [w] to [w'] the account and the snapshots of the provider are the
    same. *)
Definition keeps_snapshots (w w' : World) : Prop :=
  account (conn w') = account (conn w) ∧
  snapshots (conn w') = snapshots (conn w).

(** ** Concrete scenarios *)

(** An instance tagged [env=prod], a volume attached to it, a volume that is
    not attached, and a snapshot of the first volume, in one account. *)
Definition ex_instance : Instance.t :=
  Instance.mk "i-1" {[ "env"%string := PyStr "prod" ]}.

Definition ex_volume : Volume.t :=
  Volume.mk true "vol-1" "in-use" 8
    (AttachData.mk (PyStr "i-1") (PyStr "/dev/sdf")) ∅.

Definition ex_idle_volume : Volume.t :=
  Volume.mk true "vol-2" "available" 20
    (AttachData.mk PyNone PyNone) {[ "Name"%string := PyStr "scratch" ]}.

Definition ex_snapshot : Snapshot.t :=
  Snapshot.mk true "snap-1" "vol-1" "111122223333" ∅.

Definition ex_tags : tagmap := {[ "env"%string := PyStr "prod" ]}.

Definition ex_volume_tags : tagmap :=
  {[ "env"%string := PyStr "prod"; "instance_id"%string := PyStr "i-1";
     "device"%string := PyStr "/dev/sdf" ]}.

Definition ex_provider (vs : list Volume.t) (ss : list Snapshot.t)
    (fs : list (option Fault)) : Provider :=
  mkProvider "111122223333" vs [ex_instance] ss fs.

Definition ex_config (dryrun append : bool) (volumes_to_tag snapshots_to_tag : list string)
    : GraffitiMonkey :=
  mkGraffitiMonkey ["env"%string] ["env"%string] "us-east-1" PyNone
    dryrun append volumes_to_tag snapshots_to_tag false false.

(** The usual run: both resources listed, nothing requested by id. *)
Definition ex_world (dryrun append : bool) (fs : list (option Fault)) : World :=
  mkWorld (ex_config dryrun append [] [])
    (ex_provider [ex_volume; ex_idle_volume] [ex_snapshot] fs) [].

Definition ex_instances : gmap string Instance.t := instances_by_id [ex_instance].

Definition ex_volumes : gmap string Volume.t :=
  volumes_by_id [Volume.with_tags ex_volume_tags ex_volume].

(** A volume object of a class that is no [TaggedEC2Object], listed before
    [ex_volume], and a snapshot whose volume is gone, listed before
    [ex_snapshot]. *)
Definition ex_untagged_volume : Volume.t :=
  Volume.mk false "vol-0" "in-use" 8
    (AttachData.mk (PyStr "i-1") (PyStr "/dev/sdg")) ∅.

Definition ex_orphan_snapshot : Snapshot.t :=
  Snapshot.mk true "snap-0" "vol-gone" "111122223333" ∅.

Definition ex_untagged_world : World :=
  mkWorld (ex_config false false [] [])
    (ex_provider [ex_untagged_volume; ex_volume] [] []) [].

Definition ex_orphan_world : World :=
  mkWorld (ex_config false false [] [])
    (ex_provider [Volume.with_tags ex_volume_tags ex_volume]
       [ex_orphan_snapshot; ex_snapshot] []) [].

(** Two requested volume ids that the provider does not know, and a
    requested snapshot id that it does know. *)
Definition ex_missing_volumes_world : World :=
  mkWorld (ex_config false false ["vol-a"; "vol-b"]%string [])
    (ex_provider [ex_volume] [ex_snapshot] []) [].

Definition ex_requested_snapshot_world : World :=
  mkWorld (ex_config false false [] ["snap-1"%string])
    (ex_provider [Volume.with_tags ex_volume_tags ex_volume] [ex_snapshot] []) [].

(** A profile that is not found, and default credentials that connect to the
    usual provider. *)
Definition ex_connect : Connect :=
  λ _ profile_name,
    match profile_name with
    | Some _ => inl ProfileNotFoundError
    | None => inr (ex_provider [ex_volume; ex_idle_volume] [ex_snapshot] [])
    end.

(** * Properties *)

Arguments add_trace : simpl never.

Ltac unfold_monad :=
  unfold log, sleep, emit, set_conn, get_obj, with_object, liftW,
    mbind, M_bind, mret, M_ret, gets, modify, raise in *.

(** ** The delta of [_set_resource_tags] *)

Lemma tag_differs_spec (current : tagmap) k v :
  tag_differs current k v = true ↔
  current !! k = None ∨ ∃ cur, current !! k = Some cur ∧ cur ≠ v.
Proof.
  unfold tag_differs. destruct (current !! k) as [cur|] eqn:E.
  - rewrite bool_decide_eq_true. split.
    + intros Hne. right. by exists cur.
    + intros [?|(cur' & Hc & Hne)]; [done|]. by simplify_eq.
  - split; [by left|done].
Qed.

Lemma delta_of_lookup (current tags : tagmap) k v :
  delta_of current tags !! k = Some v ↔
  tags !! k = Some v ∧ tag_differs current k v = true.
Proof.
  unfold delta_of. revert k v.
  apply (map_fold_weak_ind
           (λ (r m : tagmap), ∀ k v,
              r !! k = Some v ↔ m !! k = Some v ∧ tag_differs current k v = true)).
  - intros k v. rewrite !lookup_empty. split; [done | by intros [? _]].
  - intros i x m r Hi IH k v.
    destruct (tag_differs current i x) eqn:Hd.
    + destruct (decide (i = k)) as [->|Hne].
      * rewrite !lookup_insert_eq.
        split; [intros ?; simplify_eq; done | by intros [? _]].
      * rewrite !lookup_insert_ne by done. apply IH.
    + rewrite IH. destruct (decide (i = k)) as [->|Hne].
      * rewrite lookup_insert_eq, Hi.
        split; intros [Hv Hd']; simplify_eq; congruence.
      * by rewrite lookup_insert_ne.
Qed.

Lemma delta_of_same (current : tagmap) : delta_of current current = ∅.
Proof.
  apply map_eq. intros k. rewrite lookup_empty.
  destruct (delta_of current current !! k) as [v|] eqn:E; [|done].
  apply delta_of_lookup in E as [Hk Hd].
  unfold tag_differs in Hd. rewrite Hk in Hd.
  by apply bool_decide_eq_true in Hd.
Qed.

Lemma delta_of_union (current tags : tagmap) :
  delta_of current tags ∪ current = tags ∪ current.
Proof.
  apply map_eq. intros k. rewrite !lookup_union.
  destruct (tags !! k) as [v|] eqn:Ht.
  - destruct (tag_differs current k v) eqn:Hd.
    + assert (delta_of current tags !! k = Some v) as ->
        by by apply delta_of_lookup.
      done.
    + assert (delta_of current tags !! k = None) as ->.
      { destruct (delta_of current tags !! k) as [v'|] eqn:E; [|done].
        apply delta_of_lookup in E as [? ?]. congruence. }
      unfold tag_differs in Hd. destruct (current !! k) as [cur|]; [|done].
      apply bool_decide_eq_false in Hd. apply dec_stable in Hd. by subst.
  - assert (delta_of current tags !! k = None) as ->; [|done].
    destruct (delta_of current tags !! k) as [v'|] eqn:E; [|done].
    apply delta_of_lookup in E as [? ?]. congruence.
Qed.

Lemma writes_app tr1 tr2 : writes (tr1 ++ tr2) = writes tr1 ++ writes tr2.
Proof. apply omap_app. Qed.

Lemma sleeps_app tr1 tr2 : sleeps (tr1 ++ tr2) = sleeps tr1 ++ sleeps tr2.
Proof. apply omap_app. Qed.

(** What one call of [add_tags] does, by the provider's next answer. *)
Lemma add_tags_run `{EC2Object R} (delta : tagmap) (w : World) (r : R) :
  add_tags delta (w, r) =
  let tr := trace w ++ [AddTags obj_kind (obj_id r) delta] in
  match faults (conn w) with
  | Some f :: rest =>
      (Raise (fault_exn f), (mkWorld (self w) (set_faults rest (conn w)) tr, r))
  | fs =>
      (Ok tt,
       (mkWorld (self w)
          (provider_add_tags obj_kind (obj_id r) delta
             (set_faults (tail fs) (conn w))) tr,
        obj_with_tags (delta ∪ obj_tags r) r))
  end.
Proof.
  unfold add_tags. unfold_monad. simpl.
  destruct (faults (conn w)) as [|[f|] rest]; reflexivity.
Qed.

Lemma add_tags_trace `{EC2Object R} (delta : tagmap) (w : World) (r : R) :
  trace (fst (snd (add_tags delta (w, r)))) =
  trace w ++ [AddTags obj_kind (obj_id r) delta].
Proof.
  rewrite add_tags_run. by destruct (faults (conn w)) as [|[f|] rest].
Qed.

(** What [_set_resource_tags] does on a taggable resource. *)
Lemma set_resource_tags_run `{EC2Object R} (tags : TagsRef) (w : World) (r : R) :
  obj_tagged r = true →
  _set_resource_tags tags (w, r) =
  let delta := delta_of (obj_tags r) (ref_dict tags r) in
  if bool_decide (delta = ∅) then (Ok tt, (w, r)) else add_tags delta (w, r).
Proof.
  intros Ht. unfold _set_resource_tags. unfold_monad. simpl. rewrite Ht. simpl.
  assert (deref tags (w, r) = (Ok (ref_dict tags r), (w, r))) as ->
    by by destruct tags.
  simpl.
  destruct (decide (delta_of (obj_tags r) (ref_dict tags r) = ∅)) as [He|Hne].
  - rewrite He, map_size_empty. by rewrite !bool_decide_eq_true_2.
  - rewrite !bool_decide_eq_false_2; [done|done|].
    by rewrite map_size_empty_iff.
Qed.

(** C1. On a taggable resource, [_set_resource_tags] computes as delta
    exactly the desired entries whose key the resource's current tags lack
    or hold with another value; when the delta is empty nothing happens (no
    write call, the state is as before), and when it is not the trace grows
    by exactly one write call, which carries exactly that delta. *)
Theorem set_resource_tags_delta `{EC2Object R} (tags : TagsRef) (w : World) (r : R) :
  obj_tagged r = true →
  let delta := delta_of (obj_tags r) (ref_dict tags r) in
  (∀ k v, delta !! k = Some v ↔
          ref_dict tags r !! k = Some v ∧
          (obj_tags r !! k = None ∨ ∃ cur, obj_tags r !! k = Some cur ∧ cur ≠ v)) ∧
  (delta = ∅ → _set_resource_tags tags (w, r) = (Ok tt, (w, r))) ∧
  (delta ≠ ∅ →
   trace (fst (snd (_set_resource_tags tags (w, r)))) =
   trace w ++ [AddTags obj_kind (obj_id r) delta]).
Proof.
  intros Ht delta. split; [|split].
  - intros k v. unfold delta. by rewrite delta_of_lookup, tag_differs_spec.
  - intros He. rewrite set_resource_tags_run by done. simpl.
    fold delta. by rewrite bool_decide_eq_true_2.
  - intros Hne. rewrite set_resource_tags_run by done. simpl.
    fold delta. rewrite bool_decide_eq_false_2 by done. apply add_tags_trace.
Qed.

(** ** What tag_volume and tag_snapshot compute *)

Lemma add_trace_nil w : add_trace [] w = w.
Proof. destruct w. unfold add_trace. simpl. by rewrite app_nil_r. Qed.

Lemma add_trace_app tr1 tr2 w :
  add_trace tr2 (add_trace tr1 w) = add_trace (tr1 ++ tr2) w.
Proof. unfold add_trace. simpl. by rewrite app_assoc. Qed.

Lemma copy_tags_run `{EC2ObjectLaws R} fmt names parent_tags (t : TagsRef) w (r : R) :
  copy_tags fmt names parent_tags t (w, r) =
  let '(t', r') := ref_update t (copied names parent_tags) (t, r) in
  (Ok t', (add_trace (copy_log fmt names) w, r')).
Proof.
  unfold copy_tags. revert t w r.
  induction names as [|n names IH]; intros t w r.
  - simpl. rewrite add_trace_nil. destruct t; simpl; [done|].
    by rewrite obj_with_tags_same.
  - simpl. unfold_monad. simpl.
    destruct (parent_tags !! n) as [value|] eqn:Hn.
    + destruct t as [d|]; simpl.
      * unfold mbind, M_bind in IH. rewrite IH. simpl.
        by rewrite add_trace_app.
      * unfold mbind, M_bind in IH. rewrite IH. simpl.
        rewrite add_trace_app. rewrite obj_tags_with_tags.
        by rewrite obj_with_tags_twice.
    + unfold mbind, M_bind in IH. rewrite IH. simpl.
      destruct t; by rewrite add_trace_app.
Qed.

Lemma tag_volume_run instances w (volume : Volume.t) :
  tag_volume instances (w, volume) =
  match volume_parent instances volume with
  | None =>
      (Raise (KeyError (or_none (AttachData.instance_id (Volume.attach_data volume)))),
       (w, volume))
  | Some instance =>
      let g := self w in
      let acc := if _append g then Volume.tags volume else ∅ in
      let d := volume_tags_to_set g instance volume acc in
      let t := if _append g then Alias else Fresh d in
      let volume' := if _append g then Volume.with_tags d volume else volume in
      let w' := add_trace (copy_log "Trying to propagate instance tag: %s"
                             (_instance_tags_to_propagate g)) w in
      if _dryrun g then
        (Ok true,
         (add_trace [Log INFO "DRYRUN: Volume %s would have been tagged %s"
                       [AStr (Volume.id volume); ATags d]] w', volume'))
      else
        (_set_resource_tags t;; mret true) (w', volume')
  end.
Proof.
  unfold tag_volume, volume_parent, getitem.
  unfold mbind at 1, M_bind at 1. unfold get_obj at 1, gets at 1.
  unfold mbind at 1, M_bind at 1.
  destruct (lookup_id _ _) as [instance|]; [|done].
  unfold mret at 1, M_ret at 1.
  unfold mbind at 1, M_bind at 1, gets at 1. simpl fst.
  unfold mbind at 1, M_bind at 1, gets at 1. simpl fst.
  unfold mbind at 1, M_bind at 1. rewrite copy_tags_run.
  destruct w as [g p tr]. simpl self.
  destruct (_append g); unfold setitem, deref; unfold_monad; simpl;
    destruct (_dryrun g); simpl; reflexivity.
Qed.

Lemma tag_snapshot_run volumes w (snapshot : Snapshot.t) :
  tag_snapshot volumes (w, snapshot) =
  match snapshot_parent volumes snapshot with
  | None => (Raise (KeyError (PyStr (Snapshot.volume_id snapshot))), (w, snapshot))
  | Some volume =>
      let g := self w in
      let acc := if _append g then Snapshot.tags snapshot else ∅ in
      let d := snapshot_tags_to_set g volume acc in
      let t := if _append g then Alias else Fresh d in
      let snapshot' := if _append g then Snapshot.with_tags d snapshot else snapshot in
      let w' := add_trace (copy_log "Trying to propagate volume tag: %s"
                             (_volume_tags_to_propagate g)) w in
      if _dryrun g then
        (Ok true,
         (add_trace [Log INFO "DRYRUN: Snapshot %s would have been tagged %s"
                       [AStr (Snapshot.id snapshot); ATags d]] w', snapshot'))
      else
        (_set_resource_tags t;; mret true) (w', snapshot')
  end.
Proof.
  unfold tag_snapshot, snapshot_parent, getitem.
  unfold mbind at 1, M_bind at 1. unfold get_obj at 1, gets at 1.
  unfold mbind at 1, M_bind at 1. unfold lookup_id.
  destruct (volumes !! _) as [volume|]; [|reflexivity].
  unfold mret at 1, M_ret at 1.
  unfold mbind at 1, M_bind at 1, gets at 1. simpl fst.
  unfold mbind at 1, M_bind at 1, gets at 1. simpl fst.
  unfold mbind at 1, M_bind at 1. rewrite copy_tags_run.
  destruct w as [g p tr]. simpl self.
  destruct (_append g); unfold setitem, deref; unfold_monad; simpl;
    destruct (_dryrun g); simpl; reflexivity.
Qed.

Lemma writes_copy_log fmt names : writes (copy_log fmt names) = [].
Proof. induction names; [done|]. simpl. done. Qed.

Lemma trace_add_trace tr w : trace (add_trace tr w) = trace w ++ tr.
Proof. done. Qed.

Lemma conn_add_trace tr w : conn (add_trace tr w) = conn w.
Proof. done. Qed.

Lemma self_add_trace tr w : self (add_trace tr w) = self w.
Proof. done. Qed.

(** Through an alias the desired tags are the current tags: the delta is
    empty and nothing is written. *)
Lemma set_resource_tags_alias `{EC2Object R} (w : World) (r : R) :
  _set_resource_tags Alias (w, r) =
  (if obj_tagged r then Ok tt
   else Raise (GraffitiMonkeyException (not_tagged_message r)),
   (w, r)).
Proof.
  destruct (obj_tagged r) eqn:Ht.
  - rewrite set_resource_tags_run by done. simpl.
    by rewrite delta_of_same, bool_decide_eq_true_2.
  - unfold _set_resource_tags. unfold_monad. simpl. by rewrite Ht.
Qed.

(** ** Dry-run *)

(** C2. With the dry-run flag set, [tag_volume] and [tag_snapshot] issue no
    write call and leave the provider as it was, for every resource and every
    other setting; they return [True] whenever the parent of the resource is
    in the parent mapping (otherwise the lookup raises [KeyError], before
    anything else happens). *)
Theorem dryrun_never_writes instances volumes (w : World)
    (volume : Volume.t) (snapshot : Snapshot.t) :
  _dryrun (self w) = true →
  (let '(res, (w', _)) := tag_volume instances (w, volume) in
   writes (trace w') = writes (trace w) ∧ conn w' = conn w ∧
   (is_Some (volume_parent instances volume) → res = Ok true)) ∧
  (let '(res, (w', _)) := tag_snapshot volumes (w, snapshot) in
   writes (trace w') = writes (trace w) ∧ conn w' = conn w ∧
   (is_Some (snapshot_parent volumes snapshot) → res = Ok true)).
Proof.
  intros Hdry. split.
  - rewrite tag_volume_run. destruct (volume_parent _ _) as [instance|].
    + simpl. rewrite Hdry. rewrite !trace_add_trace, !writes_app, writes_copy_log.
      simpl. by rewrite !app_nil_r.
    + split; [done|]. split; [done|]. by intros [? ?].
  - rewrite tag_snapshot_run. destruct (snapshot_parent _ _) as [vol|].
    + simpl. rewrite Hdry. rewrite !trace_add_trace, !writes_app, writes_copy_log.
      simpl. by rewrite !app_nil_r.
    + split; [done|]. split; [done|]. by intros [? ?].
Qed.

(** ** Append mode *)

(** C9. In append mode [tags_to_set] is the resource's own [tags] dict. After
    [tag_volume] the volume object's tags are its former tags with the
    propagated instance tags and the [instance_id] and [device] entries
    assigned into them, and after [tag_snapshot] the snapshot object's tags
    are its former tags with the propagated volume tags assigned into them;
    this holds whatever the dry-run flag is, and under dry-run no write call
    is made and the provider is as before. *)
Theorem append_mutates_resource_tags instances volumes (w : World)
    (volume : Volume.t) (snapshot : Snapshot.t) instance parent :
  _append (self w) = true →
  volume_parent instances volume = Some instance →
  snapshot_parent volumes snapshot = Some parent →
  (let '(res, (w', volume')) := tag_volume instances (w, volume) in
   Volume.tags volume' =
     volume_tags_to_set (self w) instance volume (Volume.tags volume) ∧
   Volume.tags volume' !! "instance_id"%string =
     Some (or_none (AttachData.instance_id (Volume.attach_data volume))) ∧
   Volume.tags volume' !! "device"%string =
     Some (or_none (AttachData.device (Volume.attach_data volume))) ∧
   (_dryrun (self w) = true →
    res = Ok true ∧ writes (trace w') = writes (trace w) ∧ conn w' = conn w)) ∧
  (let '(res, (w', snapshot')) := tag_snapshot volumes (w, snapshot) in
   Snapshot.tags snapshot' =
     snapshot_tags_to_set (self w) parent (Snapshot.tags snapshot) ∧
   (_dryrun (self w) = true →
    res = Ok true ∧ writes (trace w') = writes (trace w) ∧ conn w' = conn w)).
Proof.
  intros Happ Hinst Hvol. split.
  - rewrite tag_volume_run, Hinst. simpl. rewrite Happ.
    destruct (_dryrun (self w)) eqn:Hdry.
    + split; [done|]. split; [|split].
      * simpl. unfold volume_tags_to_set.
        rewrite lookup_insert_ne by done. by rewrite lookup_insert_eq.
      * simpl. unfold volume_tags_to_set. by rewrite lookup_insert_eq.
      * intros _. rewrite !trace_add_trace, !writes_app, writes_copy_log.
        simpl. by rewrite !app_nil_r.
    + unfold mbind, M_bind. rewrite set_resource_tags_alias.
      destruct (obj_tagged _); simpl.
      * split; [done|]. split; [|split; [|done]].
        -- unfold volume_tags_to_set.
           rewrite lookup_insert_ne by done. by rewrite lookup_insert_eq.
        -- unfold volume_tags_to_set. by rewrite lookup_insert_eq.
      * split; [done|]. split; [|split; [|done]].
        -- unfold volume_tags_to_set.
           rewrite lookup_insert_ne by done. by rewrite lookup_insert_eq.
        -- unfold volume_tags_to_set. by rewrite lookup_insert_eq.
  - rewrite tag_snapshot_run, Hvol. simpl. rewrite Happ.
    destruct (_dryrun (self w)) eqn:Hdry.
    + split; [done|]. intros _.
      rewrite !trace_add_trace, !writes_app, writes_copy_log.
      simpl. by rewrite !app_nil_r.
    + unfold mbind, M_bind. rewrite set_resource_tags_alias.
      destruct (obj_tagged _); simpl; done.
Qed.

(** ** Volumes that are not in use *)

Lemma volume_body_not_in_use instances total_vols (volume : Volume.t)
    (this_vol : nat) (storage_counter : Z) (w : World) :
  Volume.status volume ≠ "in-use"%string →
  volume_body instances total_vols volume (this_vol, storage_counter) w =
  (Ok (S this_vol, (storage_counter + Volume.size volume)%Z),
   add_trace
     [Log INFO "Processing volume %d of %d total volumes"
        [ANat (S this_vol); ANat total_vols];
      Log DEBUG
        "Skipping %s as it is not attached to an EC2 instance, so there is nothing to propagate"
        [AStr (Volume.id volume)]] w).
Proof.
  intros Hst. unfold volume_body. simpl.
  rewrite bool_decide_eq_true_2 by done.
  unfold_monad. simpl. by rewrite add_trace_app.
Qed.

(** C4. For a volume whose status is not ["in-use"], the body of the volume
    loop does nothing but count it and log: it returns normally, the provider
    and [self] are as before, and the trace grows by the two log records
    only. The parent mapping is not consulted (the result is the same for
    every mapping, with or without the volume's instance) and no write call is
    made, whatever the configuration is. *)
Theorem skip_volume_not_in_use instances total_vols (volume : Volume.t)
    (this_vol : nat) (storage_counter : Z) (w : World) :
  Volume.status volume ≠ "in-use"%string →
  ∃ tr,
    volume_body instances total_vols volume (this_vol, storage_counter) w =
    (Ok (S this_vol, (storage_counter + Volume.size volume)%Z), add_trace tr w) ∧
    tr = [Log INFO "Processing volume %d of %d total volumes"
            [ANat (S this_vol); ANat total_vols];
          Log DEBUG
            "Skipping %s as it is not attached to an EC2 instance, so there is nothing to propagate"
            [AStr (Volume.id volume)]] ∧
    writes tr = [] ∧
    conn (add_trace tr w) = conn w ∧ self (add_trace tr w) = self w.
Proof.
  intros Hst. eexists. split; [by apply volume_body_not_in_use|]. done.
Qed.

(** ** The retry loop *)

Lemma attempt_server_fault `{EC2Object R} op (r : R) g pre delta w c rest :
  attempts_write op r g pre delta →
  self w = g →
  faults (conn w) = Some (ServerFault c) :: rest →
  op (w, r) =
  (Raise (BotoServerError c),
   (mkWorld g (set_faults rest (conn w))
      (trace w ++ pre ++ [AddTags obj_kind (obj_id r) delta]), r)).
Proof.
  intros Hop Hg Hf. rewrite Hop by done. unfold mbind, M_bind.
  rewrite add_tags_run. simpl. rewrite Hf. simpl.
  unfold add_trace. simpl. by rewrite Hg, app_assoc.
Qed.

Lemma attempt_client_fault `{EC2Object R} op (r : R) g pre delta w c rest :
  attempts_write op r g pre delta →
  self w = g →
  faults (conn w) = Some (ClientFault c) :: rest →
  op (w, r) =
  (Raise (EC2ResponseError c),
   (mkWorld g (set_faults rest (conn w))
      (trace w ++ pre ++ [AddTags obj_kind (obj_id r) delta]), r)).
Proof.
  intros Hop Hg Hf. rewrite Hop by done. unfold mbind, M_bind.
  rewrite add_tags_run. simpl. rewrite Hf. simpl.
  unfold add_trace. simpl. by rewrite Hg, app_assoc.
Qed.

Lemma attempt_accepted `{EC2Object R} op (r : R) g pre delta w :
  attempts_write op r g pre delta →
  self w = g →
  accepts_next (faults (conn w)) = true →
  op (w, r) =
  (Ok true,
   (mkWorld g
      (provider_add_tags obj_kind (obj_id r) delta
         (set_faults (tail (faults (conn w))) (conn w)))
      (trace w ++ pre ++ [AddTags obj_kind (obj_id r) delta]),
    obj_with_tags (delta ∪ obj_tags r) r)).
Proof.
  intros Hop Hg Hf. rewrite Hop by done. unfold mbind, M_bind.
  rewrite add_tags_run. simpl.
  destruct (faults (conn w)) as [|[f|] rest] eqn:E; simpl; [|done|].
  - unfold add_trace. simpl. by rewrite Hg, app_assoc.
  - unfold add_trace. simpl. by rewrite Hg, app_assoc.
Qed.

Lemma retry_server_faults `{EC2Object R} f1 f2 f3 op (r : R) g pre delta
    codes attempts last w rest :
  attempts_write op r g pre delta →
  self w = g →
  faults (conn w) = (Some ∘ ServerFault <$> codes) ++ rest →
  length codes ≤ length attempts →
  retry f1 f2 f3 op attempts last (w, r) =
  retry f1 f2 f3 op (drop (length codes) attempts)
    (last_caught codes attempts last)
    (mkWorld g (set_faults rest (conn w))
       (trace w ++ failed_attempts f2 pre (AddTags obj_kind (obj_id r) delta)
                     (obj_id r) codes attempts), r).
Proof.
  intros Hop. revert attempts last w.
  induction codes as [|c codes IH]; intros attempts last w Hg Hf Hlen.
  - simpl in *. rewrite app_nil_r. destruct w as [g' p tr]. simpl in *.
    subst. by destruct p.
  - destruct attempts as [|a attempts]; [simpl in Hlen; lia|].
    simpl in Hf, Hlen. simpl retry at 1.
    erewrite attempt_server_fault by done.
    unfold_monad. simpl. unfold add_trace. simpl.
    rewrite IH; [|done|done|lia]. simpl.
    do 2 f_equal. f_equal. rewrite <- !app_assoc. simpl. done.
Qed.

Lemma writes_failed_attempts f2 pre k rid delta codes attempts :
  writes pre = [] →
  length codes ≤ length attempts →
  writes (failed_attempts f2 pre (AddTags k rid delta) rid codes attempts) =
  replicate (length codes) (k, rid, delta).
Proof.
  intros Hpre. revert attempts.
  induction codes as [|c codes IH]; intros [|a attempts] Hlen; simpl in *;
    try done; try lia.
  rewrite writes_app, Hpre. simpl. f_equal. apply IH. lia.
Qed.

Lemma sleeps_failed_attempts f2 pre k rid delta codes attempts :
  sleeps pre = [] →
  length codes ≤ length attempts →
  sleeps (failed_attempts f2 pre (AddTags k rid delta) rid codes attempts) =
  take (length codes) attempts.
Proof.
  intros Hpre. revert attempts.
  induction codes as [|c codes IH]; intros [|a attempts] Hlen; simpl in *;
    try done; try lia.
  rewrite sleeps_app, Hpre. simpl. f_equal. apply IH. lia.
Qed.

Lemma last_caught_is_Some codes attempts last :
  codes ≠ [] → length codes ≤ length attempts →
  ∃ c a, last_caught codes attempts last = Some (c, a).
Proof.
  revert attempts last.
  induction codes as [|c codes IH]; intros attempts last Hne Hlen; [done|].
  destruct attempts as [|a attempts]; [simpl in Hlen; lia|]. simpl.
  destruct codes as [|c' codes]; [by exists c, a|].
  apply IH; [done|simpl in *; lia].
Qed.

Lemma replicate_snoc {A} (n : nat) (x : A) :
  replicate n x ++ [x] = replicate (S n) x.
Proof. induction n as [|n IH]; [done|]. simpl. by rewrite IH. Qed.

Lemma retry_contract_holds `{EC2Object R} f1 f2 f3 op (r : R) g pre delta :
  attempts_write op r g pre delta →
  writes pre = [] → sleeps pre = [] →
  retry_contract g (with_object r (retry f1 f2 f3 op (range 5) None))
    (obj_kind, obj_id r, delta).
Proof.
  intros Hop Hpw Hps w Hg. unfold with_object, range.
  split; [|split].
  - intros codes rest Hlen Hacc Hf.
    remember (seq 0 5) as atts eqn:Hatts.
    assert (length atts = 5) as Hlen5 by by subst.
    rewrite (retry_server_faults f1 f2 f3 op r g pre delta codes atts None w rest)
      by first [done | lia].
    destruct (drop (length codes) atts) as [|a attempts] eqn:Hd.
    { apply (f_equal length) in Hd. rewrite length_drop, Hlen5 in Hd.
      simpl in Hd. lia. }
    simpl retry.
    erewrite attempt_accepted; [|done|done|done]. simpl.
    rewrite !writes_app, !sleeps_app, Hpw, Hps.
    rewrite writes_failed_attempts by first [done | lia].
    rewrite sleeps_failed_attempts by first [done | lia].
    split; [done|]. split.
    + simpl. rewrite <- app_assoc. f_equal. apply replicate_snoc.
    + simpl. rewrite app_nil_r. f_equal. subst atts.
      rewrite take_seq. f_equal. lia.
  - intros codes rest Hlen Hf.
    remember (seq 0 5) as atts eqn:Hatts.
    assert (length atts = 5) as Hlen5 by by subst.
    rewrite (retry_server_faults f1 f2 f3 op r g pre delta codes atts None w rest)
      by first [done | lia].
    destruct (last_caught_is_Some codes atts None) as (c & a & ->);
      [by destruct codes | lia |].
    rewrite drop_ge by lia. simpl retry. unfold_monad. simpl.
    rewrite !writes_app, !sleeps_app.
    rewrite writes_failed_attempts by first [done | lia].
    rewrite sleeps_failed_attempts by first [done | lia].
    rewrite Hlen. simpl. rewrite !app_nil_r. split; [done|]. split; [done|].
    f_equal. subst atts. done.
  - intros c rest Hf. simpl retry.
    erewrite attempt_client_fault by done.
    unfold_monad. simpl.
    rewrite !writes_app, !sleeps_app, Hpw, Hps. simpl.
    by rewrite !app_nil_r.
Qed.

Lemma sleeps_copy_log fmt names : sleeps (copy_log fmt names) = [].
Proof. induction names; [done|]. simpl. done. Qed.

Lemma tag_volume_attempts_write instances g (volume : Volume.t) instance :
  _dryrun g = false → _append g = false →
  Volume.tagged volume = true →
  volume_parent instances volume = Some instance →
  delta_of (Volume.tags volume) (volume_tags_to_set g instance volume ∅) ≠ ∅ →
  attempts_write (tag_volume instances) volume g
    (copy_log "Trying to propagate instance tag: %s" (_instance_tags_to_propagate g))
    (delta_of (Volume.tags volume) (volume_tags_to_set g instance volume ∅)).
Proof.
  intros Hdry Happ Htag Hinst Hne w Hg.
  rewrite tag_volume_run, Hinst. simpl. rewrite Hg, Hdry, Happ.
  unfold mbind, M_bind. rewrite set_resource_tags_run by done. simpl.
  by rewrite bool_decide_eq_false_2.
Qed.

Lemma tag_snapshot_attempts_write volumes g (snapshot : Snapshot.t) parent :
  _dryrun g = false → _append g = false →
  Snapshot.tagged snapshot = true →
  snapshot_parent volumes snapshot = Some parent →
  delta_of (Snapshot.tags snapshot) (snapshot_tags_to_set g parent ∅) ≠ ∅ →
  attempts_write (tag_snapshot volumes) snapshot g
    (copy_log "Trying to propagate volume tag: %s" (_volume_tags_to_propagate g))
    (delta_of (Snapshot.tags snapshot) (snapshot_tags_to_set g parent ∅)).
Proof.
  intros Hdry Happ Htag Hvol Hne w Hg.
  rewrite tag_snapshot_run, Hvol. simpl. rewrite Hg, Hdry, Happ.
  unfold mbind, M_bind. rewrite set_resource_tags_run by done. simpl.
  by rewrite bool_decide_eq_false_2.
Qed.

(** Neither [_set_resource_tags] nor the tagging methods sleep. *)
Lemma set_resource_tags_sleeps `{EC2Object R} t (w : World) (r : R) :
  sleeps (trace (fst (snd (_set_resource_tags t (w, r))))) = sleeps (trace w).
Proof.
  destruct (obj_tagged r) eqn:Ht.
  - rewrite set_resource_tags_run by done. simpl.
    case_bool_decide; [done|].
    rewrite add_tags_trace, sleeps_app. simpl. by rewrite app_nil_r.
  - unfold _set_resource_tags. unfold_monad. simpl. by rewrite Ht.
Qed.

Lemma tag_volume_sleeps instances (s : World * Volume.t) :
  sleeps (trace (fst (snd (tag_volume instances s)))) = sleeps (trace (fst s)).
Proof.
  destruct s as [w volume]. rewrite tag_volume_run.
  destruct (volume_parent _ _) as [instance|]; [|done]. simpl.
  destruct (_dryrun (self w)).
  - simpl. rewrite !sleeps_app, sleeps_copy_log. simpl. by rewrite !app_nil_r.
  - unfold mbind, M_bind.
    match goal with
    | |- context [_set_resource_tags ?t (?w', ?r')] =>
        pose proof (set_resource_tags_sleeps t w' r') as Hs;
        destruct (_set_resource_tags t (w', r')) as [[[]|e] [w'' r'']]
    end; simpl in *; rewrite Hs, sleeps_app, sleeps_copy_log;
      by rewrite app_nil_r.
Qed.

Lemma tag_snapshot_sleeps volumes (s : World * Snapshot.t) :
  sleeps (trace (fst (snd (tag_snapshot volumes s)))) = sleeps (trace (fst s)).
Proof.
  destruct s as [w snapshot]. rewrite tag_snapshot_run.
  destruct (snapshot_parent _ _) as [parent|]; [|done]. simpl.
  destruct (_dryrun (self w)).
  - simpl. rewrite !sleeps_app, sleeps_copy_log. simpl. by rewrite !app_nil_r.
  - unfold mbind, M_bind.
    match goal with
    | |- context [_set_resource_tags ?t (?w', ?r')] =>
        pose proof (set_resource_tags_sleeps t w' r') as Hs;
        destruct (_set_resource_tags t (w', r')) as [[[]|e] [w'' r'']]
    end; simpl in *; rewrite Hs, sleeps_app, sleeps_copy_log;
      by rewrite app_nil_r.
Qed.

(** The sleeps of the loop are those of its first attempts, in order. *)
Lemma retry_sleeps `{EC2Object R} f1 f2 f3 (op : M (World * R) bool) :
  (∀ s, sleeps (trace (fst (snd (op s)))) = sleeps (trace (fst s))) →
  ∀ attempts last s,
    ∃ n, n ≤ length attempts ∧
         sleeps (trace (fst (snd (retry f1 f2 f3 op attempts last s)))) =
         sleeps (trace (fst s)) ++ take n attempts.
Proof.
  intros Hop attempts.
  induction attempts as [|a attempts IH]; intros last [w r].
  - exists 0. split; [done|]. simpl.
    destruct last as [[c a]|]; unfold_monad; simpl.
    + rewrite sleeps_app. done.
    + by rewrite app_nil_r.
  - simpl retry. pose proof (Hop (w, r)) as Hs.
    destruct (op (w, r)) as [[b|e] [w' r']]; simpl in Hs.
    + exists 0. split; [lia|]. simpl. by rewrite app_nil_r.
    + destruct e as [c|c|m|k|nm].
      * exists 0. split; [lia|]. unfold_monad. simpl.
        rewrite sleeps_app, Hs. done.
      * unfold_monad. simpl.
        match goal with
        | |- context [retry f1 f2 f3 op attempts ?l ?s] =>
            destruct (IH l s) as (n & Hn & ->)
        end.
        exists (S n). split; [simpl; lia|]. simpl.
        rewrite !sleeps_app, Hs. simpl. by rewrite app_nil_r, <- app_assoc.
      * exists 0. split; [lia|]. simpl. by rewrite app_nil_r.
      * exists 0. split; [lia|]. simpl. by rewrite app_nil_r.
      * exists 0. split; [lia|]. simpl. by rewrite app_nil_r.
Qed.

(** C6. The retry loop around [tag_volume] and around [tag_snapshot], when
    the method has something to write (no dry-run, no append mode, a taggable
    resource whose parent is known and whose delta is not empty), so that each
    attempt is one write call. If the provider answers the first [k < 5]
    write calls with a server fault and accepts the next, the loop ends in
    [Success] after [k + 1] attempts and the [k] sleeps of 0, 1, ..., k-1
    seconds; if it answers five with a server fault, the loop ends in
    [ExhaustedFailure] after exactly 5 attempts; if it answers the first with
    a client fault, the loop ends in [PermanentFailure] after exactly 1
    attempt and no sleep. And in every run of either loop, whatever the
    configuration and the provider, the sleeps are 0, 1, ..., n-1 seconds in
    this order for some [n ≤ 5]: they do not decrease, and the first is of 0
    seconds. *)
Theorem retry_wrapper_contract instances volumes
    (volume : Volume.t) (snapshot : Snapshot.t) (g : GraffitiMonkey) :
  (∀ instance,
     _dryrun g = false → _append g = false →
     Volume.tagged volume = true →
     volume_parent instances volume = Some instance →
     delta_of (Volume.tags volume) (volume_tags_to_set g instance volume ∅) ≠ ∅ →
     retry_contract g (with_object volume (retry_tag_volume instances))
       (KVolume, Volume.id volume,
        delta_of (Volume.tags volume) (volume_tags_to_set g instance volume ∅))) ∧
  (∀ parent,
     _dryrun g = false → _append g = false →
     Snapshot.tagged snapshot = true →
     snapshot_parent volumes snapshot = Some parent →
     delta_of (Snapshot.tags snapshot) (snapshot_tags_to_set g parent ∅) ≠ ∅ →
     retry_contract g (with_object snapshot (retry_tag_snapshot volumes))
       (KSnapshot, Snapshot.id snapshot,
        delta_of (Snapshot.tags snapshot) (snapshot_tags_to_set g parent ∅))) ∧
  (∀ w, ∃ n, n ≤ 5 ∧
     sleeps (trace (snd (with_object volume (retry_tag_volume instances) w))) =
     sleeps (trace w) ++ seq 0 n) ∧
  (∀ w, ∃ n, n ≤ 5 ∧
     sleeps (trace (snd (with_object snapshot (retry_tag_snapshot volumes) w))) =
     sleeps (trace w) ++ seq 0 n).
Proof.
  split; [|split; [|split]].
  - intros instance Hdry Happ Htag Hinst Hne.
    apply (retry_contract_holds _ _ _ (tag_volume instances) volume g _ _
             (tag_volume_attempts_write _ _ _ _ Hdry Happ Htag Hinst Hne));
      [apply writes_copy_log | apply sleeps_copy_log].
  - intros parent Hdry Happ Htag Hvol Hne.
    apply (retry_contract_holds _ _ _ (tag_snapshot volumes) snapshot g _ _
             (tag_snapshot_attempts_write _ _ _ _ Hdry Happ Htag Hvol Hne));
      [apply writes_copy_log | apply sleeps_copy_log].
  - intros w. unfold with_object, retry_tag_volume.
    match goal with
    | |- context [retry ?f1 ?f2 ?f3 ?op ?a ?l ?s] =>
        destruct (retry_sleeps f1 f2 f3 op (tag_volume_sleeps instances) a l s)
          as (n & Hn & Hs);
        destruct (retry f1 f2 f3 op a l s) as [res [w' r']]
    end.
    unfold range in *. rewrite length_seq in Hn.
    exists n. split; [exact Hn|]. cbn [fst snd] in Hs |- *. rewrite Hs.
    rewrite take_seq. do 2 f_equal. lia.
  - intros w. unfold with_object, retry_tag_snapshot.
    match goal with
    | |- context [retry ?f1 ?f2 ?f3 ?op ?a ?l ?s] =>
        destruct (retry_sleeps f1 f2 f3 op (tag_snapshot_sleeps volumes) a l s)
          as (n & Hn & Hs);
        destruct (retry f1 f2 f3 op a l s) as [res [w' r']]
    end.
    unfold range in *. rewrite length_seq in Hn.
    exists n. split; [exact Hn|]. cbn [fst snd] in Hs |- *. rewrite Hs.
    rewrite take_seq. do 2 f_equal. lia.
Qed.

(** ** Frame conditions *)

Lemma frames_refl P w : frames P w w.
Proof. split; [done|]. exists []. by rewrite app_nil_r. Qed.

Lemma frames_trans P w1 w2 w3 : frames P w1 w2 → frames P w2 w3 → frames P w1 w3.
Proof.
  intros [Hs1 (tr1 & Ht1 & Hp1)] [Hs2 (tr2 & Ht2 & Hp2)].
  split; [congruence|]. exists (tr1 ++ tr2).
  split; [by rewrite Ht2, Ht1, app_assoc | by apply Forall_app].
Qed.

Lemma frames_add_trace (P : Event → Prop) tr w :
  Forall P tr → frames P w (add_trace tr w).
Proof. intros Hp. split; [done|]. by exists tr. Qed.

Section framed.
Context `{HasWorld St} (P : Event → Prop).

Lemma Framed_ret {A} (a : A) : Framed P (mret a : M St A).
Proof. intros s. apply frames_refl. Qed.

Lemma Framed_raise {A} e : Framed P (raise e : M St A).
Proof. intros s. apply frames_refl. Qed.

Lemma Framed_gets {A} (f : St → A) : Framed P (gets f).
Proof. intros s. apply frames_refl. Qed.

Lemma Framed_bind {A B} (m : M St A) (k : A → M St B) :
  Framed P m → (∀ a, Framed P (k a)) → Framed P (m ≫= k).
Proof.
  intros Hm Hk s. unfold mbind, M_bind. specialize (Hm s).
  destruct (m s) as [[a|e] s']; [|done].
  eapply frames_trans; [exact Hm|]. apply Hk.
Qed.

Lemma Framed_for_each {A B} (l : list A) (acc : B) (body : A → B → M St B) :
  (∀ x b, Framed P (body x b)) → Framed P (for_each l acc body).
Proof.
  intros Hb. revert acc. induction l as [|x l IH]; intros acc; simpl.
  - apply Framed_ret.
  - apply Framed_bind; [apply Hb | intros b; apply IH].
Qed.
End framed.

Lemma Framed_emit P e : P e → Framed P (emit e).
Proof.
  intros He w. unfold emit, modify. simpl.
  apply frames_add_trace. by constructor.
Qed.

Lemma Framed_liftW {R A} P (m : M World A) :
  Framed P m → Framed P (liftW m : M (World * R) A).
Proof.
  intros Hm [w r]. unfold liftW. specialize (Hm w).
  by destruct (m w) as [res w'].
Qed.

Lemma Framed_with_object {R A} P (r : R) (m : M (World * R) A) :
  Framed P m → Framed P (with_object r m).
Proof.
  intros Hm w. unfold with_object. specialize (Hm (w, r)).
  by destruct (m (w, r)) as [res [w' r']].
Qed.

Lemma Framed_modify_obj {R} P (f : World * R → World * R) :
  (∀ s, fst (f s) = fst s) → Framed P (modify f).
Proof.
  intros Hf s. unfold modify. simpl. unfold world_of, Obj_HasWorld.
  rewrite Hf. apply frames_refl.
Qed.

Lemma Framed_set_conn P p : Framed P (set_conn p).
Proof. intros w. split; [done|]. exists []. simpl. by rewrite app_nil_r. Qed.

Section framed_methods.
Variable P : Event → Prop.
Hypothesis P_tagging : ∀ e, tagging_event e → P e.

Lemma Framed_log lvl fmt args : Framed P (log lvl fmt args).
Proof. apply Framed_emit. by apply P_tagging. Qed.

Lemma Framed_sleep n : Framed P (sleep n).
Proof. apply Framed_emit. by apply P_tagging. Qed.

Lemma Framed_add_tags `{EC2Object R} delta : Framed P (add_tags delta (R:=R)).
Proof.
  intros [w r]. rewrite add_tags_run. simpl.
  destruct (faults (conn w)) as [|[f|] rest]; simpl;
    (split; [done|]; eexists; split; [done|]; constructor; [|done];
     by apply P_tagging).
Qed.

Lemma Framed_setitem `{EC2Object R} t k v : Framed P (setitem t k v (R:=R)).
Proof.
  destruct t; simpl; [apply Framed_ret|].
  apply Framed_bind; [|intros; apply Framed_ret].
  apply Framed_modify_obj. by intros [w r].
Qed.

Lemma Framed_deref `{EC2Object R} t : Framed P (deref t (R:=R)).
Proof. destruct t; [apply Framed_ret | apply Framed_gets]. Qed.

Lemma Framed_getitem `{HasWorld St} {A} (d : gmap string A) key :
  Framed P (getitem d key : M St A).
Proof.
  unfold getitem. destruct (lookup_id d key); [apply Framed_ret|apply Framed_raise].
Qed.

Lemma Framed_copy_tags `{EC2Object R} fmt names parent_tags t :
  Framed P (copy_tags fmt names parent_tags t (R:=R)).
Proof.
  unfold copy_tags. apply Framed_for_each. intros n t'.
  apply Framed_bind; [apply Framed_liftW, Framed_log|]. intros _.
  destruct (parent_tags !! n); [apply Framed_setitem | apply Framed_ret].
Qed.

Lemma Framed_set_resource_tags `{EC2Object R} t :
  Framed P (_set_resource_tags t (R:=R)).
Proof.
  unfold _set_resource_tags. apply Framed_bind; [apply Framed_gets|].
  intros r. destruct (negb (obj_tagged r)); [apply Framed_raise|].
  apply Framed_bind; [apply Framed_deref|]. intros items.
  apply Framed_bind; [apply Framed_gets|]. intros current.
  case_bool_decide; [apply Framed_ret | apply Framed_add_tags].
Qed.

Lemma Framed_tag_volume instances : Framed P (tag_volume instances).
Proof.
  unfold tag_volume. apply Framed_bind; [apply Framed_gets|]. intros volume.
  apply Framed_bind; [apply Framed_getitem|]. intros instance.
  apply Framed_bind; [apply Framed_gets|]. intros append.
  apply Framed_bind; [apply Framed_gets|]. intros names.
  apply Framed_bind; [apply Framed_copy_tags|]. intros t.
  apply Framed_bind; [apply Framed_setitem|]. intros t1.
  apply Framed_bind; [apply Framed_setitem|]. intros t2.
  apply Framed_bind; [apply Framed_gets|]. intros dryrun.
  apply Framed_bind; [|intros; apply Framed_ret].
  destruct dryrun; [|apply Framed_set_resource_tags].
  apply Framed_bind; [apply Framed_deref|]. intros d.
  apply Framed_liftW, Framed_log.
Qed.

Lemma Framed_tag_snapshot volumes : Framed P (tag_snapshot volumes).
Proof.
  unfold tag_snapshot. apply Framed_bind; [apply Framed_gets|]. intros snapshot.
  apply Framed_bind; [apply Framed_getitem|]. intros volume.
  apply Framed_bind; [apply Framed_gets|]. intros append.
  apply Framed_bind; [apply Framed_gets|]. intros names.
  apply Framed_bind; [apply Framed_copy_tags|]. intros t.
  apply Framed_bind; [apply Framed_gets|]. intros dryrun.
  apply Framed_bind; [|intros; apply Framed_ret].
  destruct dryrun; [|apply Framed_set_resource_tags].
  apply Framed_bind; [apply Framed_deref|]. intros d.
  apply Framed_liftW, Framed_log.
Qed.

Lemma Framed_retry `{EC2Object R} f1 f2 f3 (op : M (World * R) bool) attempts last :
  Framed P op → Framed P (retry f1 f2 f3 op attempts last).
Proof.
  intros Hop. revert last.
  induction attempts as [|a attempts IH]; intros last.
  - simpl. destruct last as [[c a]|]; [|apply Framed_raise].
    apply Framed_bind; [apply Framed_gets|]. intros r.
    apply Framed_bind; [apply Framed_liftW, Framed_log|].
    intros; apply Framed_ret.
  - intros s. simpl. specialize (Hop s).
    destruct (op s) as [[b|e] s']; [done|].
    destruct e as [c|c|m|k|nm]; try done.
    + eapply frames_trans; [exact Hop|].
      apply (Framed_bind P); [apply Framed_gets|]. intros r.
      apply Framed_bind; [apply Framed_liftW, Framed_log|].
      intros; apply Framed_ret.
    + eapply frames_trans; [exact Hop|].
      apply (Framed_bind P); [apply Framed_gets|]. intros r.
      apply Framed_bind; [apply Framed_liftW, Framed_log|]. intros _.
      apply Framed_bind; [apply Framed_liftW, Framed_sleep|]. intros _.
      apply IH.
Qed.

Lemma Framed_volume_body instances total_vols volume counters :
  Framed P (volume_body instances total_vols volume counters).
Proof.
  unfold volume_body. apply Framed_bind; [apply Framed_log|]. intros _.
  apply Framed_bind; [|intros; apply Framed_ret].
  case_bool_decide; [apply Framed_log|].
  apply Framed_bind; [|intros; apply Framed_ret].
  apply Framed_with_object, Framed_retry, Framed_tag_volume.
Qed.

Lemma Framed_snapshot_body volumes total_snaps snapshot this_snap :
  Framed P (snapshot_body volumes total_snaps snapshot this_snap).
Proof.
  unfold snapshot_body. apply Framed_bind; [apply Framed_log|]. intros _.
  apply Framed_bind; [|intros; apply Framed_ret].
  apply Framed_with_object, Framed_retry, Framed_tag_snapshot.
Qed.
End framed_methods.

(** ** The explicit id filters *)

Lemma set_volumes_to_tag_same g : set_volumes_to_tag (_volumes_to_tag g) g = g.
Proof. by destruct g. Qed.

Lemma set_volumes_to_tag_twice l l' g :
  set_volumes_to_tag l' (set_volumes_to_tag l g) = set_volumes_to_tag l' g.
Proof. done. Qed.

Lemma drop_missing_volumes_run fuel i volume_ids w :
  drop_missing_volumes fuel i volume_ids w =
  (Ok tt,
   mkWorld
     (set_volumes_to_tag (dropped fuel i volume_ids (_volumes_to_tag (self w)))
        (self w))
     (conn w)
     (trace w ++ dropped_log fuel i volume_ids (_volumes_to_tag (self w)))).
Proof.
  revert i w. induction fuel as [|fuel IH]; intros i w.
  - simpl. unfold_monad. rewrite set_volumes_to_tag_same, app_nil_r.
    by destruct w.
  - simpl. unfold_monad. simpl.
    destruct (_volumes_to_tag (self w) !! i) as [volume_id|] eqn:Hi.
    + case_bool_decide.
      * simpl. rewrite IH. simpl. unfold add_trace. simpl.
        by rewrite <- app_assoc.
      * simpl. by rewrite IH.
    + rewrite set_volumes_to_tag_same, app_nil_r. by destruct w.
Qed.

(** The fuel is not what ends the loop: any fuel above the number of
    elements still to visit gives the same list. *)
Lemma list_remove_length x l : length (list_remove x l) ≤ length l.
Proof.
  induction l as [|y l IH]; simpl; [done|]. case_decide; simpl; lia.
Qed.

Lemma dropped_fuel fuel fuel' i volume_ids l :
  length l - i < fuel → length l - i < fuel' →
  dropped fuel i volume_ids l = dropped fuel' i volume_ids l.
Proof.
  revert fuel' i l. induction fuel as [|fuel IH]; intros fuel' i l Hf Hf'; [lia|].
  destruct fuel' as [|fuel']; [lia|]. simpl.
  destruct (l !! i) as [x|] eqn:Hi; [|done].
  apply lookup_lt_Some in Hi.
  case_bool_decide.
  - pose proof (list_remove_length x l). apply IH; lia.
  - apply IH; lia.
Qed.

Lemma list_remove_sublist x l : list_remove x l `sublist_of` l.
Proof.
  induction l as [|y l IH]; simpl; [done|].
  case_decide; [by apply sublist_cons | by apply sublist_skip].
Qed.

Lemma dropped_sublist fuel i volume_ids l :
  dropped fuel i volume_ids l `sublist_of` l.
Proof.
  revert i l. induction fuel as [|fuel IH]; intros i l; simpl; [done|].
  destruct (l !! i) as [x|]; [|done].
  case_bool_decide; [|apply IH].
  etrans; [apply IH | apply list_remove_sublist].
Qed.

Lemma list_remove_filter (Q : string → Prop) `{∀ x, Decision (Q x)} x l :
  ¬ Q x → filter Q (list_remove x l) = filter Q l.
Proof.
  intros Hx. induction l as [|y l IH]; simpl; [done|].
  case_decide as Hy.
  - subst. by rewrite filter_cons_False.
  - rewrite !filter_cons. by rewrite IH.
Qed.

(** Only elements that are not among [volume_ids] are removed. *)
Lemma dropped_keeps fuel i volume_ids l :
  filter (.∈ volume_ids) (dropped fuel i volume_ids l) =
  filter (.∈ volume_ids) l.
Proof.
  revert i l. induction fuel as [|fuel IH]; intros i l; simpl; [done|].
  destruct (l !! i) as [x|]; [|done].
  case_bool_decide; [|apply IH].
  rewrite IH. by apply list_remove_filter.
Qed.

Lemma Framed_get_all_volumes (P : Event → Prop) filters :
  P (GetAllVolumes filters) → Framed P (get_all_volumes filters).
Proof.
  intros Hp. unfold get_all_volumes.
  apply Framed_bind; [by apply Framed_emit | intros; apply Framed_gets].
Qed.

Lemma Framed_get_all_instances (P : Event → Prop) filters :
  P (GetAllInstances filters) → Framed P (get_all_instances filters).
Proof.
  intros Hp. unfold get_all_instances.
  apply Framed_bind; [by apply Framed_emit | intros; apply Framed_gets].
Qed.

Lemma Framed_get_all_snapshots (P : Event → Prop) owner filters :
  P (GetAllSnapshots owner filters) → Framed P (get_all_snapshots owner filters).
Proof.
  intros Hp. unfold get_all_snapshots.
  apply Framed_bind; [by apply Framed_emit | intros; apply Framed_gets].
Qed.

Lemma tagging_no_snapshot_query e : tagging_event e → no_snapshot_query e.
Proof. by destruct e. Qed.

Lemma Framed_tag_listed_volumes volumes :
  Framed no_snapshot_query (tag_listed_volumes volumes).
Proof.
  pose proof tagging_no_snapshot_query as Ht.
  unfold tag_listed_volumes. destruct volumes as [|v volumes].
  - apply Framed_bind; [by apply Framed_log | intros; apply Framed_ret].
  - apply Framed_bind; [by apply Framed_get_all_instances|]. intros reservation.
    apply Framed_bind; [by apply Framed_log|]. intros _.
    apply Framed_bind; [by apply Framed_log|]. intros _.
    apply Framed_bind.
    { apply Framed_for_each. intros x b. by apply Framed_volume_body. }
    intros counters.
    apply Framed_bind; [by apply Framed_log|]. intros _.
    apply Framed_bind; [by apply Framed_log|]. intros _. apply Framed_ret.
Qed.

Lemma Framed_tag_listed_snapshots snapshots :
  Framed no_snapshot_query (tag_listed_snapshots snapshots).
Proof.
  pose proof tagging_no_snapshot_query as Ht.
  unfold tag_listed_snapshots. destruct snapshots as [|s snapshots].
  - apply Framed_bind; [by apply Framed_log | intros; apply Framed_ret].
  - apply Framed_bind; [by apply Framed_get_all_volumes|]. intros volumes.
    apply Framed_bind; [by apply Framed_log|]. intros _.
    apply Framed_bind; [by apply Framed_log|]. intros _.
    apply Framed_bind.
    { apply Framed_for_each. intros x b. by apply Framed_snapshot_body. }
    intros _.
    apply Framed_bind; [by apply Framed_log|]. intros _. apply Framed_ret.
Qed.

Lemma Framed_weaken `{HasWorld St} {A} (P Q : Event → Prop) (m : M St A) :
  (∀ e, P e → Q e) → Framed P m → Framed Q m.
Proof.
  intros Hpq Hm s. destruct (Hm s) as [Hs (tr & Ht & Hp)].
  split; [done|]. exists tr. split; [done|]. by eapply Forall_impl.
Qed.

Lemma Framed_list_snapshots : Framed (λ _, True) list_snapshots.
Proof.
  unfold list_snapshots. apply Framed_bind; [apply Framed_gets|].
  intros [|x l].
  - apply Framed_bind; [by apply Framed_emit|]. intros _.
    by apply Framed_get_all_snapshots.
  - apply Framed_bind; [by apply Framed_emit|]. intros _.
    apply Framed_bind; [by apply Framed_emit|]. intros _.
    apply Framed_bind; [by apply Framed_get_all_snapshots|]. intros snapshots.
    apply Framed_bind; [|intros; apply Framed_ret].
    apply Framed_for_each. intros; apply Framed_raise.
Qed.

Lemma Framed_tag_snapshots : Framed (λ _, True) tag_snapshots.
Proof.
  unfold tag_snapshots. apply Framed_bind; [apply Framed_list_snapshots|].
  intros snapshots. eapply Framed_weaken; [|apply Framed_tag_listed_snapshots].
  done.
Qed.

(** What [list_volumes] does to [self]. *)
Lemma list_volumes_self w :
  let volumes_to_tag := _volumes_to_tag (self w) in
  let volume_ids :=
    map Volume.id
      (filter (λ v, Volume.id v ∈ (list_to_set volumes_to_tag : gset string))
              (volumes (conn w))) in
  self (snd (list_volumes w)) =
  set_volumes_to_tag
    (dropped (S (length volumes_to_tag)) 0 volume_ids volumes_to_tag) (self w).
Proof.
  cbv zeta. unfold list_volumes. unfold mbind at 1, M_bind at 1, gets at 1.
  destruct (_volumes_to_tag (self w)) as [|x l] eqn:Hl.
  - unfold get_all_volumes. unfold_monad. simpl.
    rewrite <- Hl. by rewrite set_volumes_to_tag_same.
  - unfold get_all_volumes. unfold_monad.
    rewrite drop_missing_volumes_run. unfold add_trace. simpl. by rewrite Hl.
Qed.

Lemma list_snapshots_run w :
  list_snapshots w =
  match _snapshots_to_tag (self w) with
  | [] =>
      (Ok (filter (λ s, owned_by (conn w) (Some "self"%string) s && true = true)
                  (snapshots (conn w))),
       add_trace [Log INFO "Getting list of all snapshots" [];
                  GetAllSnapshots (Some "self"%string) None] w)
  | x :: l =>
      (Raise (NameError "volume_id"),
       add_trace [Log INFO "Using snapshot list from cli/config file" [];
                  Log INFO "Using volume list from cli/config file" [];
                  GetAllSnapshots (Some "self"%string)
                    (Some (list_to_set (x :: l)))] w)
  end.
Proof.
  unfold list_snapshots, get_all_snapshots. unfold_monad.
  destruct (_snapshots_to_tag (self w)) as [|x l]; simpl.
  - by rewrite add_trace_app.
  - by rewrite !add_trace_app.
Qed.

Lemma snapshot_queries_app tr1 tr2 :
  snapshot_queries (tr1 ++ tr2) = snapshot_queries tr1 ++ snapshot_queries tr2.
Proof. apply omap_app. Qed.

Lemma snapshot_queries_none tr :
  Forall no_snapshot_query tr → snapshot_queries tr = [].
Proof.
  induction 1 as [|e tr He _ IH]; [done|].
  change (e :: tr) with ([e] ++ tr). rewrite snapshot_queries_app, IH.
  by destruct e.
Qed.

(** ** The owner of the snapshots *)

(** C10. [tag_snapshots] asks the provider for snapshots exactly once, and
    in both branches (explicit ids, all snapshots) with [owner='self']; the
    provider's answer to a query with [owner='self'] holds no snapshot of
    another owner, whatever ids the filter names; so every snapshot of the
    list that [list_snapshots] hands to the loop is owned by the account. *)
Theorem snapshots_owned_by_self (w : World) :
  (∃ filters,
     snapshot_queries (trace (snd (tag_snapshots w))) =
     snapshot_queries (trace w) ++ [(Some "self"%string, filters)]) ∧
  (∀ filters, ∃ l,
     fst (get_all_snapshots (Some "self"%string) filters w) = Ok l ∧
     ∀ s, s ∈ l → s ∈ snapshots (conn w) ∧
                  Snapshot.owner_id s = account (conn w)) ∧
  (∀ l w', list_snapshots w = (Ok l, w') →
     ∀ s, s ∈ l → s ∈ snapshots (conn w) ∧
                  Snapshot.owner_id s = account (conn w)).
Proof.
  split; [|split].
  - unfold tag_snapshots. unfold mbind, M_bind. rewrite list_snapshots_run.
    destruct (_snapshots_to_tag (self w)) as [|x l].
    + match goal with
      | |- context [tag_listed_snapshots ?l ?w1] =>
          destruct (Framed_tag_listed_snapshots l w1) as [_ (tr & Ht & Hp)]
      end.
      unfold world_of, World_HasWorld in Ht.
      exists None. rewrite Ht, trace_add_trace.
      rewrite !snapshot_queries_app, (snapshot_queries_none tr) by done.
      simpl. by rewrite app_nil_r.
    + eexists. cbn [snd]. rewrite trace_add_trace, snapshot_queries_app. done.
  - intros filters. unfold get_all_snapshots. unfold_monad. simpl.
    eexists. split; [done|]. intros s Hs.
    apply list_elem_of_filter in Hs as [Hs Hin]. split; [done|].
    apply andb_prop in Hs as [Hs _]. unfold owned_by in Hs.
    by apply bool_decide_eq_true in Hs.
  - intros l w'. rewrite list_snapshots_run.
    destruct (_snapshots_to_tag (self w)); [|done].
    intros [= <- <-] s Hs.
    apply list_elem_of_filter in Hs as [Hs Hin]. split; [done|].
    apply andb_prop in Hs as [Hs _]. unfold owned_by in Hs.
    by apply bool_decide_eq_true in Hs.
Qed.

(** ** The configuration *)

Lemma tag_volumes_self w :
  let volumes_to_tag := _volumes_to_tag (self w) in
  let volume_ids :=
    map Volume.id
      (filter (λ v, Volume.id v ∈ (list_to_set volumes_to_tag : gset string))
              (volumes (conn w))) in
  self (snd (tag_volumes w)) =
  set_volumes_to_tag
    (dropped (S (length volumes_to_tag)) 0 volume_ids volumes_to_tag) (self w).
Proof.
  cbv zeta. rewrite <- list_volumes_self.
  unfold tag_volumes. unfold mbind, M_bind.
  destruct (list_volumes w) as [[l|e] w1]; [|done].
  destruct (Framed_tag_listed_volumes l w1) as [Hs _].
  exact Hs.
Qed.

Lemma filter_ext_elem {A} (P Q : A → Prop) `{∀ x, Decision (P x)}
    `{∀ x, Decision (Q x)} (l : list A) :
  (∀ x, x ∈ l → P x ↔ Q x) → filter P l = filter Q l.
Proof.
  induction l as [|x l IH]; intros Hl; [done|].
  rewrite !filter_cons. rewrite IH by (intros y Hy; apply Hl; by right).
  destruct (Hl x) as [H1 H2]; [by left|].
  destruct (decide (P x)) as [Hp|Hp], (decide (Q x)) as [Hq|Hq]; try done;
    exfalso; [apply Hq, H1, Hp | apply Hp, H2, Hq].
Qed.

(** C8, as the code has it. Whatever the provider holds and answers, a run
    of [propagate_tags] leaves the region, the profile, the dry-run and
    append flags, the two lists of tag names and the two stage flags of the
    configuration as they were. The list of volume ids is changed in place:
    what is left of it is a sublist of what it was, in which every id that
    the provider knows is kept. *)
Theorem configuration_after_run (w : World) :
  let g := self w in
  let g' := self (snd (propagate_tags w)) in
  let known := map Volume.id (volumes (conn w)) in
  _region g' = _region g ∧ _profile g' = _profile g ∧
  _dryrun g' = _dryrun g ∧ _append g' = _append g ∧
  _instance_tags_to_propagate g' = _instance_tags_to_propagate g ∧
  _volume_tags_to_propagate g' = _volume_tags_to_propagate g ∧
  _novolumes g' = _novolumes g ∧ _nosnapshots g' = _nosnapshots g ∧
  _volumes_to_tag g' `sublist_of` _volumes_to_tag g ∧
  filter (.∈ known) (_volumes_to_tag g') = filter (.∈ known) (_volumes_to_tag g).
Proof.
  cbv zeta.
  assert (∃ l, self (snd (propagate_tags w)) = set_volumes_to_tag l (self w) ∧
               l `sublist_of` _volumes_to_tag (self w) ∧
               filter (.∈ map Volume.id (volumes (conn w))) l =
               filter (.∈ map Volume.id (volumes (conn w)))
                      (_volumes_to_tag (self w))) as (l & -> & Hsub & Hkeep).
  { assert (∀ l w1,
              self w1 = set_volumes_to_tag l (self w) →
              self (snd ((nosnapshots ← gets (λ w, _nosnapshots (self w));
                          (if nosnapshots : bool then mret tt
                           else tag_snapshots;; mret tt)) w1)) =
              set_volumes_to_tag l (self w)) as Hsnap.
    { intros l w1 Hw1. unfold mbind, M_bind, gets.
      destruct (_nosnapshots (self w1)); [done|].
      destruct (Framed_tag_snapshots w1) as [Hs _].
      unfold world_of, World_HasWorld in Hs.
      destruct (tag_snapshots w1) as [[r|e] w2]; simpl in *; congruence. }
    unfold propagate_tags. unfold mbind at 1, M_bind at 1, gets at 1.
    destruct (_novolumes (self w)) eqn:Hnv.
    - exists (_volumes_to_tag (self w)).
      split; [|done]. unfold mbind at 1, M_bind at 1, mret at 1, M_ret at 1.
      apply Hsnap. by rewrite set_volumes_to_tag_same.
    - pose proof (tag_volumes_self w) as Hv. cbv zeta in Hv.
      set (l := _volumes_to_tag (self w)) in *.
      set (ids := map Volume.id (filter _ (volumes (conn w)))) in *.
      exists (dropped (S (length l)) 0 ids l). split; [|split].
      + unfold mbind at 1, M_bind at 1. unfold mbind at 1, M_bind at 1.
        destruct (tag_volumes w) as [[r|e] w1]; cbn [snd] in Hv.
        * unfold mret at 1, M_ret at 1. apply Hsnap. exact Hv.
        * exact Hv.
      + apply dropped_sublist.
      + pose proof (dropped_sublist (S (length l)) 0 ids l) as Hsub.
        pose proof (dropped_keeps (S (length l)) 0 ids l) as Hk.
        assert (∀ x, x ∈ l →
                     x ∈ map Volume.id (volumes (conn w)) ↔ x ∈ ids) as Hiff.
        { intros x Hx. unfold ids. rewrite !list_elem_of_fmap. split.
          - intros (v & -> & Hv'). exists v. split; [done|].
            apply list_elem_of_filter. split; [|done].
            by apply elem_of_list_to_set.
          - intros (v & -> & Hv'). apply list_elem_of_filter in Hv' as [_ ?].
            by exists v. }
        rewrite (filter_ext_elem _ (.∈ ids) (dropped _ _ _ _)).
        2:{ intros x Hx. apply Hiff. by eapply elem_of_sublist. }
        rewrite (filter_ext_elem _ (.∈ ids) l) by done.
        exact Hk. }
  simpl. done.
Qed.

(** ** Errors and the siblings of a resource *)

(** When the operation can only fail with a boto error, the loop ends
    normally. *)
Lemma retry_catches `{EC2Object R} f1 f2 f3 (op : M (World * R) bool)
    (Inv : World * R → Prop) :
  (∀ s, Inv s → Inv (snd (op s)) ∧
                match fst (op s) with
                | Ok _ => True
                | Raise e => is_boto e = true
                end) →
  (∀ tr w r, Inv (w, r) → Inv (add_trace tr w, r)) →
  ∀ attempts last s,
    Inv s → attempts ≠ [] ∨ is_Some last →
    ∃ o s', retry f1 f2 f3 op attempts last s = (Ok o, s').
Proof.
  intros Hop Hlog attempts.
  induction attempts as [|a attempts IH]; intros last [w r] Hinv Hne.
  - destruct Hne as [?|[[c a] ->]]; [done|]. simpl. unfold_monad. simpl.
    by eexists _, _.
  - simpl. destruct (Hop _ Hinv) as [Hinv' Hres].
    destruct (op (w, r)) as [[b|e] [w' r']]; simpl in *.
    + by eexists _, _.
    + destruct e as [c|c|m|k|nm]; try done.
      * unfold_monad. simpl. by eexists _, _.
      * unfold_monad. simpl. apply IH; [|by right].
        rewrite add_trace_app. by apply Hlog.
Qed.

Lemma volume_parent_with_tags instances d v :
  volume_parent instances (Volume.with_tags d v) = volume_parent instances v.
Proof. done. Qed.

Lemma tag_volume_boto_only instances (s : World * Volume.t) :
  let Inv := λ s : World * Volume.t,
    is_Some (volume_parent instances (snd s)) ∧
    (Volume.tagged (snd s) = true ∨ _dryrun (self (fst s)) = true) in
  Inv s →
  Inv (snd (tag_volume instances s)) ∧
  match fst (tag_volume instances s) with
  | Ok _ => True
  | Raise e => is_boto e = true
  end.
Proof.
  destruct s as [w v]. simpl. intros [[instance Hinst] Htag].
  rewrite tag_volume_run, Hinst. simpl.
  destruct (_dryrun (self w)) eqn:Hdry.
  - simpl. split; [|done]. split; [|by right].
    destruct (_append (self w)); [rewrite volume_parent_with_tags|]; by eexists.
  - destruct Htag as [Htag|?]; [|done]. unfold mbind, M_bind.
    rewrite set_resource_tags_run by by destruct (_append (self w)).
    simpl. case_bool_decide.
    + simpl. split; [|done]. split; [|left; by destruct (_append (self w))].
      destruct (_append (self w)); [rewrite volume_parent_with_tags|]; by eexists.
    + rewrite add_tags_run. simpl.
      destruct (faults (conn w)) as [|[f|] rest]; simpl.
      * split; [|done]. split; [|left; by destruct (_append (self w))].
        rewrite volume_parent_with_tags.
        destruct (_append (self w)); [rewrite volume_parent_with_tags|];
          by eexists.
      * split; [|by destruct f]. split; [|left; by destruct (_append (self w))].
        destruct (_append (self w)); [rewrite volume_parent_with_tags|];
          by eexists.
      * split; [|done]. split; [|left; by destruct (_append (self w))].
        rewrite volume_parent_with_tags.
        destruct (_append (self w)); [rewrite volume_parent_with_tags|];
          by eexists.
Qed.

Lemma tag_snapshot_boto_only volumes (s : World * Snapshot.t) :
  let Inv := λ s : World * Snapshot.t,
    is_Some (snapshot_parent volumes (snd s)) ∧
    (Snapshot.tagged (snd s) = true ∨ _dryrun (self (fst s)) = true) in
  Inv s →
  Inv (snd (tag_snapshot volumes s)) ∧
  match fst (tag_snapshot volumes s) with
  | Ok _ => True
  | Raise e => is_boto e = true
  end.
Proof.
  destruct s as [w v]. simpl. intros [[parent Hpar] Htag].
  rewrite tag_snapshot_run, Hpar. simpl.
  destruct (_dryrun (self w)) eqn:Hdry.
  - simpl. split; [|done]. split; [|by right].
    destruct (_append (self w)); by eexists.
  - destruct Htag as [Htag|?]; [|done]. unfold mbind, M_bind.
    rewrite set_resource_tags_run by by destruct (_append (self w)).
    simpl. case_bool_decide.
    + simpl. split; [|done]. split; [|left; by destruct (_append (self w))].
      destruct (_append (self w)); by eexists.
    + rewrite add_tags_run. simpl.
      destruct (faults (conn w)) as [|[f|] rest]; simpl.
      * split; [|done]. split; [|left; by destruct (_append (self w))].
        destruct (_append (self w)); by eexists.
      * split; [|by destruct f]. split; [|left; by destruct (_append (self w))].
        destruct (_append (self w)); by eexists.
      * split; [|done]. split; [|left; by destruct (_append (self w))].
        destruct (_append (self w)); by eexists.
Qed.

(** The first attempt on a resource that is no [TaggedEC2Object]. *)
Lemma retry_tag_volume_not_tagged instances w (v : Volume.t) :
  is_Some (volume_parent instances v) →
  Volume.tagged v = false → _dryrun (self w) = false →
  ∃ tr v', retry_tag_volume instances (w, v) =
             (Raise (GraffitiMonkeyException (not_tagged_message v)),
              (add_trace tr w, v')) ∧ writes tr = [].
Proof.
  intros [instance Hinst] Htag Hdry. unfold retry_tag_volume, range. simpl.
  rewrite tag_volume_run, Hinst. simpl. rewrite Hdry.
  unfold mbind, M_bind. unfold _set_resource_tags. unfold_monad. simpl.
  destruct (_append (self w)); simpl; rewrite Htag; simpl;
    eexists _, _; (split; [done|apply writes_copy_log]).
Qed.

Lemma retry_tag_snapshot_not_tagged volumes w (s : Snapshot.t) :
  is_Some (snapshot_parent volumes s) →
  Snapshot.tagged s = false → _dryrun (self w) = false →
  ∃ tr s', retry_tag_snapshot volumes (w, s) =
             (Raise (GraffitiMonkeyException (not_tagged_message s)),
              (add_trace tr w, s')) ∧ writes tr = [].
Proof.
  intros [parent Hpar] Htag Hdry. unfold retry_tag_snapshot, range. simpl.
  rewrite tag_snapshot_run, Hpar. simpl. rewrite Hdry.
  unfold mbind, M_bind. unfold _set_resource_tags. unfold_monad. simpl.
  destruct (_append (self w)); simpl; rewrite Htag; simpl;
    eexists _, _; (split; [done|apply writes_copy_log]).
Qed.

(** C7, as the code has it. The retry loop catches the boto errors and only
    those. When the tagging of a resource can fail with a boto error at most
    (its parent is in the parent mapping, and it is a [TaggedEC2Object] or
    the run is a dry run), the body of the stage loop returns normally
    whatever the provider answers, and the stage loop goes on with the next
    resource. The error for a resource that is no [TaggedEC2Object] is a
    [GraffitiMonkeyException]: it is not caught, it leaves the stage loop
    without a write call, and the resources after it are not processed. *)
Theorem boto_errors_stay_per_resource :
  (∀ instances total (v : Volume.t) rest counters w,
     (Volume.status v = "in-use"%string →
      is_Some (volume_parent instances v) ∧
      (Volume.tagged v = true ∨ _dryrun (self w) = true)) →
     ∃ counters' w',
       volume_body instances total v counters w = (Ok counters', w') ∧
       for_each (v :: rest) counters (volume_body instances total) w =
       for_each rest counters' (volume_body instances total) w') ∧
  (∀ volumes total (s : Snapshot.t) rest this_snap w,
     is_Some (snapshot_parent volumes s) →
     Snapshot.tagged s = true ∨ _dryrun (self w) = true →
     ∃ this_snap' w',
       snapshot_body volumes total s this_snap w = (Ok this_snap', w') ∧
       for_each (s :: rest) this_snap (snapshot_body volumes total) w =
       for_each rest this_snap' (snapshot_body volumes total) w') ∧
  (∀ instances total (v : Volume.t) rest counters w,
     Volume.status v = "in-use"%string →
     is_Some (volume_parent instances v) →
     Volume.tagged v = false → _dryrun (self w) = false →
     ∃ tr,
       for_each (v :: rest) counters (volume_body instances total) w =
       (Raise (GraffitiMonkeyException (not_tagged_message v)), add_trace tr w) ∧
       writes tr = []) ∧
  (∀ volumes total (s : Snapshot.t) rest this_snap w,
     is_Some (snapshot_parent volumes s) →
     Snapshot.tagged s = false → _dryrun (self w) = false →
     ∃ tr,
       for_each (s :: rest) this_snap (snapshot_body volumes total) w =
       (Raise (GraffitiMonkeyException (not_tagged_message s)), add_trace tr w) ∧
       writes tr = []).
Proof.
  split; [|split; [|split]].
  - intros instances total v rest counters w Hv.
    assert (∃ counters' w',
              volume_body instances total v counters w = (Ok counters', w'))
      as (counters' & w' & Hb).
    { destruct (decide (Volume.status v = "in-use"%string)) as [Hst|Hst].
      - destruct (Hv Hst) as [Hpar Htag].
        unfold volume_body. unfold_monad. simpl.
        rewrite bool_decide_eq_false_2 by by intros ?.
        destruct (retry_catches
                    "Encountered Error %s on volume %s"
                    "Encountered Error %s on volume %s, waiting %d seconds then retrying"
                    "Encountered Error %s on volume %s, %d retries failed, continuing"
                    (tag_volume instances) _
                    (tag_volume_boto_only instances)
                    (λ tr w r H, H) (range 5) None
                    (add_trace [Log INFO "Processing volume %d of %d total volumes"
                                  [ANat (S (fst counters)); ANat total]] w, v))
          as (o & [w' v'] & Hr); [done|by left|].
        unfold retry_tag_volume. rewrite Hr. by eexists _, _.
      - destruct counters as [n z].
        rewrite volume_body_not_in_use by done. by eexists _, _. }
    exists counters', w'. split; [done|].
    simpl. unfold mbind, M_bind. by rewrite Hb.
  - intros volumes total s rest this_snap w Hpar Htag.
    assert (∃ this_snap' w',
              snapshot_body volumes total s this_snap w = (Ok this_snap', w'))
      as (this_snap' & w' & Hb).
    { unfold snapshot_body. unfold_monad. simpl.
      destruct (retry_catches
                  "Encountered Error %s on snapshot %s"
                  "Encountered Error %s on snapshot %s, waiting %d seconds then retrying"
                  "Encountered Error %s on snapshot %s, %d retries failed, continuing"
                  (tag_snapshot volumes) _
                  (tag_snapshot_boto_only volumes)
                  (λ tr w r H, H) (range 5) None
                  (add_trace [Log INFO "Processing snapshot %d of %d total snapshots"
                                [ANat (S this_snap); ANat total]] w, s))
        as (o & [w' s'] & Hr); [done|by left|].
      unfold retry_tag_snapshot. rewrite Hr. by eexists _, _. }
    exists this_snap', w'. split; [done|].
    simpl. unfold mbind, M_bind. by rewrite Hb.
  - intros instances total v rest counters w Hst Hpar Htag Hdry.
    simpl. unfold volume_body. unfold_monad. simpl.
    rewrite bool_decide_eq_false_2 by by intros ?.
    destruct (retry_tag_volume_not_tagged instances
                (add_trace [Log INFO "Processing volume %d of %d total volumes"
                              [ANat (S (fst counters)); ANat total]] w) v)
      as (tr & v' & -> & Htr); [done..|].
    rewrite add_trace_app. eexists. split; [done|].
    by rewrite writes_app, Htr.
  - intros volumes total s rest this_snap w Hpar Htag Hdry.
    simpl. unfold snapshot_body. unfold_monad. simpl.
    destruct (retry_tag_snapshot_not_tagged volumes
                (add_trace [Log INFO "Processing snapshot %d of %d total snapshots"
                              [ANat (S this_snap); ANat total]] w) s)
      as (tr & s' & -> & Htr); [done..|].
    rewrite add_trace_app. eexists. split; [done|].
    by rewrite writes_app, Htr.
Qed.

(** ** Running the propagation twice *)

Lemma delta_of_settled (d current : tagmap) : delta_of (d ∪ current) d = ∅.
Proof.
  apply map_eq. intros k. rewrite lookup_empty.
  destruct (delta_of (d ∪ current) d !! k) as [v|] eqn:E; [|done].
  apply delta_of_lookup in E as [Hk Hd].
  unfold tag_differs in Hd.
  rewrite (lookup_union_Some_l _ _ _ _ Hk) in Hd.
  by apply bool_decide_eq_true in Hd.
Qed.

Lemma provider_add_tags_empty k i p : provider_add_tags k i ∅ p = p.
Proof.
  destruct p as [a vs ins ss fs]. destruct k; simpl; f_equal.
  - rewrite <- (map_id vs) at 2. apply map_ext. intros v.
    case_decide; [|done]. rewrite (left_id_L ∅ (∪)). by destruct v.
  - rewrite <- (map_id ss) at 2. apply map_ext. intros s.
    case_decide; [|done]. rewrite (left_id_L ∅ (∪)). by destruct s.
Qed.

Lemma faults_provider_add_tags k i d p :
  faults (provider_add_tags k i d p) = faults p.
Proof. by destruct k. Qed.

Lemma faults_apply_ups k ups p : faults (apply_ups k ups p) = faults p.
Proof.
  revert p. induction ups as [|[i d] ups IH]; intros p; [done|].
  change (apply_ups k ((i, d) :: ups) p)
    with (apply_ups k ups (provider_add_tags k i d p)).
  by rewrite IH, faults_provider_add_tags.
Qed.

Section two_runs.
Context `{EC2ObjectLaws R} {C : Type}.
Variable cfg : GraffitiMonkey → Prop.
Variable plan : R → Plan.
Variable body : R → C → M World C.

Hypothesis body_plan : follows_plan cfg plan body.
Hypothesis plan_tags : ∀ d r, plan (obj_with_tags d r) = plan r.

Lemma obj_id_upd i d (r : R) : obj_id (upd i d r) = obj_id r.
Proof. unfold upd. case_decide; [apply obj_id_with_tags|done]. Qed.

Lemma upd_other i d (r : R) : obj_id r ≠ i → upd i d r = r.
Proof. intros Hne. unfold upd. by rewrite decide_False. Qed.

Lemma relist_other ups (r : R) :
  (∀ i d, (i, d) ∈ ups → i ≠ obj_id r) → relist ups r = r.
Proof.
  revert r. induction ups as [|[i d] ups IH]; intros r Hups; [done|].
  simpl. rewrite upd_other.
  - apply IH. intros j e Hj. apply (Hups j e). by right.
  - intros Heq. apply (Hups i d); [by left|done].
Qed.

Lemma plan_upd i d r : plan (upd i d r) = plan r.
Proof. unfold upd. case_decide; [apply plan_tags|done]. Qed.

Lemma two_runs_loop (L : list R) :
  ∀ c w, cfg (self w) → faults (conn w) = [] → NoDup (map obj_id L) →
  ∃ ups res w1,
    for_each L c body w = (res, w1) ∧
    self w1 = self w ∧
    conn w1 = apply_ups obj_kind ups (conn w) ∧
    (∀ i d, (i, d) ∈ ups → i ∈ map obj_id L) ∧
    ∀ c2 w2, cfg (self w2) → faults (conn w2) = [] →
      ∃ tr2 res2,
        for_each (map (relist ups) L) c2 body w2 = (res2, add_trace tr2 w2) ∧
        writes tr2 = [] ∧ is_ok res2 = is_ok res.
Proof.
  induction L as [|r L IH]; intros c w Hcfg Hf Hnd.
  - exists [], (Ok c), w. simpl. repeat split; try done.
    + intros i d Hi. by apply elem_of_nil in Hi.
    + intros c2 w2 _ _. exists [], (Ok c2). by rewrite add_trace_nil.
  - apply NoDup_cons in Hnd as [Hr Hnd].
    destruct (body_plan r c w Hcfg Hf) as [tr Hplan].
    destruct (plan r) as [|e|d] eqn:Hp.
    + destruct Hplan as [[c' Hb] Htr].
      destruct (IH c' (add_trace tr w)) as (ups & res & w1 & Hrun & Hs & Hc & Hups & Hsecond);
        [done..|].
      exists ups, res, w1. simpl. unfold mbind, M_bind. rewrite Hb.
      repeat split; try done.
      * intros i d Hi. right. by eapply Hups.
      * intros c2 w2 Hcfg2 Hf2.
        rewrite relist_other.
        2:{ intros i d Hi ->. apply Hr. by eapply Hups. }
        destruct (body_plan r c2 w2 Hcfg2 Hf2) as [tr2 Hplan2].
        rewrite Hp in Hplan2. destruct Hplan2 as [[c2' Hb2] Htr2].
        rewrite Hb2.
        destruct (Hsecond c2' (add_trace tr2 w2)) as (tr3 & res2 & Hrun2 & Htr3 & Hok);
          [done..|].
        exists (tr2 ++ tr3), res2. rewrite Hrun2, add_trace_app.
        split; [done|]. split; [|done]. by rewrite writes_app, Htr2, Htr3.
    + destruct Hplan as [Hb Htr].
      exists [], (Raise e), (add_trace tr w). simpl. unfold mbind, M_bind.
      rewrite Hb. repeat split; try done.
      * intros i d Hi. by apply elem_of_nil in Hi.
      * intros c2 w2 Hcfg2 Hf2.
        destruct (body_plan r c2 w2 Hcfg2 Hf2) as [tr2 Hplan2].
        rewrite Hp in Hplan2. destruct Hplan2 as [Hb2 Htr2].
        rewrite Hb2. by exists tr2, (Raise e).
    + simpl in Hplan. destruct Hplan as [[c' Hb] Htr].
      set (delta := delta_of (obj_tags r) d) in *.
      destruct (IH c' (mkWorld (self w)
                         (provider_add_tags obj_kind (obj_id r) delta (conn w))
                         (trace w ++ tr)))
        as (ups & res & w1 & Hrun & Hs & Hc & Hups & Hsecond);
        [done|simpl; by rewrite faults_provider_add_tags|done|].
      exists ((obj_id r, delta) :: ups), res, w1. simpl.
      unfold mbind, M_bind. rewrite Hb.
      repeat split; try done.
      * intros i e Hi. apply elem_of_cons in Hi as [[= -> ->]|Hi];
          [by left|right; by eapply Hups].
      * intros c2 w2 Hcfg2 Hf2.
        simpl map.
        change (relist ((obj_id r, delta) :: ups) r)
          with (relist ups (upd (obj_id r) delta r)).
        assert (upd (obj_id r) delta r = obj_with_tags (delta ∪ obj_tags r) r)
          as Hupd by (unfold upd; by rewrite decide_True).
        rewrite Hupd. rewrite relist_other.
        2:{ intros i e Hi Heq. rewrite obj_id_with_tags in Heq. subst i.
            apply Hr. by eapply Hups. }
        assert (map (λ x, relist ups (upd (obj_id r) delta x)) L =
                map (relist ups) L) as HL.
        { apply map_ext_in. intros x Hx. rewrite upd_other; [done|].
          intros Heq. apply Hr. rewrite <- Heq.
          apply list_elem_of_fmap. exists x. split; [done|].
          by apply list_elem_of_In. }
        change (map (relist ((obj_id r, delta) :: ups)) L)
          with (map (λ x, relist ups (upd (obj_id r) delta x)) L).
        rewrite HL.
        destruct (body_plan (obj_with_tags (delta ∪ obj_tags r) r) c2 w2 Hcfg2 Hf2)
          as [tr2 Hplan2].
        rewrite plan_tags, Hp in Hplan2. simpl in Hplan2.
        rewrite obj_tags_with_tags in Hplan2.
        unfold delta in Hplan2. rewrite delta_of_union in Hplan2.
        rewrite delta_of_settled in Hplan2.
        rewrite provider_add_tags_empty in Hplan2.
        rewrite decide_True in Hplan2 by done.
        destruct Hplan2 as [[c2' Hb2] Htr2].
        simpl for_each. unfold mbind, M_bind.
        unfold delta. rewrite delta_of_union, Hb2.
        destruct (Hsecond c2' (add_trace tr2 w2)) as (tr3 & res2 & Hrun2 & Htr3 & Hok);
          [done..|].
        exists (tr2 ++ tr3), res2.
        change (mkWorld (self w2) (conn w2) (trace w2 ++ tr2))
          with (add_trace tr2 w2).
        rewrite Hrun2, add_trace_app.
        split; [done|]. split; [|done]. by rewrite writes_app, Htr2, Htr3.
Qed.
End two_runs.

Lemma retry_first_ok `{EC2Object R} f1 f2 f3 (op : M (World * R) bool)
    a attempts last s b s' :
  op s = (Ok b, s') →
  retry f1 f2 f3 op (a :: attempts) last s = (Ok Success, s').
Proof. intros Hop. simpl. by rewrite Hop. Qed.

Lemma retry_first_raise `{EC2Object R} f1 f2 f3 (op : M (World * R) bool)
    a attempts last s e s' :
  op s = (Raise e, s') → is_boto e = false →
  retry f1 f2 f3 op (a :: attempts) last s = (Raise e, s').
Proof. intros Hop He. simpl. rewrite Hop. by destruct e. Qed.

Lemma set_faults_same p : faults p = [] → set_faults [] p = p.
Proof. destruct p. simpl. by intros ->. Qed.

Lemma set_resource_tags_fresh `{EC2Object R} d (w : World) (r : R) tr0 :
  obj_tagged r = true → faults (conn w) = [] → writes tr0 = [] →
  ∃ tr r',
    let delta := delta_of (obj_tags r) d in
    (_set_resource_tags (Fresh d);; mret true) (add_trace tr0 w, r) =
      (Ok true,
       (mkWorld (self w)
          (provider_add_tags obj_kind (obj_id r) delta (conn w))
          (trace w ++ tr), r')) ∧
    writes tr = if decide (delta = ∅) then [] else [(obj_kind, obj_id r, delta)].
Proof.
  intros Htag Hf Htr0. unfold mbind, M_bind.
  rewrite set_resource_tags_run by done. simpl.
  destruct (decide (delta_of (obj_tags r) d = ∅)) as [He|Hne].
  - rewrite bool_decide_eq_true_2 by done. rewrite He.
    exists tr0, r. rewrite provider_add_tags_empty. done.
  - rewrite bool_decide_eq_false_2 by done. rewrite add_tags_run. simpl.
    rewrite Hf. simpl. rewrite set_faults_same by done.
    eexists (tr0 ++ [_]), _. rewrite app_assoc. split; [done|].
    by rewrite writes_app, Htr0.
Qed.

Lemma tag_volume_follows g instances (v : Volume.t) w :
  tagging_config (self w) = tagging_config g →
  faults (conn w) = [] →
  Volume.status v = "in-use"%string →
  op_follows (tag_volume instances) v (volume_plan g instances v) w.
Proof.
  intros Hcfg Hf Hst. unfold tagging_config in Hcfg.
  injection Hcfg as Hdry Happ Hin Hvn.
  unfold op_follows, volume_plan.
  rewrite bool_decide_eq_false_2 by by intros ?.
  rewrite tag_volume_run.
  destruct (volume_parent instances v) as [instance|] eqn:Hpar.
  - cbv zeta. rewrite Hdry, Happ, Hin.
    destruct (_dryrun g).
    { eexists _, _. rewrite add_trace_app. split; [done|].
      by rewrite writes_app, writes_copy_log. }
    destruct (Volume.tagged v) eqn:Htag; simpl negb; cbv iota.
    + destruct (_append g).
      * unfold mbind, M_bind. rewrite set_resource_tags_alias. simpl.
        rewrite Htag. eexists _, _. split; [done|]. apply writes_copy_log.
      * unfold volume_tags_to_set at 1 2. rewrite Hin.
        fold (volume_tags_to_set g instance v ∅).
        apply (set_resource_tags_fresh _ w v); [done|done|apply writes_copy_log].
    + unfold mbind, M_bind, _set_resource_tags. unfold_monad. simpl.
      destruct (_append g); simpl; rewrite Htag; simpl;
        eexists _, _; (split; [done|split; [apply writes_copy_log|done]]).
  - exists [], v. by rewrite add_trace_nil.
Qed.

Lemma tag_snapshot_follows g volumes (s : Snapshot.t) w :
  tagging_config (self w) = tagging_config g →
  faults (conn w) = [] →
  op_follows (tag_snapshot volumes) s (snapshot_plan g volumes s) w.
Proof.
  intros Hcfg Hf. unfold tagging_config in Hcfg.
  injection Hcfg as Hdry Happ Hin Hvn.
  unfold op_follows, snapshot_plan.
  rewrite tag_snapshot_run.
  destruct (snapshot_parent volumes s) as [parent|] eqn:Hpar.
  - cbv zeta. rewrite Hdry, Happ, Hvn.
    destruct (_dryrun g).
    { eexists _, _. rewrite add_trace_app. split; [done|].
      by rewrite writes_app, writes_copy_log. }
    destruct (Snapshot.tagged s) eqn:Htag; simpl negb; cbv iota.
    + destruct (_append g).
      * unfold mbind, M_bind. rewrite set_resource_tags_alias. simpl.
        rewrite Htag. eexists _, _. split; [done|]. apply writes_copy_log.
      * unfold snapshot_tags_to_set at 1 2. rewrite Hvn.
        fold (snapshot_tags_to_set g parent ∅).
        apply (set_resource_tags_fresh _ w s); [done|done|apply writes_copy_log].
    + unfold mbind, M_bind, _set_resource_tags. unfold_monad. simpl.
      destruct (_append g); simpl; rewrite Htag; simpl;
        eexists _, _; (split; [done|split; [apply writes_copy_log|done]]).
  - exists [], s. by rewrite add_trace_nil.
Qed.

Lemma volume_body_follows_plan g instances total :
  follows_plan (λ g', tagging_config g' = tagging_config g)
    (volume_plan g instances) (volume_body instances total).
Proof.
  intros v [n z] w Hcfg Hf.
  destruct (decide (Volume.status v = "in-use"%string)) as [Hst|Hst].
  - set (w0 := add_trace [Log INFO "Processing volume %d of %d total volumes"
                            [ANat (S n); ANat total]] w).
    destruct (tag_volume_follows g instances v w0 Hcfg Hf Hst) as (tr & v' & Hop).
    assert (volume_body instances total v (n, z) w =
            let '(res, (w', _)) := retry_tag_volume instances (w0, v) in
            match res with
            | Ok _ => (Ok (S n, (z + Volume.size v)%Z), w')
            | Raise e => (Raise e, w')
            end) as ->.
    { unfold volume_body. unfold_monad. simpl.
      rewrite bool_decide_eq_false_2 by by intros ?.
      fold w0. by destruct (retry_tag_volume instances (w0, v)) as [[o|e] [w' v'']]. }
    unfold retry_tag_volume, range. simpl seq.
    destruct (volume_plan g instances v) as [|e|d].
    + destruct Hop as [Hop Htr].
      erewrite retry_first_ok by exact Hop.
      exists ([Log INFO "Processing volume %d of %d total volumes"
                 [ANat (S n); ANat total]] ++ tr).
      unfold w0. rewrite add_trace_app. split; [by eexists|].
      by rewrite writes_app, Htr.
    + destruct Hop as (Hop & Htr & He).
      erewrite retry_first_raise by first [exact Hop | exact He].
      exists ([Log INFO "Processing volume %d of %d total volumes"
                 [ANat (S n); ANat total]] ++ tr).
      unfold w0. rewrite add_trace_app. split; [done|].
      by rewrite writes_app, Htr.
    + cbv zeta in Hop. destruct Hop as [Hop Htr].
      erewrite retry_first_ok by exact Hop.
      exists ([Log INFO "Processing volume %d of %d total volumes"
                 [ANat (S n); ANat total]] ++ tr).
      cbv zeta. split; [|by rewrite writes_app, Htr].
      eexists. unfold w0. simpl. by rewrite <- app_assoc.
  - unfold volume_plan. rewrite bool_decide_eq_true_2 by done.
    rewrite volume_body_not_in_use by done.
    eexists. split; [by eexists|done].
Qed.

Lemma snapshot_body_follows_plan g volumes total :
  follows_plan (λ g', tagging_config g' = tagging_config g)
    (snapshot_plan g volumes) (snapshot_body volumes total).
Proof.
  intros s n w Hcfg Hf.
  set (w0 := add_trace [Log INFO "Processing snapshot %d of %d total snapshots"
                          [ANat (S n); ANat total]] w).
  destruct (tag_snapshot_follows g volumes s w0 Hcfg Hf) as (tr & s' & Hop).
  assert (snapshot_body volumes total s n w =
          let '(res, (w', _)) := retry_tag_snapshot volumes (w0, s) in
          match res with
          | Ok _ => (Ok (S n), w')
          | Raise e => (Raise e, w')
          end) as ->.
  { unfold snapshot_body. unfold_monad. simpl.
    fold w0. by destruct (retry_tag_snapshot volumes (w0, s)) as [[o|e] [w' s'']]. }
  unfold retry_tag_snapshot, range. simpl seq.
  destruct (snapshot_plan g volumes s) as [|e|d].
  - destruct Hop as [Hop Htr].
    erewrite retry_first_ok by exact Hop.
    exists ([Log INFO "Processing snapshot %d of %d total snapshots"
               [ANat (S n); ANat total]] ++ tr).
    unfold w0. rewrite add_trace_app. split; [by eexists|].
    by rewrite writes_app, Htr.
  - destruct Hop as (Hop & Htr & He).
    erewrite retry_first_raise by first [exact Hop | exact He].
    exists ([Log INFO "Processing snapshot %d of %d total snapshots"
               [ANat (S n); ANat total]] ++ tr).
    unfold w0. rewrite add_trace_app. split; [done|].
    by rewrite writes_app, Htr.
  - cbv zeta in Hop. destruct Hop as [Hop Htr].
    erewrite retry_first_ok by exact Hop.
    exists ([Log INFO "Processing snapshot %d of %d total snapshots"
               [ANat (S n); ANat total]] ++ tr).
    cbv zeta. split; [|by rewrite writes_app, Htr].
    eexists. unfold w0. simpl. by rewrite <- app_assoc.
Qed.

Lemma volume_plan_with_tags g instances d (v : Volume.t) :
  volume_plan g instances (obj_with_tags d v) = volume_plan g instances v.
Proof. done. Qed.

Lemma snapshot_plan_with_tags g volumes d (s : Snapshot.t) :
  snapshot_plan g volumes (obj_with_tags d s) = snapshot_plan g volumes s.
Proof. done. Qed.

(** The inventory after writes. *)
Lemma volumes_apply_ups_volume ups p :
  volumes (apply_ups KVolume ups p) = map (relist ups) (volumes p).
Proof.
  revert p. induction ups as [|[i d] ups IH]; intros p.
  - simpl. by rewrite map_id.
  - change (apply_ups KVolume ((i, d) :: ups) p)
      with (apply_ups KVolume ups (provider_add_tags KVolume i d p)).
    rewrite IH. simpl. by rewrite map_map.
Qed.

Lemma snapshots_apply_ups_snapshot ups p :
  snapshots (apply_ups KSnapshot ups p) = map (relist ups) (snapshots p).
Proof.
  revert p. induction ups as [|[i d] ups IH]; intros p.
  - simpl. by rewrite map_id.
  - change (apply_ups KSnapshot ((i, d) :: ups) p)
      with (apply_ups KSnapshot ups (provider_add_tags KSnapshot i d p)).
    rewrite IH. simpl. by rewrite map_map.
Qed.

Lemma apply_ups_volume_rest ups p :
  account (apply_ups KVolume ups p) = account p ∧
  instances (apply_ups KVolume ups p) = instances p ∧
  snapshots (apply_ups KVolume ups p) = snapshots p.
Proof.
  revert p. induction ups as [|[i d] ups IH]; intros p; [done|].
  change (apply_ups KVolume ((i, d) :: ups) p)
    with (apply_ups KVolume ups (provider_add_tags KVolume i d p)).
  destruct (IH (provider_add_tags KVolume i d p)) as (H1 & H2 & H3).
  rewrite H1, H2, H3. by destruct p.
Qed.

Lemma apply_ups_snapshot_rest ups p :
  account (apply_ups KSnapshot ups p) = account p ∧
  instances (apply_ups KSnapshot ups p) = instances p ∧
  volumes (apply_ups KSnapshot ups p) = volumes p.
Proof.
  revert p. induction ups as [|[i d] ups IH]; intros p; [done|].
  change (apply_ups KSnapshot ((i, d) :: ups) p)
    with (apply_ups KSnapshot ups (provider_add_tags KSnapshot i d p)).
  destruct (IH (provider_add_tags KSnapshot i d p)) as (H1 & H2 & H3).
  rewrite H1, H2, H3. by destruct p.
Qed.

(** A write changes the tags of a resource and nothing else of it. *)
Lemma relist_volume ups (v : Volume.t) :
  Volume.id (relist ups v) = Volume.id v ∧
  Volume.attach_data (relist ups v) = Volume.attach_data v.
Proof.
  revert v. induction ups as [|[i d] ups IH]; intros v; [done|].
  simpl. destruct (IH (upd i d v)) as [-> ->].
  unfold upd. by case_decide.
Qed.

Lemma relist_snapshot ups (s : Snapshot.t) :
  Snapshot.id (relist ups s) = Snapshot.id s ∧
  Snapshot.volume_id (relist ups s) = Snapshot.volume_id s ∧
  Snapshot.owner_id (relist ups s) = Snapshot.owner_id s.
Proof.
  revert s. induction ups as [|[i d] ups IH]; intros s; [done|].
  simpl. destruct (IH (upd i d s)) as (-> & -> & ->).
  unfold upd. by case_decide.
Qed.

Lemma filter_map_relist {A} (f : A → A) (P Q : A → Prop)
    `{∀ x, Decision (P x)} `{∀ x, Decision (Q x)} (l : list A) :
  (∀ x, Q (f x) ↔ P x) → filter Q (map f l) = map f (filter P l).
Proof.
  intros Hf. induction l as [|x l IH]; [done|]. simpl.
  rewrite !filter_cons. rewrite IH.
  destruct (decide (Q (f x))) as [Hy|Hn], (decide (P x)) as [Hy'|Hn'];
    try done; exfalso; [apply Hn', Hf, Hy | apply Hn, Hf, Hy'].
Qed.

Lemma writes_dropped_log fuel i ids l : writes (dropped_log fuel i ids l) = [].
Proof.
  revert i l. induction fuel as [|fuel IH]; intros i l; [done|]. simpl.
  destruct (l !! i); [|done]. case_bool_decide; [simpl|]; apply IH.
Qed.

Lemma list_volumes_run w :
  ∃ tr,
    list_volumes w =
    (Ok (listed_volumes (self w) (conn w)),
     mkWorld
       (set_volumes_to_tag
          (dropped (S (length (_volumes_to_tag (self w)))) 0
             (map Volume.id (listed_volumes (self w) (conn w)))
             (_volumes_to_tag (self w)))
          (self w))
       (conn w) (trace w ++ tr)) ∧
    writes tr = [].
Proof.
  unfold list_volumes, listed_volumes, get_all_volumes.
  unfold mbind at 1, M_bind at 1, gets at 1.
  destruct (_volumes_to_tag (self w)) as [|x l] eqn:Hl.
  - unfold_monad. simpl. eexists. rewrite add_trace_app. split.
    + unfold add_trace. do 2 f_equal. rewrite <- Hl.
      by rewrite set_volumes_to_tag_same.
    + done.
  - unfold_monad. rewrite drop_missing_volumes_run.
    unfold add_trace. cbn [self conn trace]. rewrite Hl.
    eexists. rewrite <- !app_assoc. split; [done|].
    rewrite !writes_app, writes_dropped_log. done.
Qed.

Lemma tag_listed_volumes_run v L w :
  ∃ tr0,
    writes tr0 = [] ∧
    tag_listed_volumes (v :: L) w =
    match for_each (v :: L) (0, 0%Z)
            (volume_body (volume_parents (v :: L) (conn w)) (length (v :: L)))
            (add_trace tr0 w) with
    | (Ok counters, w1) =>
        (Ok None,
         add_trace [Log INFO "Processed a total of {0} GB of AWS Volumes"
                      [AInt (snd counters)];
                    Log INFO "Completed processing all volumes" []] w1)
    | (Raise e, w1) => (Raise e, w1)
    end.
Proof.
  unfold tag_listed_volumes, get_all_instances, volume_parents.
  unfold_monad. cbn [fst snd]. rewrite !add_trace_app, ?conn_add_trace.
  match goal with
  | |- context [for_each _ _ _ (add_trace ?tr w)] => exists tr
  end.
  split.
  2:{ destruct (for_each _ _ _ _) as [[c|e] w1]; [|done].
      by rewrite add_trace_app. }
  done.
Qed.

Lemma tag_listed_snapshots_run s L w :
  ∃ tr0,
    writes tr0 = [] ∧
    tag_listed_snapshots (s :: L) w =
    match for_each (s :: L) 0
            (snapshot_body (snapshot_parents (s :: L) (conn w)) (length (s :: L)))
            (add_trace tr0 w) with
    | (Ok _, w1) =>
        (Ok None,
         add_trace [Log INFO "Completed processing all snapshots" []] w1)
    | (Raise e, w1) => (Raise e, w1)
    end.
Proof.
  unfold tag_listed_snapshots, get_all_volumes, snapshot_parents.
  unfold_monad. cbn [fst snd]. rewrite !add_trace_app, ?conn_add_trace.
  match goal with
  | |- context [for_each _ _ _ (add_trace ?tr w)] => exists tr
  end.
  split.
  2:{ by destruct (for_each _ _ _ _) as [[c|e] w1]. }
  done.
Qed.

Lemma volume_parents_relist ups L p p' :
  instances p' = instances p →
  volume_parents (map (relist ups) L) p' = volume_parents L p.
Proof.
  intros Hi. unfold volume_parents. rewrite Hi, map_map.
  assert (map (λ x, AttachData.instance_id (Volume.attach_data (relist ups x))) L =
          map (λ v, AttachData.instance_id (Volume.attach_data v)) L) as ->;
    [|done].
  apply map_ext. intros v. by destruct (relist_volume ups v) as [_ ->].
Qed.

Lemma snapshot_parents_relist ups L p p' :
  volumes p' = volumes p →
  snapshot_parents (map (relist ups) L) p' = snapshot_parents L p.
Proof.
  intros Hv. unfold snapshot_parents. rewrite Hv, map_map.
  assert (map (λ x, Snapshot.volume_id (relist ups x)) L =
          map Snapshot.volume_id L) as ->; [|done].
  apply map_ext. intros s. by destruct (relist_snapshot ups s) as (_ & -> & _).
Qed.

Lemma tag_listed_volumes_two_runs g L w :
  tagging_config (self w) = tagging_config g →
  faults (conn w) = [] →
  NoDup (map Volume.id L) →
  ∃ ups res w1,
    tag_listed_volumes L w = (res, w1) ∧
    self w1 = self w ∧
    conn w1 = apply_ups KVolume ups (conn w) ∧
    ∀ w2,
      tagging_config (self w2) = tagging_config g →
      faults (conn w2) = [] →
      instances (conn w2) = instances (conn w) →
      ∃ tr2 res2,
        tag_listed_volumes (map (relist ups) L) w2 = (res2, add_trace tr2 w2) ∧
        writes tr2 = [] ∧ is_ok res2 = is_ok res.
Proof.
  intros Hcfg Hf Hnd. destruct L as [|v L].
  - exists [], (Ok (Some true)),
      (add_trace [Log INFO "No volumes found" []] w).
    repeat split; try done.
    intros w2 _ _ _. by exists [Log INFO "No volumes found" []], (Ok (Some true)).
  - destruct (tag_listed_volumes_run v L w) as (tr0 & Htr0 & ->).
    destruct (two_runs_loop (λ g', tagging_config g' = tagging_config g)
                (volume_plan g (volume_parents (v :: L) (conn w)))
                (volume_body (volume_parents (v :: L) (conn w)) (length (v :: L)))
                (volume_body_follows_plan g _ _)
                (volume_plan_with_tags g _)
                (v :: L) (0, 0%Z) (add_trace tr0 w))
      as (ups & res & w1 & Hrun & Hs & Hc & Hups & Hsecond); [done..|].
    rewrite Hrun.
    assert (∀ w2,
              tagging_config (self w2) = tagging_config g →
              faults (conn w2) = [] →
              instances (conn w2) = instances (conn w) →
              ∃ tr2 res2,
                tag_listed_volumes (map (relist ups) (v :: L)) w2 =
                  (res2, add_trace tr2 w2) ∧
                writes tr2 = [] ∧ is_ok res2 = is_ok res) as Hsec.
    2:{ destruct res as [c|e].
        - eexists ups, (Ok None), _. repeat split; try done.
        - eexists ups, (Raise e), _. repeat split; try done. }
    intros w2 Hcfg2 Hf2 Hi2.
    change (map (relist ups) (v :: L))
      with (relist ups v :: map (relist ups) L).
    destruct (tag_listed_volumes_run (relist ups v) (map (relist ups) L) w2)
      as (tr0' & Htr0' & ->).
    change (relist ups v :: map (relist ups) L)
      with (map (relist ups) (v :: L)).
    rewrite (volume_parents_relist ups (v :: L) (conn w) (conn w2)) by done.
    rewrite length_map.
    destruct (Hsecond (0, 0%Z) (add_trace tr0' w2)) as (tr2 & res2 & -> & Htr2 & Hok);
      [done..|].
    destruct res2 as [c2|e2].
    + eexists _, (Ok None). rewrite !add_trace_app. split; [done|].
      split; [|done]. by rewrite !writes_app, Htr0', Htr2.
    + eexists _, (Raise e2). rewrite !add_trace_app. split; [done|].
      split; [|done]. by rewrite !writes_app, Htr0', Htr2.
Qed.

Lemma tag_listed_snapshots_two_runs g L w :
  tagging_config (self w) = tagging_config g →
  faults (conn w) = [] →
  NoDup (map Snapshot.id L) →
  ∃ ups res w1,
    tag_listed_snapshots L w = (res, w1) ∧
    self w1 = self w ∧
    conn w1 = apply_ups KSnapshot ups (conn w) ∧
    ∀ w2,
      tagging_config (self w2) = tagging_config g →
      faults (conn w2) = [] →
      volumes (conn w2) = volumes (conn w) →
      ∃ tr2 res2,
        tag_listed_snapshots (map (relist ups) L) w2 = (res2, add_trace tr2 w2) ∧
        writes tr2 = [] ∧ is_ok res2 = is_ok res.
Proof.
  intros Hcfg Hf Hnd. destruct L as [|s L].
  - exists [], (Ok (Some true)),
      (add_trace [Log INFO "No snapshots found" []] w).
    repeat split; try done.
    intros w2 _ _ _. by exists [Log INFO "No snapshots found" []], (Ok (Some true)).
  - destruct (tag_listed_snapshots_run s L w) as (tr0 & Htr0 & ->).
    destruct (two_runs_loop (λ g', tagging_config g' = tagging_config g)
                (snapshot_plan g (snapshot_parents (s :: L) (conn w)))
                (snapshot_body (snapshot_parents (s :: L) (conn w)) (length (s :: L)))
                (snapshot_body_follows_plan g _ _)
                (snapshot_plan_with_tags g _)
                (s :: L) 0 (add_trace tr0 w))
      as (ups & res & w1 & Hrun & Hs & Hc & Hups & Hsecond); [done..|].
    rewrite Hrun.
    assert (∀ w2,
              tagging_config (self w2) = tagging_config g →
              faults (conn w2) = [] →
              volumes (conn w2) = volumes (conn w) →
              ∃ tr2 res2,
                tag_listed_snapshots (map (relist ups) (s :: L)) w2 =
                  (res2, add_trace tr2 w2) ∧
                writes tr2 = [] ∧ is_ok res2 = is_ok res) as Hsec.
    2:{ destruct res as [c|e].
        - eexists ups, (Ok None), _. repeat split; try done.
        - eexists ups, (Raise e), _. repeat split; try done. }
    intros w2 Hcfg2 Hf2 Hv2.
    change (map (relist ups) (s :: L))
      with (relist ups s :: map (relist ups) L).
    destruct (tag_listed_snapshots_run (relist ups s) (map (relist ups) L) w2)
      as (tr0' & Htr0' & ->).
    change (relist ups s :: map (relist ups) L)
      with (map (relist ups) (s :: L)).
    rewrite (snapshot_parents_relist ups (s :: L) (conn w) (conn w2)) by done.
    rewrite length_map.
    destruct (Hsecond 0 (add_trace tr0' w2)) as (tr2 & res2 & -> & Htr2 & Hok);
      [done..|].
    destruct res2 as [c2|e2].
    + eexists _, (Ok None). rewrite !add_trace_app. split; [done|].
      split; [|done]. by rewrite !writes_app, Htr0', Htr2.
    + eexists _, (Raise e2). rewrite !add_trace_app. split; [done|].
      split; [|done]. by rewrite !writes_app, Htr0', Htr2.
Qed.

Lemma NoDup_map_filter {A B} (f : A → B) (P : A → Prop) `{∀ x, Decision (P x)}
    (l : list A) :
  NoDup (map f l) → NoDup (map f (filter P l)).
Proof.
  intros Hnd. eapply sublist_NoDup; [exact Hnd|].
  change (map f) with (fmap (M:=list) f). apply fmap_sublist, sublist_filter.
Qed.

Lemma listed_volumes_NoDup g p :
  NoDup (map Volume.id (volumes p)) → NoDup (map Volume.id (listed_volumes g p)).
Proof.
  intros Hnd. unfold listed_volumes.
  destruct (_volumes_to_tag g); [done|]. by apply NoDup_map_filter.
Qed.

Lemma listed_volumes_relist g ups p p' :
  volumes p' = map (relist ups) (volumes p) →
  listed_volumes g p' = map (relist ups) (listed_volumes g p).
Proof.
  intros Hv. unfold listed_volumes. rewrite Hv.
  destruct (_volumes_to_tag g); [done|].
  apply filter_map_relist. intros v.
  by destruct (relist_volume ups v) as [-> _].
Qed.

Lemma tag_volumes_two_runs w :
  faults (conn w) = [] →
  NoDup (map Volume.id (volumes (conn w))) →
  ∃ ups res w1,
    tag_volumes w = (res, w1) ∧
    (∃ l, self w1 = set_volumes_to_tag l (self w)) ∧
    conn w1 = apply_ups KVolume ups (conn w) ∧
    ∀ w2,
      self w2 = self w →
      faults (conn w2) = [] →
      instances (conn w2) = instances (conn w) →
      volumes (conn w2) = map (relist ups) (volumes (conn w)) →
      ∃ tr2 res2 l2,
        tag_volumes w2 =
          (res2, mkWorld (set_volumes_to_tag l2 (self w)) (conn w2)
                   (trace w2 ++ tr2)) ∧
        writes tr2 = [] ∧ is_ok res2 = is_ok res.
Proof.
  intros Hf Hnd. unfold tag_volumes. unfold mbind, M_bind.
  destruct (list_volumes_run w) as (tr & -> & Htr).
  set (L := listed_volumes (self w) (conn w)).
  match goal with
  | |- context [tag_listed_volumes L ?w'] =>
      destruct (tag_listed_volumes_two_runs (self w) L w')
        as (ups & res & w1 & Hrun & Hs & Hc & Hsecond);
        [done|done|by apply listed_volumes_NoDup|]
  end.
  rewrite Hrun. exists ups, res, w1.
  split; [done|]. split; [by eexists|]. split; [done|].
  intros w2 Hs2 Hf2 Hi2 Hv2.
  destruct (list_volumes_run w2) as (tr' & -> & Htr').
  rewrite Hs2. rewrite (listed_volumes_relist (self w) ups (conn w) (conn w2)) by done.
  fold L.
  match goal with
  | |- context [tag_listed_volumes (map (relist ups) L) ?w2'] =>
      destruct (Hsecond w2') as (tr2 & res2 & -> & Htr2 & Hok); [done..|]
  end.
  eexists (tr' ++ tr2), res2, _. unfold add_trace. simpl.
  rewrite app_assoc. split; [done|]. split; [|done].
  by rewrite writes_app, Htr', Htr2.
Qed.

Lemma owned_relist p' p owner ups (s : Snapshot.t) :
  account p' = account p →
  owned_by p' owner (relist ups s) = owned_by p owner s.
Proof.
  intros Ha. unfold owned_by. rewrite Ha.
  by destruct (relist_snapshot ups s) as (_ & _ & ->).
Qed.

Lemma tag_snapshots_two_runs w :
  faults (conn w) = [] →
  NoDup (map Snapshot.id (snapshots (conn w))) →
  ∃ ups res w1,
    tag_snapshots w = (res, w1) ∧
    self w1 = self w ∧
    conn w1 = apply_ups KSnapshot ups (conn w) ∧
    ∀ w2,
      set_volumes_to_tag [] (self w2) = set_volumes_to_tag [] (self w) →
      conn w2 = conn w1 →
      ∃ tr2 res2,
        tag_snapshots w2 = (res2, add_trace tr2 w2) ∧ writes tr2 = [].
Proof.
  intros Hf Hnd. unfold tag_snapshots. unfold mbind, M_bind.
  rewrite list_snapshots_run.
  destruct (_snapshots_to_tag (self w)) as [|x l] eqn:Hl.
  - match goal with
    | |- context [tag_listed_snapshots ?L ?w'] =>
        destruct (tag_listed_snapshots_two_runs (self w) L w')
          as (ups & res & w1 & Hrun & Hs & Hc & Hsecond);
          [done|done|by apply NoDup_map_filter|]
    end.
    rewrite Hrun. exists ups, res, w1. repeat split; try done.
    intros w2 Hs2 Hc2. rewrite list_snapshots_run.
    assert (_snapshots_to_tag (self w2) = []) as ->.
    { apply (f_equal _snapshots_to_tag) in Hs2. simpl in Hs2. congruence. }
    rewrite conn_add_trace in Hc.
    assert (filter (λ s, owned_by (conn w2) (Some "self"%string) s && true = true)
                   (snapshots (conn w2)) =
            map (relist ups)
                (filter (λ s, owned_by (conn w) (Some "self"%string) s && true = true)
                        (snapshots (conn w)))) as ->.
    { rewrite Hc2, Hc, snapshots_apply_ups_snapshot.
      apply filter_map_relist. intros s.
      rewrite (owned_relist _ (conn w)); [done|].
      by destruct (apply_ups_snapshot_rest ups (conn w)) as (-> & _). }
    rewrite conn_add_trace in Hsecond.
    match goal with
    | |- context [tag_listed_snapshots _ ?w2'] =>
        destruct (Hsecond w2') as (tr2 & res2 & -> & Htr2 & Hok)
    end.
    + apply (f_equal tagging_config) in Hs2. exact Hs2.
    + simpl. by rewrite Hc2, Hc, faults_apply_ups.
    + simpl. rewrite Hc2, Hc.
      by destruct (apply_ups_snapshot_rest ups (conn w)) as (_ & _ & ->).
    + eexists _, res2. rewrite add_trace_app. split; [done|].
      by rewrite writes_app, Htr2.
  - eexists [], _, _. split; [done|]. repeat split; try done.
    intros w2 Hs2 Hc2. rewrite list_snapshots_run.
    assert (_snapshots_to_tag (self w2) = x :: l) as ->.
    { apply (f_equal _snapshots_to_tag) in Hs2. simpl in Hs2. congruence. }
    by eexists _, _.
Qed.

Lemma propagate_tags_parts w :
  propagate_tags w = (volumes_part;; snapshots_part) w.
Proof.
  unfold propagate_tags, volumes_part, snapshots_part. unfold_monad.
  destruct (_novolumes (self w)); [done|].
  by destruct (tag_volumes w) as [[r|e] w'].
Qed.

Lemma snapshots_part_two_runs w :
  faults (conn w) = [] →
  NoDup (map Snapshot.id (snapshots (conn w))) →
  ∃ res w1,
    snapshots_part w = (res, w1) ∧
    faults (conn w1) = [] ∧
    volumes (conn w1) = volumes (conn w) ∧
    instances (conn w1) = instances (conn w) ∧
    ∀ w2,
      set_volumes_to_tag [] (self w2) = set_volumes_to_tag [] (self w) →
      conn w2 = conn w1 →
      ∃ tr2 res2,
        snapshots_part w2 = (res2, add_trace tr2 w2) ∧ writes tr2 = [].
Proof.
  intros Hf Hnd. unfold snapshots_part. unfold mbind at 1, M_bind at 1, gets at 1.
  destruct (_nosnapshots (self w)) eqn:Hns.
  - exists (Ok tt), w. repeat split; try done.
    intros w2 Hs2 Hc2. unfold mbind, M_bind, gets.
    assert (_nosnapshots (self w2) = true) as ->.
    { apply (f_equal _nosnapshots) in Hs2. simpl in Hs2. congruence. }
    exists [], (Ok tt). by rewrite add_trace_nil.
  - destruct (tag_snapshots_two_runs w Hf Hnd)
      as (ups & res & w1 & Hrun & Hs & Hc & Hsecond).
    unfold mbind, M_bind. rewrite Hrun.
    destruct (apply_ups_snapshot_rest ups (conn w)) as (Ha & Hi & Hv).
    eexists (match res with Ok _ => Ok tt | Raise e => Raise e end), w1.
    split; [by destruct res|].
    split; [by rewrite Hc, faults_apply_ups|].
    split; [by rewrite Hc|]. split; [by rewrite Hc|].
    intros w2 Hs2 Hc2. unfold gets.
    assert (_nosnapshots (self w2) = false) as ->.
    { apply (f_equal _nosnapshots) in Hs2. simpl in Hs2. congruence. }
    destruct (Hsecond w2 Hs2 Hc2) as (tr2 & res2 & -> & Htr2).
    exists tr2. by destruct res2; eexists.
Qed.

Lemma volumes_part_two_runs w :
  faults (conn w) = [] →
  NoDup (map Volume.id (volumes (conn w))) →
  ∃ res wa,
    volumes_part w = (res, wa) ∧
    set_volumes_to_tag [] (self wa) = set_volumes_to_tag [] (self w) ∧
    faults (conn wa) = [] ∧
    snapshots (conn wa) = snapshots (conn w) ∧
    ∀ w2,
      self w2 = self w →
      faults (conn w2) = [] →
      instances (conn w2) = instances (conn wa) →
      volumes (conn w2) = volumes (conn wa) →
      ∃ tr2 res2 g2,
        volumes_part w2 = (res2, mkWorld g2 (conn w2) (trace w2 ++ tr2)) ∧
        set_volumes_to_tag [] g2 = set_volumes_to_tag [] (self w) ∧
        writes tr2 = [] ∧ is_ok res2 = is_ok res.
Proof.
  intros Hf Hnd. unfold volumes_part. unfold mbind at 1, M_bind at 1, gets at 1.
  destruct (_novolumes (self w)) eqn:Hnv.
  - exists (Ok tt), w. repeat split; try done.
    intros w2 Hs2 Hf2 Hi2 Hv2. unfold mbind, M_bind, gets. rewrite Hs2, Hnv.
    exists [], (Ok tt), (self w). rewrite app_nil_r, <- Hs2. by destruct w2.
  - destruct (tag_volumes_two_runs w Hf Hnd)
      as (ups & res & wa & Hrun & [l Hsa] & Hca & Hsecond).
    destruct (apply_ups_volume_rest ups (conn w)) as (Hacc & Hins & Hsn).
    unfold mbind, M_bind. rewrite Hrun.
    eexists (match res with Ok _ => Ok tt | Raise e => Raise e end), wa.
    split; [by destruct res|]. split; [by rewrite Hsa|].
    split; [by rewrite Hca, faults_apply_ups|]. split; [by rewrite Hca|].
    intros w2 Hs2 Hf2 Hi2 Hv2. unfold gets. rewrite Hs2, Hnv.
    destruct (Hsecond w2) as (tr2 & res2 & l2 & -> & Htr2 & Hok); [done|done|..].
    { by rewrite Hi2, Hca. }
    { by rewrite Hv2, Hca, volumes_apply_ups_volume. }
    exists tr2. destruct res2 as [r2|e2], res as [r|e]; try done.
    + by exists (Ok tt), (set_volumes_to_tag l2 (self w)).
    + by exists (Raise e2), (set_volumes_to_tag l2 (self w)).
Qed.

Lemma bind_run {St A B} (m : M St A) (k : A → M St B) (s : St) :
  (m ≫= k) s = match m s with
               | (Ok a, s') => k a s'
               | (Raise e, s') => (Raise e, s')
               end.
Proof. done. Qed.

(** C3. Let the provider's inventory have one entry per volume id and per
    snapshot id, and let the provider accept the write calls of a run of
    [propagate_tags]. Then a second run, under the same configuration and on
    the provider as the first run left it, makes no write call and leaves the
    provider as it is. *)
Theorem propagation_idempotent (w : World) :
  faults (conn w) = [] →
  NoDup (map Volume.id (volumes (conn w))) →
  NoDup (map Snapshot.id (snapshots (conn w))) →
  let w1 := snd (propagate_tags w) in
  let w2 := snd (propagate_tags (mkWorld (self w) (conn w1) [])) in
  writes (trace w2) = [] ∧ conn w2 = conn w1.
Proof.
  intros Hf Hndv Hnds. cbv zeta.
  rewrite (propagate_tags_parts w), propagate_tags_parts.
  destruct (volumes_part_two_runs w Hf Hndv)
    as (res & wa & Hrun & Hsa & Hfa & Hsna & Hsecond).
  rewrite (bind_run _ _ w), Hrun.
  destruct res as [[]|e].
  - destruct (snapshots_part_two_runs wa)
      as (res' & w1 & Hrun' & Hf1 & Hv1 & Hi1 & Hsecond');
      [done|by rewrite Hsna|].
    rewrite Hrun'. cbn [snd]. rewrite bind_run.
    destruct (Hsecond (mkWorld (self w) (conn w1) []))
      as (tr2 & res2 & g2 & -> & Hg2 & Htr2 & Hok); [done..|].
    destruct res2 as [[]|e2]; [|done].
    match goal with
    | |- context [snapshots_part ?w2a] =>
        destruct (Hsecond' w2a) as (tr3 & res3 & -> & Htr3)
    end.
    { simpl. by rewrite Hg2, Hsa. }
    { done. }
    split; [|done]. simpl. by rewrite !writes_app, Htr2, Htr3.
  - cbn [snd]. rewrite bind_run.
    destruct (Hsecond (mkWorld (self w) (conn wa) []))
      as (tr2 & res2 & g2 & -> & Hg2 & Htr2 & Hok); [done..|].
    destruct res2 as [r2|e2]; [done|]. done.
Qed.


(** * The scenarios *)

(** The end-to-end runs: the attached volume gets the instance's [env] tag
    and the two synthetic tags, the snapshot gets the volume's [env] tag, and
    the volume that is not attached keeps its tags. *)
Example propagate_tags_example :
  let w' := snd (propagate_tags (ex_world false false [])) in
  writes (trace w') =
    [(KVolume, "vol-1"%string, ex_volume_tags);
     (KSnapshot, "snap-1"%string, ex_tags)] ∧
  map Volume.tags (volumes (conn w')) =
    [ex_volume_tags; {[ "Name"%string := PyStr "scratch" ]}] ∧
  map Snapshot.tags (snapshots (conn w')) = [ex_tags].
Proof. vm_compute. done. Qed.

(** In append mode nothing is ever written: the desired tags and the
    current tags are one dict. *)
Example append_mode_example :
  writes (trace (snd (propagate_tags (ex_world false true [])))) = [].
Proof. vm_compute. done. Qed.

(** What the second run of C3 rests on. When the provider rejects the write
    of the first run, the second run makes it again. And when the second run
    is a second call on the same object, after the first call has emptied
    [self._volumes_to_tag] of a requested id that the provider does not know,
    the second call lists all volumes and writes. *)
Example second_run_after_rejected_write :
  let w := ex_world false false [Some (ClientFault "UnauthorizedOperation")] in
  let w1 := snd (propagate_tags w) in
  writes (trace (snd (propagate_tags (mkWorld (self w) (conn w1) [])))) =
    [(KVolume, "vol-1"%string, ex_volume_tags);
     (KSnapshot, "snap-1"%string, ex_tags)].
Proof. vm_compute. done. Qed.

Example second_call_on_same_object :
  let w := mkWorld (ex_config false false ["vol-a"%string] [])
             (ex_provider [ex_volume] [] []) [] in
  let w1 := snd (propagate_tags w) in
  writes (trace w1) = [] ∧ _volumes_to_tag (self w1) = [] ∧
  writes (trace (snd (propagate_tags (mkWorld (self w1) (conn w1) [])))) =
    [(KVolume, "vol-1"%string, ex_volume_tags)].
Proof. vm_compute. done. Qed.

(** ** The explicit id filters, on the code *)

(** An explicit snapshot filter always ends in the [NameError] of line 216. *)
Lemma tag_snapshots_filter_raises w :
  _snapshots_to_tag (self w) ≠ [] →
  fst (tag_snapshots w) = Raise (NameError "volume_id").
Proof.
  intros Hne. unfold tag_snapshots. rewrite bind_run, list_snapshots_run.
  by destruct (_snapshots_to_tag (self w)).
Qed.

(** C5, on the code. Of two requested volume ids that the provider does not
    know, the loop of lines 108-111 removes and logs only the first: after
    the removal the second id sits at the position the loop has already
    visited. And with any snapshot id requested, here one that the provider
    knows, [tag_snapshots] raises [NameError] before it tags anything. *)
Theorem explicit_filter_runs :
  _volumes_to_tag (self (snd (tag_volumes ex_missing_volumes_world))) =
    ["vol-b"%string] ∧
  ("vol-b"%string ∉ map Volume.id (volumes (conn ex_missing_volumes_world))) ∧
  trace (snd (tag_volumes ex_missing_volumes_world)) =
    [Log INFO "Using volume list from cli/config file" [];
     GetAllVolumes (Some (list_to_set ["vol-a"; "vol-b"]%string));
     Log INFO "Volume %s does not exist and will not be tagged" [AStr "vol-a"];
     Log INFO "No volumes found" []] ∧
  fst (tag_snapshots ex_requested_snapshot_world) = Raise (NameError "volume_id") ∧
  writes (trace (snd (tag_snapshots ex_requested_snapshot_world))) = [].
Proof.
  split; [vm_compute; done|]. split.
  { apply (bool_decide_unpack _). vm_compute. done. }
  repeat split; vm_compute; done.
Qed.

(** ** Where the claims as written fail *)

(** C7 as written fails. With a volume object that is no [TaggedEC2Object]
    listed first, [tag_volumes] ends in the [GraffitiMonkeyException] and the
    volume listed after it is never written, although on its own it is; and
    with a snapshot whose volume is gone listed first, [tag_snapshots] ends in
    [KeyError] and the snapshot listed after it is never written. *)
Lemma sibling_not_processed :
  fst (tag_volumes ex_untagged_world) =
    Raise (GraffitiMonkeyException
             "Resource Volume:vol-0 is not an instance of TaggedEC2Object") ∧
  writes (trace (snd (tag_volumes ex_untagged_world))) = [] ∧
  writes (trace (snd (tag_volumes (ex_world false false [])))) =
    [(KVolume, "vol-1"%string, ex_volume_tags)] ∧
  fst (tag_snapshots ex_orphan_world) = Raise (KeyError (PyStr "vol-gone")) ∧
  writes (trace (snd (tag_snapshots ex_orphan_world))) = [].
Proof. repeat split; by vm_compute. Qed.

(** C8 as written fails: a requested volume id that the provider does not
    know is removed from the caller's list. *)
Lemma volumes_to_tag_changed :
  _volumes_to_tag (self ex_missing_volumes_world) = ["vol-a"; "vol-b"]%string ∧
  _volumes_to_tag (self (snd (propagate_tags ex_missing_volumes_world))) =
    ["vol-b"%string] ∧
  self (snd (propagate_tags ex_missing_volumes_world)) ≠
    self ex_missing_volumes_world.
Proof.
  split; [done|]. split; [by vm_compute|].
  intros H. apply (f_equal _volumes_to_tag) in H. vm_compute in H. discriminate.
Qed.

(** ** The theorems at the scenarios *)

Lemma set_resource_tags_delta_witness :
  obj_tagged ex_volume = true ∧
  (let delta := delta_of (obj_tags ex_volume) (ref_dict (Fresh ex_tags) ex_volume) in
   (∀ k v, delta !! k = Some v ↔
           ref_dict (Fresh ex_tags) ex_volume !! k = Some v ∧
           (obj_tags ex_volume !! k = None ∨
            ∃ cur, obj_tags ex_volume !! k = Some cur ∧ cur ≠ v)) ∧
   (delta = ∅ →
    _set_resource_tags (Fresh ex_tags) (ex_world false false [], ex_volume) =
    (Ok tt, (ex_world false false [], ex_volume))) ∧
   (delta ≠ ∅ →
    trace (fst (snd (_set_resource_tags (Fresh ex_tags)
                       (ex_world false false [], ex_volume)))) =
    trace (ex_world false false []) ++
    [AddTags KVolume (obj_id ex_volume) delta])).
Proof.
  split; [reflexivity|].
  exact (set_resource_tags_delta (R:=Volume.t) (Fresh ex_tags)
           (ex_world false false []) ex_volume eq_refl).
Defined.

Lemma dryrun_never_writes_witness :
  _dryrun (self (ex_world true false [])) = true ∧
  (let '(res, (w', _)) := tag_volume ex_instances (ex_world true false [], ex_volume) in
   writes (trace w') = writes (trace (ex_world true false [])) ∧
   conn w' = conn (ex_world true false []) ∧
   (is_Some (volume_parent ex_instances ex_volume) → res = Ok true)) ∧
  (let '(res, (w', _)) := tag_snapshot ex_volumes (ex_world true false [], ex_snapshot) in
   writes (trace w') = writes (trace (ex_world true false [])) ∧
   conn w' = conn (ex_world true false []) ∧
   (is_Some (snapshot_parent ex_volumes ex_snapshot) → res = Ok true)).
Proof.
  split; [reflexivity|].
  exact (dryrun_never_writes ex_instances ex_volumes (ex_world true false [])
           ex_volume ex_snapshot eq_refl).
Defined.

Lemma propagation_idempotent_witness :
  faults (conn (ex_world false false [])) = [] ∧
  NoDup (map Volume.id (volumes (conn (ex_world false false [])))) ∧
  NoDup (map Snapshot.id (snapshots (conn (ex_world false false [])))) ∧
  (let w1 := snd (propagate_tags (ex_world false false [])) in
   let w2 := snd (propagate_tags
                    (mkWorld (self (ex_world false false [])) (conn w1) [])) in
   writes (trace w2) = [] ∧ conn w2 = conn w1).
Proof.
  assert (NoDup (map Volume.id (volumes (conn (ex_world false false []))))) as Hv.
  { apply (bool_decide_unpack _). vm_compute. exact I. }
  assert (NoDup (map Snapshot.id (snapshots (conn (ex_world false false []))))) as Hs.
  { apply (bool_decide_unpack _). vm_compute. exact I. }
  split; [reflexivity|]. split; [exact Hv|]. split; [exact Hs|].
  exact (propagation_idempotent (ex_world false false []) eq_refl Hv Hs).
Defined.

Lemma skip_volume_not_in_use_witness :
  Volume.status ex_idle_volume ≠ "in-use"%string ∧
  ∃ tr,
    volume_body ex_instances 2 ex_idle_volume (1, 8%Z) (ex_world false false []) =
    (Ok (2, (8 + Volume.size ex_idle_volume)%Z),
     add_trace tr (ex_world false false [])) ∧
    tr = [Log INFO "Processing volume %d of %d total volumes" [ANat 2; ANat 2];
          Log DEBUG
            "Skipping %s as it is not attached to an EC2 instance, so there is nothing to propagate"
            [AStr (Volume.id ex_idle_volume)]] ∧
    writes tr = [] ∧
    conn (add_trace tr (ex_world false false [])) = conn (ex_world false false []) ∧
    self (add_trace tr (ex_world false false [])) = self (ex_world false false []).
Proof.
  assert (Volume.status ex_idle_volume ≠ "in-use"%string) as Hst.
  { intros H. vm_compute in H. discriminate H. }
  split; [exact Hst|].
  exact (skip_volume_not_in_use ex_instances 2 ex_idle_volume 1 8%Z
           (ex_world false false []) Hst).
Defined.

Lemma append_mutates_resource_tags_witness :
  _append (self (ex_world true true [])) = true ∧
  volume_parent ex_instances ex_volume = Some ex_instance ∧
  snapshot_parent ex_volumes ex_snapshot =
    Some (Volume.with_tags ex_volume_tags ex_volume) ∧
  (let '(res, (w', volume')) :=
     tag_volume ex_instances (ex_world true true [], ex_volume) in
   Volume.tags volume' =
     volume_tags_to_set (self (ex_world true true [])) ex_instance ex_volume
       (Volume.tags ex_volume) ∧
   Volume.tags volume' !! "instance_id"%string =
     Some (or_none (AttachData.instance_id (Volume.attach_data ex_volume))) ∧
   Volume.tags volume' !! "device"%string =
     Some (or_none (AttachData.device (Volume.attach_data ex_volume))) ∧
   (_dryrun (self (ex_world true true [])) = true →
    res = Ok true ∧ writes (trace w') = writes (trace (ex_world true true [])) ∧
    conn w' = conn (ex_world true true []))) ∧
  (let '(res, (w', snapshot')) :=
     tag_snapshot ex_volumes (ex_world true true [], ex_snapshot) in
   Snapshot.tags snapshot' =
     snapshot_tags_to_set (self (ex_world true true []))
       (Volume.with_tags ex_volume_tags ex_volume) (Snapshot.tags ex_snapshot) ∧
   (_dryrun (self (ex_world true true [])) = true →
    res = Ok true ∧ writes (trace w') = writes (trace (ex_world true true [])) ∧
    conn w' = conn (ex_world true true []))).
Proof.
  assert (volume_parent ex_instances ex_volume = Some ex_instance) as Hi
    by (vm_compute; reflexivity).
  assert (snapshot_parent ex_volumes ex_snapshot =
          Some (Volume.with_tags ex_volume_tags ex_volume)) as Hv
    by (vm_compute; reflexivity).
  split; [reflexivity|]. split; [exact Hi|]. split; [exact Hv|].
  exact (append_mutates_resource_tags ex_instances ex_volumes
           (ex_world true true []) ex_volume ex_snapshot ex_instance
           (Volume.with_tags ex_volume_tags ex_volume) eq_refl Hi Hv).
Defined.

Lemma retry_wrapper_contract_witness :
  let g := ex_config false false [] [] in
  let delta :=
    delta_of (Volume.tags ex_volume) (volume_tags_to_set g ex_instance ex_volume ∅) in
  let sdelta :=
    delta_of (Snapshot.tags ex_snapshot)
      (snapshot_tags_to_set g (Volume.with_tags ex_volume_tags ex_volume) ∅) in
  (_dryrun g = false ∧ _append g = false ∧
   Volume.tagged ex_volume = true ∧ Snapshot.tagged ex_snapshot = true ∧
   volume_parent ex_instances ex_volume = Some ex_instance ∧
   snapshot_parent ex_volumes ex_snapshot =
     Some (Volume.with_tags ex_volume_tags ex_volume) ∧
   delta ≠ ∅ ∧ sdelta ≠ ∅) ∧
  (let '(res, w') :=
     with_object ex_volume (retry_tag_volume ex_instances)
       (ex_world false false [Some (ServerFault "a"); Some (ServerFault "b")]) in
   res = Ok Success ∧
   writes (trace w') = replicate 3 (KVolume, "vol-1"%string, delta) ∧
   sleeps (trace w') = [0; 1]) ∧
  (let '(res, w') :=
     with_object ex_volume (retry_tag_volume ex_instances)
       (ex_world false false
          [Some (ServerFault "a"); Some (ServerFault "b"); Some (ServerFault "c");
           Some (ServerFault "d"); Some (ServerFault "e"); None]) in
   res = Ok ExhaustedFailure ∧
   writes (trace w') = replicate 5 (KVolume, "vol-1"%string, delta) ∧
   sleeps (trace w') = [0; 1; 2; 3; 4]) ∧
  (let '(res, w') :=
     with_object ex_volume (retry_tag_volume ex_instances)
       (ex_world false false [Some (ClientFault "InvalidVolume.NotFound"); None]) in
   res = Ok PermanentFailure ∧
   writes (trace w') = [(KVolume, "vol-1"%string, delta)] ∧
   sleeps (trace w') = []) ∧
  (let '(res, w') :=
     with_object ex_snapshot (retry_tag_snapshot ex_volumes)
       (ex_world false false [Some (ServerFault "a"); None]) in
   res = Ok Success ∧
   writes (trace w') = replicate 2 (KSnapshot, "snap-1"%string, sdelta) ∧
   sleeps (trace w') = [0]).
Proof.
  cbv zeta.
  assert (volume_parent ex_instances ex_volume = Some ex_instance) as Hi
    by (vm_compute; reflexivity).
  assert (snapshot_parent ex_volumes ex_snapshot =
          Some (Volume.with_tags ex_volume_tags ex_volume)) as Hv
    by (vm_compute; reflexivity).
  assert (delta_of (Volume.tags ex_volume)
            (volume_tags_to_set (ex_config false false [] []) ex_instance
               ex_volume ∅) ≠ ∅) as Hd
    by (vm_compute; discriminate).
  assert (delta_of (Snapshot.tags ex_snapshot)
            (snapshot_tags_to_set (ex_config false false [] [])
               (Volume.with_tags ex_volume_tags ex_volume) ∅) ≠ ∅) as Hsd
    by (vm_compute; discriminate).
  split; [repeat split; first [reflexivity | assumption]|].
  destruct (retry_wrapper_contract ex_instances ex_volumes ex_volume ex_snapshot
              (ex_config false false [] [])) as (Hvol & Hsnap & _ & _).
  specialize (Hvol ex_instance eq_refl eq_refl eq_refl Hi Hd).
  specialize (Hsnap (Volume.with_tags ex_volume_tags ex_volume)
                eq_refl eq_refl eq_refl Hv Hsd).
  split; [|split; [|split]].
  - destruct (Hvol (ex_world false false
                      [Some (ServerFault "a"); Some (ServerFault "b")]) eq_refl)
      as (H1 & _ & _).
    exact (H1 ["a"; "b"]%string [] ltac:(simpl; lia) eq_refl eq_refl).
  - destruct (Hvol (ex_world false false
                      [Some (ServerFault "a"); Some (ServerFault "b");
                       Some (ServerFault "c"); Some (ServerFault "d");
                       Some (ServerFault "e"); None]) eq_refl)
      as (_ & H2 & _).
    exact (H2 ["a"; "b"; "c"; "d"; "e"]%string [None] eq_refl eq_refl).
  - destruct (Hvol (ex_world false false
                      [Some (ClientFault "InvalidVolume.NotFound"); None]) eq_refl)
      as (_ & _ & H3).
    exact (H3 "InvalidVolume.NotFound"%string [None] eq_refl).
  - destruct (Hsnap (ex_world false false [Some (ServerFault "a"); None]) eq_refl)
      as (H1 & _ & _).
    exact (H1 ["a"]%string [None] ltac:(simpl; lia) eq_refl eq_refl).
Defined.

Lemma boto_errors_stay_per_resource_witness :
  (Volume.status ex_volume = "in-use"%string →
   is_Some (volume_parent ex_instances ex_volume) ∧
   (Volume.tagged ex_volume = true ∨
    _dryrun (self (ex_world false false
                     [Some (ClientFault "InvalidVolume.NotFound")])) = true)) ∧
  (∃ counters' w',
     volume_body ex_instances 2 ex_volume (0, 0%Z)
       (ex_world false false [Some (ClientFault "InvalidVolume.NotFound")]) =
       (Ok counters', w') ∧
     for_each [ex_volume; ex_idle_volume] (0, 0%Z) (volume_body ex_instances 2)
       (ex_world false false [Some (ClientFault "InvalidVolume.NotFound")]) =
     for_each [ex_idle_volume] counters' (volume_body ex_instances 2) w') ∧
  (Volume.status ex_untagged_volume = "in-use"%string ∧
   is_Some (volume_parent ex_instances ex_untagged_volume) ∧
   Volume.tagged ex_untagged_volume = false ∧
   _dryrun (self ex_untagged_world) = false) ∧
  (∃ tr,
     for_each [ex_untagged_volume; ex_volume] (0, 0%Z)
       (volume_body ex_instances 2) ex_untagged_world =
     (Raise (GraffitiMonkeyException (not_tagged_message ex_untagged_volume)),
      add_trace tr ex_untagged_world) ∧
     writes tr = []).
Proof.
  assert (is_Some (volume_parent ex_instances ex_volume)) as Hp
    by (exists ex_instance; vm_compute; reflexivity).
  assert (is_Some (volume_parent ex_instances ex_untagged_volume)) as Hp'
    by (exists ex_instance; vm_compute; reflexivity).
  destruct boto_errors_stay_per_resource as (Hvol & _ & Hbad & _).
  split; [intros _; split; [exact Hp | left; reflexivity]|].
  split.
  - exact (Hvol ex_instances 2 ex_volume [ex_idle_volume] (0, 0%Z)
             (ex_world false false [Some (ClientFault "InvalidVolume.NotFound")])
             (λ _, conj Hp (or_introl eq_refl))).
  - split; [repeat split; first [reflexivity | exact Hp']|].
    exact (Hbad ex_instances 2 ex_untagged_volume [ex_volume] (0, 0%Z)
             ex_untagged_world eq_refl Hp' eq_refl eq_refl).
Defined.

Lemma snapshots_owned_by_self_witness :
  list_snapshots (ex_world false false []) =
    (Ok [ex_snapshot], snd (list_snapshots (ex_world false false []))) ∧
  ex_snapshot ∈ [ex_snapshot] ∧
  ex_snapshot ∈ snapshots (conn (ex_world false false [])) ∧
  Snapshot.owner_id ex_snapshot = account (conn (ex_world false false [])).
Proof.
  assert (list_snapshots (ex_world false false []) =
          (Ok [ex_snapshot], snd (list_snapshots (ex_world false false [])))) as Hl
    by (vm_compute; reflexivity).
  assert (ex_snapshot ∈ [ex_snapshot]) as Hin by apply list_elem_of_here.
  split; [exact Hl|]. split; [exact Hin|].
  destruct (snapshots_owned_by_self (ex_world false false [])) as (_ & _ & Hown).
  exact (Hown [ex_snapshot] _ Hl ex_snapshot Hin).
Defined.

(** * Further properties of the code *)

(** ** What is copied and what is written *)

Lemma copied_lookup names (parent_tags acc : tagmap) k :
  copied names parent_tags acc !! k =
  match parent_tags !! k with
  | Some v => if decide (k ∈ names) then Some v else acc !! k
  | None => acc !! k
  end.
Proof.
  unfold copied. revert acc. induction names as [|n names IH]; intros acc.
  - simpl. destruct (parent_tags !! k); [|done].
    destruct (decide (k ∈ [])) as [Hc|]; [by apply elem_of_nil in Hc|done].
  - simpl. rewrite IH. destruct (parent_tags !! k) as [v|] eqn:Hk.
    + destruct (decide (k ∈ names)) as [Hin|Hnin].
      * by rewrite decide_True by by right.
      * destruct (decide (n = k)) as [->|Hne].
        -- rewrite Hk, lookup_insert_eq. by rewrite decide_True by by left.
        -- rewrite decide_False.
           2:{ intros Hc. apply elem_of_cons in Hc as [?|?]; congruence. }
           destruct (parent_tags !! n); [by rewrite lookup_insert_ne|done].
    + destruct (parent_tags !! n) as [x|] eqn:Hn; [|done].
      rewrite lookup_insert_ne; [done|]. intros ->. congruence.
Qed.

(** The loop of lines 178-182 (274-277) assigns to [tags_to_set] exactly the
    listed tag names that the parent has, each with the parent's value, and
    leaves every other entry of [tags_to_set] as it was: a name that is not
    listed is never copied, and a listed name that the parent lacks is
    neither created nor removed. The loop itself never fails. *)
Theorem copy_tags_copies_listed `{EC2ObjectLaws R} fmt names (parent_tags : tagmap)
    (t : TagsRef) (w : World) (r : R) :
  ∃ t' w' r',
    copy_tags fmt names parent_tags t (w, r) = (Ok t', (w', r')) ∧
    conn w' = conn w ∧ writes (trace w') = writes (trace w) ∧
    ∀ k, ref_dict t' r' !! k =
         match parent_tags !! k with
         | Some v => if decide (k ∈ names) then Some v else ref_dict t r !! k
         | None => ref_dict t r !! k
         end.
Proof.
  rewrite copy_tags_run. destruct t as [d|]; simpl.
  - eexists _, _, _. split; [done|]. split; [done|].
    split; [by rewrite trace_add_trace, writes_app, writes_copy_log, app_nil_r|].
    intros k. apply copied_lookup.
  - eexists _, _, _. split; [done|]. split; [done|].
    split; [by rewrite trace_add_trace, writes_app, writes_copy_log, app_nil_r|].
    intros k. unfold ref_dict. rewrite obj_tags_with_tags. apply copied_lookup.
Qed.

(** What one call of [_set_resource_tags] adds to the writes: nothing, or the
    one call with the delta. *)
Lemma set_resource_tags_writes `{EC2ObjectLaws R} t (w : World) (r : R) :
  let '(res, (w', r')) := _set_resource_tags t (w, r) in
  obj_id r' = obj_id r ∧
  (writes (trace w') = writes (trace w) ∨
   writes (trace w') =
     writes (trace w) ++ [(obj_kind, obj_id r, delta_of (obj_tags r) (ref_dict t r))]).
Proof.
  destruct (obj_tagged r) eqn:Ht.
  - rewrite set_resource_tags_run by done. simpl. case_bool_decide.
    + split; [done|by left].
    + rewrite add_tags_run. simpl.
      destruct (faults (conn w)) as [|[f|] rest]; simpl;
        rewrite ?obj_id_with_tags; (split; [done|right]);
        by rewrite writes_app.
  - unfold _set_resource_tags. unfold_monad. simpl. rewrite Ht. simpl.
    split; [done|by left].
Qed.

Lemma volume_tags_to_set_lookup g instance (v : Volume.t) key val :
  volume_tags_to_set g instance v ∅ !! key = Some val →
  key = "device"%string ∧
    val = or_none (AttachData.device (Volume.attach_data v)) ∨
  key = "instance_id"%string ∧
    val = or_none (AttachData.instance_id (Volume.attach_data v)) ∨
  key ∈ _instance_tags_to_propagate g ∧ Instance.tags instance !! key = Some val.
Proof.
  unfold volume_tags_to_set. intros Hk.
  destruct (decide (key = "device"%string)) as [->|Hd].
  { rewrite lookup_insert_eq in Hk. left. split; congruence. }
  rewrite lookup_insert_ne in Hk by done.
  destruct (decide (key = "instance_id"%string)) as [->|Hi].
  { rewrite lookup_insert_eq in Hk. right; left. split; congruence. }
  rewrite lookup_insert_ne in Hk by done.
  rewrite copied_lookup in Hk. right; right.
  destruct (Instance.tags instance !! key) as [x|]; [|by rewrite lookup_empty in Hk].
  destruct (decide (key ∈ _instance_tags_to_propagate g));
    [split; congruence | by rewrite lookup_empty in Hk].
Qed.

Lemma snapshot_tags_to_set_lookup g (parent : Volume.t) key val :
  snapshot_tags_to_set g parent ∅ !! key = Some val →
  key ∈ _volume_tags_to_propagate g ∧ Volume.tags parent !! key = Some val.
Proof.
  unfold snapshot_tags_to_set. rewrite copied_lookup. intros Hk.
  destruct (Volume.tags parent !! key) as [x|]; [|by rewrite lookup_empty in Hk].
  destruct (decide (key ∈ _volume_tags_to_propagate g));
    [split; congruence | by rewrite lookup_empty in Hk].
Qed.

(** One call of [tag_volume]: the volume keeps its id, at most one write
    call is made, and it is [(KVolume, id, delta)] with the delta of the
    volume's tags against what [tag_volume] wants. *)
Lemma tag_volume_step instances w (v : Volume.t) :
  let '(res, (w', v')) := tag_volume instances (w, v) in
  Volume.id v' = Volume.id v ∧
  (writes (trace w') = writes (trace w) ∨
   ∃ instance,
     volume_parent instances v = Some instance ∧
     writes (trace w') =
       writes (trace w) ++
       [(KVolume, Volume.id v,
         delta_of (Volume.tags v) (volume_tags_to_set (self w) instance v ∅))]).
Proof.
  rewrite tag_volume_run.
  destruct (volume_parent instances v) as [instance|] eqn:Hpar;
    [|split; [done|by left]].
  cbv zeta. destruct (_dryrun (self w)).
  { split; [by destruct (_append (self w))|left].
    by rewrite !trace_add_trace, !writes_app, writes_copy_log, !app_nil_r. }
  unfold mbind, M_bind.
  destruct (_append (self w)).
  - rewrite set_resource_tags_alias. destruct (obj_tagged _); simpl;
      (split; [done|left]);
      by rewrite writes_app, writes_copy_log, app_nil_r.
  - match goal with
    | |- context [_set_resource_tags ?t (?w1, ?r1)] =>
        pose proof (set_resource_tags_writes t w1 r1) as Hs;
        destruct (_set_resource_tags t (w1, r1)) as [[[]|e] [w' v']]
    end; destruct Hs as [Hid Hw]; simpl in Hid;
      rewrite trace_add_trace, writes_app, writes_copy_log, app_nil_r in Hw;
      (split; [done|]);
      (destruct Hw as [Hw|Hw]; [by left|right; by exists instance]).
Qed.

Lemma tag_snapshot_step volumes w (s : Snapshot.t) :
  let '(res, (w', s')) := tag_snapshot volumes (w, s) in
  Snapshot.id s' = Snapshot.id s ∧
  (writes (trace w') = writes (trace w) ∨
   ∃ parent,
     snapshot_parent volumes s = Some parent ∧
     writes (trace w') =
       writes (trace w) ++
       [(KSnapshot, Snapshot.id s,
         delta_of (Snapshot.tags s) (snapshot_tags_to_set (self w) parent ∅))]).
Proof.
  rewrite tag_snapshot_run.
  destruct (snapshot_parent volumes s) as [parent|] eqn:Hpar;
    [|split; [done|by left]].
  cbv zeta. destruct (_dryrun (self w)).
  { split; [by destruct (_append (self w))|left].
    by rewrite !trace_add_trace, !writes_app, writes_copy_log, !app_nil_r. }
  unfold mbind, M_bind.
  destruct (_append (self w)).
  - rewrite set_resource_tags_alias. destruct (obj_tagged _); simpl;
      (split; [done|left]);
      by rewrite writes_app, writes_copy_log, app_nil_r.
  - match goal with
    | |- context [_set_resource_tags ?t (?w1, ?r1)] =>
        pose proof (set_resource_tags_writes t w1 r1) as Hs;
        destruct (_set_resource_tags t (w1, r1)) as [[[]|e] [w' s']]
    end; destruct Hs as [Hid Hw]; simpl in Hid;
      rewrite trace_add_trace, writes_app, writes_copy_log, app_nil_r in Hw;
      (split; [done|]);
      (destruct Hw as [Hw|Hw]; [by left|right; by exists parent]).
Qed.

(** Whatever the configuration and the provider, one call of [tag_volume]
    makes at most one write call; that call is for the volume it was given,
    and each tag in it is a tag that the volume does not hold with that value
    and is either [device] or [instance_id] with the value of the attachment,
    or a listed instance tag with the value that the instance has. *)
Theorem tag_volume_writes_allowlisted instances w (v : Volume.t) :
  let '(res, (w', v')) := tag_volume instances (w, v) in
  ∃ ws,
    writes (trace w') = writes (trace w) ++ ws ∧ length ws ≤ 1 ∧
    ∀ k i d, (k, i, d) ∈ ws →
      k = KVolume ∧ i = Volume.id v ∧
      ∀ key val, d !! key = Some val →
        Volume.tags v !! key ≠ Some val ∧
        (key = "device"%string ∧
           val = or_none (AttachData.device (Volume.attach_data v)) ∨
         key = "instance_id"%string ∧
           val = or_none (AttachData.instance_id (Volume.attach_data v)) ∨
         key ∈ _instance_tags_to_propagate (self w) ∧
           ∃ instance, volume_parent instances v = Some instance ∧
                       Instance.tags instance !! key = Some val).
Proof.
  pose proof (tag_volume_step instances w v) as Hstep.
  destruct (tag_volume instances (w, v)) as [res [w' v']].
  destruct Hstep as [_ [Hw|(instance & Hpar & Hw)]].
  - exists []. rewrite app_nil_r. split; [done|]. split; [simpl; lia|].
    intros k i d Hin. by apply elem_of_nil in Hin.
  - eexists. split; [exact Hw|]. split; [simpl; lia|].
    intros k i d Hin. apply list_elem_of_singleton in Hin. injection Hin as -> -> ->.
    split; [done|]. split; [done|]. intros key val Hk.
    apply delta_of_lookup in Hk as [Hk Hd]. split.
    + apply tag_differs_spec in Hd as [Hn|(cur & Hc & Hne)]; congruence.
    + destruct (volume_tags_to_set_lookup _ _ _ _ _ Hk) as [?|[?|[? ?]]];
        [by left|by right; left|right; right].
      split; [done|]. by exists instance.
Qed.

(** Likewise for [tag_snapshot]: at most one write call, for the snapshot it
    was given, and each tag in it is a listed volume tag with the value that
    the snapshot's volume has and that the snapshot does not hold yet. *)
Theorem tag_snapshot_writes_allowlisted volumes w (s : Snapshot.t) :
  let '(res, (w', s')) := tag_snapshot volumes (w, s) in
  ∃ ws,
    writes (trace w') = writes (trace w) ++ ws ∧ length ws ≤ 1 ∧
    ∀ k i d, (k, i, d) ∈ ws →
      k = KSnapshot ∧ i = Snapshot.id s ∧
      ∀ key val, d !! key = Some val →
        Snapshot.tags s !! key ≠ Some val ∧
        key ∈ _volume_tags_to_propagate (self w) ∧
        ∃ parent, snapshot_parent volumes s = Some parent ∧
                  Volume.tags parent !! key = Some val.
Proof.
  pose proof (tag_snapshot_step volumes w s) as Hstep.
  destruct (tag_snapshot volumes (w, s)) as [res [w' s']].
  destruct Hstep as [_ [Hw|(parent & Hpar & Hw)]].
  - exists []. rewrite app_nil_r. split; [done|]. split; [simpl; lia|].
    intros k i d Hin. by apply elem_of_nil in Hin.
  - eexists. split; [exact Hw|]. split; [simpl; lia|].
    intros k i d Hin. apply list_elem_of_singleton in Hin. injection Hin as -> -> ->.
    split; [done|]. split; [done|]. intros key val Hk.
    apply delta_of_lookup in Hk as [Hk Hd]. split.
    + apply tag_differs_spec in Hd as [Hn|(cur & Hc & Hne)]; congruence.
    + destruct (snapshot_tags_to_set_lookup _ _ _ _ Hk) as [? ?].
      split; [done|]. by exists parent.
Qed.

(** ** The write calls of the retry loop *)

(** If each attempt keeps the id of the resource and makes at most one write
    call, on that resource, then the loop makes at most as many write calls
    as it has attempts, all on that resource. *)
Lemma retry_writes `{EC2Object R} f1 f2 f3 (op : M (World * R) bool) :
  (∀ w r, let '(res, (w', r')) := op (w, r) in
          obj_id r' = obj_id r ∧
          ∃ ws, writes (trace w') = writes (trace w) ++ ws ∧ length ws ≤ 1 ∧
                ∀ x, x ∈ ws → x.1 = (obj_kind, obj_id r)) →
  ∀ attempts last w r,
    let '(res, (w', r')) := retry f1 f2 f3 op attempts last (w, r) in
    ∃ ws, writes (trace w') = writes (trace w) ++ ws ∧
          length ws ≤ length attempts ∧
          ∀ x, x ∈ ws → x.1 = (obj_kind, obj_id r).
Proof.
  intros Hop attempts.
  induction attempts as [|a attempts IH]; intros last w r.
  - simpl.
    destruct last as [[c a]|]; unfold_monad; simpl; exists [];
      rewrite ?trace_add_trace, ?writes_app, ?app_nil_r;
      (split; [done|]); (split; [done|]);
      intros x Hx; by apply elem_of_nil in Hx.
  - simpl retry. pose proof (Hop w r) as Hs.
    destruct (op (w, r)) as [[b|e] [w' r']];
      destruct Hs as (Hid & ws & Hw & Hlen & Hall).
    + exists ws. split; [done|]. split; [simpl; lia|done].
    + destruct e as [c|c|m|k|nm];
        try (exists ws; split; [done|]; split; [simpl; lia|done]).
      * unfold_monad. simpl. exists ws.
        rewrite ?trace_add_trace, writes_app. simpl. rewrite app_nil_r.
        split; [done|]. split; [simpl; lia|done].
      * unfold_monad. simpl.
        match goal with
        | |- context [retry f1 f2 f3 op attempts ?l (?w1, r')] =>
            pose proof (IH l w1 r') as IH';
            destruct (retry f1 f2 f3 op attempts l (w1, r')) as [res [w2 r2]]
        end.
        destruct IH' as (ws' & Hw' & Hlen' & Hall').
        exists (ws ++ ws').
        rewrite Hw', ?trace_add_trace, !writes_app. simpl.
        rewrite !app_nil_r, Hw, <- app_assoc.
        split; [done|]. split; [rewrite length_app; simpl; lia|].
        intros x Hx. apply elem_of_app in Hx as [Hx|Hx]; [by apply Hall|].
        rewrite <- Hid. by apply Hall'.
Qed.

Lemma retry_tag_volume_writes instances (w : World) (volume : Volume.t) :
  ∃ ws,
    writes (trace (with_object volume (retry_tag_volume instances) w).2) =
      writes (trace w) ++ ws ∧
    length ws ≤ 5 ∧
    ∀ x, x ∈ ws → x.1 = (KVolume, Volume.id volume).
Proof.
  unfold with_object, retry_tag_volume.
  match goal with
  | |- context [retry ?f1 ?f2 ?f3 ?op ?a ?l (w, volume)] =>
      pose proof (retry_writes (R:=Volume.t) f1 f2 f3 op) as Hr
  end.
  match type of Hr with ?A → _ => assert A as Hop end.
  { intros w0 r0. pose proof (tag_volume_step instances w0 r0) as Hs.
    destruct (tag_volume instances (w0, r0)) as [res [w' r']].
    destruct Hs as [Hid [Hw|(instance & _ & Hw)]]; (split; [done|]).
    - exists []. rewrite app_nil_r. split; [done|]. split; [simpl; lia|].
      intros x Hx. by apply elem_of_nil in Hx.
    - eexists. split; [exact Hw|]. split; [simpl; lia|].
      intros x Hx. apply list_elem_of_singleton in Hx. by subst x. }
  specialize (Hr Hop (range 5) None w volume).
  destruct (retry _ _ _ _ _ _ _) as [res [w' r']]. exact Hr.
Qed.

Lemma retry_tag_snapshot_writes volumes (w : World) (snapshot : Snapshot.t) :
  ∃ ws,
    writes (trace (with_object snapshot (retry_tag_snapshot volumes) w).2) =
      writes (trace w) ++ ws ∧
    length ws ≤ 5 ∧
    ∀ x, x ∈ ws → x.1 = (KSnapshot, Snapshot.id snapshot).
Proof.
  unfold with_object, retry_tag_snapshot.
  match goal with
  | |- context [retry ?f1 ?f2 ?f3 ?op ?a ?l (w, snapshot)] =>
      pose proof (retry_writes (R:=Snapshot.t) f1 f2 f3 op) as Hr
  end.
  match type of Hr with ?A → _ => assert A as Hop end.
  { intros w0 r0. pose proof (tag_snapshot_step volumes w0 r0) as Hs.
    destruct (tag_snapshot volumes (w0, r0)) as [res [w' r']].
    destruct Hs as [Hid [Hw|(parent & _ & Hw)]]; (split; [done|]).
    - exists []. rewrite app_nil_r. split; [done|]. split; [simpl; lia|].
      intros x Hx. by apply elem_of_nil in Hx.
    - eexists. split; [exact Hw|]. split; [simpl; lia|].
      intros x Hx. apply list_elem_of_singleton in Hx. by subst x. }
  specialize (Hr Hop (range 5) None w snapshot).
  destruct (retry _ _ _ _ _ _ _) as [res [w' r']]. exact Hr.
Qed.

(** The work on one resource (lines 144-157 and 245-258), whatever the
    configuration, the parents and the answers of the provider: at most five
    write calls are made, and each of them is for that resource. *)
Theorem retry_at_most_five_writes instances volumes
    (volume : Volume.t) (snapshot : Snapshot.t) (w : World) :
  (∃ ws,
     writes (trace (with_object volume (retry_tag_volume instances) w).2) =
       writes (trace w) ++ ws ∧
     length ws ≤ 5 ∧
     ∀ x, x ∈ ws → x.1 = (KVolume, Volume.id volume)) ∧
  (∃ ws,
     writes (trace (with_object snapshot (retry_tag_snapshot volumes) w).2) =
       writes (trace w) ++ ws ∧
     length ws ≤ 5 ∧
     ∀ x, x ∈ ws → x.1 = (KSnapshot, Snapshot.id snapshot)).
Proof.
  split; [apply retry_tag_volume_writes | apply retry_tag_snapshot_writes].
Qed.

(** ** Runs that write nothing *)

Section relating_worlds.
Variable Rel : World → World → Prop.
Hypothesis Rel_refl : ∀ w, Rel w w.
Hypothesis Rel_trans : ∀ w1 w2 w3, Rel w1 w2 → Rel w2 w3 → Rel w1 w3.
Hypothesis Rel_silent : ∀ w tr, Forall silent tr → Rel w (add_trace tr w).

Lemma for_each_rel {A B} (body : A → B → M World B) (l : list A) :
  (∀ x acc w, x ∈ l → Rel w (body x acc w).2) →
  ∀ acc w, Rel w (for_each l acc body w).2.
Proof.
  induction l as [|x l IH]; intros Hbody acc w; [apply Rel_refl|].
  simpl. unfold mbind, M_bind.
  pose proof (Hbody x acc w (list_elem_of_here _ _)) as Hx.
  destruct (body x acc w) as [[acc'|e] w']; [|done].
  eapply Rel_trans; [exact Hx|]. apply IH.
  intros y acc0 w0 Hy. apply Hbody. by apply list_elem_of_further.
Qed.

Lemma retry_rel `{EC2Object R} f1 f2 f3 (op : M (World * R) bool) :
  (∀ w r, Rel w (op (w, r)).2.1) →
  ∀ attempts last w r, Rel w (retry f1 f2 f3 op attempts last (w, r)).2.1.
Proof.
  intros Hop attempts.
  induction attempts as [|a attempts IH]; intros last w r.
  - simpl. destruct last as [[c a]|]; unfold_monad; simpl; [|apply Rel_refl].
    apply (Rel_silent w [_]). by repeat constructor.
  - simpl retry. pose proof (Hop w r) as Hs.
    destruct (op (w, r)) as [[b|e] [w' r']]; simpl in Hs; [done|].
    destruct e as [c|c|m|k|nm]; try done.
    + unfold_monad. simpl. eapply Rel_trans; [exact Hs|].
      apply (Rel_silent w' [_]). by repeat constructor.
    + unfold_monad. simpl. eapply Rel_trans; [exact Hs|].
      eapply Rel_trans; [|apply IH]. rewrite add_trace_app.
      apply Rel_silent. by repeat constructor.
Qed.

End relating_worlds.

Lemma quiet_refl w : quiet w w.
Proof. by intros Hm. Qed.

Lemma quiet_trans w1 w2 w3 : quiet w1 w2 → quiet w2 w3 → quiet w1 w3.
Proof.
  intros H12 H23 Hm. destruct (H12 Hm) as (Hm2 & Hc2 & Hw2).
  destruct (H23 Hm2) as (Hm3 & Hc3 & Hw3). split; [done|]. split; congruence.
Qed.

Lemma quiet_add_trace w tr : writes tr = [] → quiet w (add_trace tr w).
Proof.
  intros Htr Hm. split; [done|]. split; [done|].
  by rewrite trace_add_trace, writes_app, Htr, app_nil_r.
Qed.

Lemma writes_silent tr : Forall silent tr → writes tr = [].
Proof.
  induction 1 as [|e tr He _ IH]; [done|]. by destruct e.
Qed.

Lemma quiet_silent w tr : Forall silent tr → quiet w (add_trace tr w).
Proof. intros Htr. by apply quiet_add_trace, writes_silent. Qed.

Lemma tag_volume_quiet instances w (v : Volume.t) :
  quiet w (tag_volume instances (w, v)).2.1.
Proof.
  intros Hm. rewrite tag_volume_run.
  destruct (volume_parent instances v) as [instance|]; [|done].
  cbv zeta. destruct (_dryrun (self w)) eqn:Hdry.
  { split; [done|]. split; [done|]. simpl.
    by rewrite !writes_app, writes_copy_log, !app_nil_r. }
  unfold no_write_mode in Hm. rewrite Hdry in Hm. simpl in Hm. rewrite Hm.
  unfold mbind, M_bind. rewrite set_resource_tags_alias.
  destruct (obj_tagged _); simpl;
    (split; [unfold no_write_mode; by rewrite Hm, orb_true_r|]);
    (split; [done|]); by rewrite writes_app, writes_copy_log, app_nil_r.
Qed.

Lemma tag_snapshot_quiet volumes w (s : Snapshot.t) :
  quiet w (tag_snapshot volumes (w, s)).2.1.
Proof.
  intros Hm. rewrite tag_snapshot_run.
  destruct (snapshot_parent volumes s) as [parent|]; [|done].
  cbv zeta. destruct (_dryrun (self w)) eqn:Hdry.
  { split; [done|]. split; [done|]. simpl.
    by rewrite !writes_app, writes_copy_log, !app_nil_r. }
  unfold no_write_mode in Hm. rewrite Hdry in Hm. simpl in Hm. rewrite Hm.
  unfold mbind, M_bind. rewrite set_resource_tags_alias.
  destruct (obj_tagged _); simpl;
    (split; [unfold no_write_mode; by rewrite Hm, orb_true_r|]);
    (split; [done|]); by rewrite writes_app, writes_copy_log, app_nil_r.
Qed.

Lemma volume_body_quiet instances n v c w :
  quiet w (volume_body instances n v c w).2.
Proof.
  unfold volume_body. unfold_monad. cbn [fst snd].
  case_bool_decide.
  - simpl. rewrite add_trace_app. by apply quiet_add_trace.
  - unfold retry_tag_volume.
    match goal with
    | |- context [retry ?f1 ?f2 ?f3 ?op ?a ?l (add_trace ?tr w, v)] =>
        apply (quiet_trans w (add_trace tr w)); [by apply quiet_add_trace|];
        pose proof (retry_rel quiet quiet_refl quiet_trans quiet_silent
                      (R:=Volume.t) f1 f2 f3 op (tag_volume_quiet instances)
                      a l (add_trace tr w) v) as Hq
    end.
    by destruct (retry _ _ _ _ _ _ _) as [[o|e] [w' r']].
Qed.

Lemma snapshot_body_quiet volumes n s c w :
  quiet w (snapshot_body volumes n s c w).2.
Proof.
  unfold snapshot_body. unfold_monad. cbn [fst snd].
  unfold retry_tag_snapshot.
  match goal with
  | |- context [retry ?f1 ?f2 ?f3 ?op ?a ?l (add_trace ?tr w, s)] =>
      apply (quiet_trans w (add_trace tr w)); [by apply quiet_add_trace|];
      pose proof (retry_rel quiet quiet_refl quiet_trans quiet_silent
                    (R:=Snapshot.t) f1 f2 f3 op (tag_snapshot_quiet volumes)
                    a l (add_trace tr w) s) as Hq
  end.
  by destruct (retry _ _ _ _ _ _ _) as [[o|e] [w' r']].
Qed.

Lemma tag_listed_volumes_quiet L w : quiet w (tag_listed_volumes L w).2.
Proof.
  destruct L as [|v L].
  { unfold tag_listed_volumes. unfold_monad. simpl.
    by apply (quiet_add_trace w [_]). }
  destruct (tag_listed_volumes_run v L w) as (tr0 & Htr0 & ->).
  eapply quiet_trans; [by apply (quiet_add_trace w tr0)|].
  match goal with
  | |- context [for_each ?l ?a ?body ?w1] =>
      pose proof (for_each_rel quiet quiet_refl quiet_trans body l
                    (λ x acc w0 _, volume_body_quiet _ _ x acc w0) a w1) as Hq;
      destruct (for_each l a body w1) as [[c|e] w2]
  end; [|done].
  eapply quiet_trans; [exact Hq|]. by apply quiet_add_trace.
Qed.

Lemma tag_listed_snapshots_quiet L w : quiet w (tag_listed_snapshots L w).2.
Proof.
  destruct L as [|s L].
  { unfold tag_listed_snapshots. unfold_monad. simpl.
    by apply (quiet_add_trace w [_]). }
  destruct (tag_listed_snapshots_run s L w) as (tr0 & Htr0 & ->).
  eapply quiet_trans; [by apply (quiet_add_trace w tr0)|].
  match goal with
  | |- context [for_each ?l ?a ?body ?w1] =>
      pose proof (for_each_rel quiet quiet_refl quiet_trans body l
                    (λ x acc w0 _, snapshot_body_quiet _ _ x acc w0) a w1) as Hq;
      destruct (for_each l a body w1) as [[c|e] w2]
  end; [|done].
  eapply quiet_trans; [exact Hq|]. by apply quiet_add_trace.
Qed.

Lemma tag_volumes_quiet w : quiet w (tag_volumes w).2.
Proof.
  unfold tag_volumes. unfold mbind, M_bind.
  destruct (list_volumes_run w) as (tr & -> & Htr).
  eapply quiet_trans; [|apply tag_listed_volumes_quiet].
  intros Hm. split; [done|]. split; [done|]. simpl.
  by rewrite writes_app, Htr, app_nil_r.
Qed.

Lemma tag_snapshots_quiet w : quiet w (tag_snapshots w).2.
Proof.
  unfold tag_snapshots. unfold mbind, M_bind. rewrite list_snapshots_run.
  destruct (_snapshots_to_tag (self w)).
  - eapply quiet_trans; [|apply tag_listed_snapshots_quiet].
    by apply quiet_add_trace.
  - by apply quiet_add_trace.
Qed.

Lemma propagate_tags_quiet w : quiet w (propagate_tags w).2.
Proof.
  unfold propagate_tags. unfold_monad.
  destruct (_novolumes (self w)).
  - destruct (_nosnapshots (self w)); [apply quiet_refl|].
    pose proof (tag_snapshots_quiet w) as Hs.
    by destruct (tag_snapshots w) as [[r|e] w'].
  - pose proof (tag_volumes_quiet w) as Hv.
    destruct (tag_volumes w) as [[r|e] w1]; [|done]. simpl in Hv.
    destruct (_nosnapshots (self w1)); [done|].
    pose proof (tag_snapshots_quiet w1) as Hs.
    destruct (tag_snapshots w1) as [[r'|e] w2];
      simpl in Hs; by eapply quiet_trans.
Qed.

(** A whole run in dry-run or in append mode, whatever the inventory, the
    filters and the other settings: [propagate_tags] makes no write call and
    the provider is afterwards as it was before. *)
Theorem propagate_tags_writes_nothing (w : World) :
  _dryrun (self w) = true ∨ _append (self w) = true →
  writes (trace (propagate_tags w).2) = writes (trace w) ∧
  conn (propagate_tags w).2 = conn w.
Proof.
  intros Hmode.
  destruct (propagate_tags_quiet w) as (_ & Hc & Hw); [|done].
  unfold no_write_mode. destruct Hmode as [->| ->]; [done|apply orb_true_r].
Qed.

Lemma propagate_tags_writes_nothing_witness :
  writes (trace (propagate_tags (ex_world false true [])).2) =
    writes (trace (ex_world false true [])) ∧
  conn (propagate_tags (ex_world false true [])).2 = conn (ex_world false true []).
Proof.
  exact (propagate_tags_writes_nothing (ex_world false true [])
           (or_intror eq_refl)).
Defined.

(** ** What a stage returns and reports *)

Lemma volume_body_counters instances n v c w c' w' :
  volume_body instances n v c w = (Ok c', w') →
  c' = (S c.1, (c.2 + Volume.size v)%Z).
Proof.
  unfold volume_body. unfold_monad. cbn [fst snd].
  case_bool_decide; simpl; [congruence|].
  destruct (retry_tag_volume _ _) as [[o|e] [w1 r1]]; simpl; congruence.
Qed.

Lemma volume_loop_counters instances n L :
  ∀ c w c' w',
    for_each L c (volume_body instances n) w = (Ok c', w') →
    c' = (c.1 + length L, (c.2 + total_size L)%Z).
Proof.
  induction L as [|v L IH]; intros c w c' w'; simpl.
  - unfold_monad. intros [= <- <-]. destruct c as [a b]. simpl.
    f_equal; lia.
  - unfold mbind, M_bind.
    destruct (volume_body instances n v c w) as [[c1|e] w1] eqn:Hb; [|done].
    intros Hl. apply IH in Hl. apply volume_body_counters in Hb. subst c1 c'.
    simpl. f_equal; lia.
Qed.

(** When [tag_volumes] returns, it returns [True] if it found no volume, its
    last log record being "No volumes found", and [None] otherwise; in the
    second case its last two log records are the total and the completion,
    and the total is the sum of the sizes of all the volumes listed, whether
    they were attached, tagged or skipped. *)
Theorem tag_volumes_reports_total_size (w : World) res w' :
  tag_volumes w = (Ok res, w') →
  ∃ tr,
    match listed_volumes (self w) (conn w) with
    | [] =>
        res = Some true ∧ trace w' = tr ++ [Log INFO "No volumes found" []]
    | L =>
        res = None ∧
        trace w' =
          tr ++ [Log INFO "Processed a total of {0} GB of AWS Volumes"
                   [AInt (total_size L)];
                 Log INFO "Completed processing all volumes" []]
    end.
Proof.
  unfold tag_volumes. unfold mbind, M_bind.
  destruct (list_volumes_run w) as (tr & -> & _).
  destruct (listed_volumes (self w) (conn w)) as [|v L].
  - unfold tag_listed_volumes. unfold_monad. simpl. intros [= <- <-].
    by eexists.
  - match goal with
    | |- tag_listed_volumes _ ?w1 = _ → _ =>
        destruct (tag_listed_volumes_run v L w1) as (tr0 & _ & ->)
    end.
    destruct (for_each _ _ _ _) as [[c|e] w2] eqn:Hloop; [|done].
    intros [= <- <-]. apply volume_loop_counters in Hloop. subst c.
    exists (trace w2). split; [done|]. rewrite trace_add_trace.
    simpl. by rewrite Z.add_0_l.
Qed.

Lemma tag_volumes_reports_total_size_witness :
  ∃ res w', tag_volumes (ex_world false false []) = (Ok res, w') ∧
  ∃ tr,
    match listed_volumes (self (ex_world false false []))
            (conn (ex_world false false [])) with
    | [] =>
        res = Some true ∧ trace w' = tr ++ [Log INFO "No volumes found" []]
    | L =>
        res = None ∧
        trace w' =
          tr ++ [Log INFO "Processed a total of {0} GB of AWS Volumes"
                   [AInt (total_size L)];
                 Log INFO "Completed processing all volumes" []]
    end.
Proof.
  eexists _, _. split; [vm_compute; reflexivity|].
  refine (tag_volumes_reports_total_size (ex_world false false []) _ _ _).
  vm_compute; reflexivity.
Defined.

(** ** The queries of a stage *)

Lemma queries_app tr1 tr2 : queries (tr1 ++ tr2) = queries tr1 ++ queries tr2.
Proof. apply filter_app. Qed.

Lemma queries_tagging tr : Forall tagging_event tr → queries tr = [].
Proof.
  induction 1 as [|e tr He _ IH]; [done|].
  unfold queries in *. rewrite filter_cons, IH. by destruct e.
Qed.

Lemma queries_dropped_log fuel i ids l : queries (dropped_log fuel i ids l) = [].
Proof.
  revert i l. induction fuel as [|fuel IH]; intros i l; [done|]. simpl.
  destruct (l !! i); [|done].
  case_bool_decide; [unfold queries; rewrite filter_cons; simpl|]; apply IH.
Qed.

Lemma list_volumes_queries w :
  ∃ tr,
    trace (list_volumes w).2 = trace w ++ tr ∧
    queries tr = [GetAllVolumes (id_filter (_volumes_to_tag (self w)))].
Proof.
  unfold list_volumes, get_all_volumes.
  unfold mbind at 1, M_bind at 1, gets at 1.
  destruct (_volumes_to_tag (self w)) as [|x l] eqn:Hl.
  - unfold_monad. simpl. eexists. rewrite <- app_assoc. split; [done|]. done.
  - unfold_monad. rewrite drop_missing_volumes_run.
    unfold add_trace. cbn [self conn trace snd].
    eexists. rewrite <- !app_assoc. split; [done|].
    rewrite !queries_app, queries_dropped_log. done.
Qed.

Lemma volume_loop_queries instances n L c w :
  ∃ tr, trace (for_each L c (volume_body instances n) w).2 = trace w ++ tr ∧
        queries tr = [].
Proof.
  destruct (Framed_for_each tagging_event L c (volume_body instances n)
              (λ x b, Framed_volume_body tagging_event (λ e He, He) _ _ x b) w)
    as (_ & tr & Htr & Hall).
  exists tr. split; [done|]. by apply queries_tagging.
Qed.

Lemma snapshot_loop_queries volumes n L c w :
  ∃ tr, trace (for_each L c (snapshot_body volumes n) w).2 = trace w ++ tr ∧
        queries tr = [].
Proof.
  destruct (Framed_for_each tagging_event L c (snapshot_body volumes n)
              (λ x b, Framed_snapshot_body tagging_event (λ e He, He) _ _ x b) w)
    as (_ & tr & Htr & Hall).
  exists tr. split; [done|]. by apply queries_tagging.
Qed.

Lemma tag_listed_volumes_queries L w :
  ∃ tr,
    trace (tag_listed_volumes L w).2 = trace w ++ tr ∧
    queries tr =
      match L with
      | [] => []
      | _ :: _ =>
          [GetAllInstances
             (list_to_set
                (map (λ v, AttachData.instance_id (Volume.attach_data v)) L))]
      end.
Proof.
  destruct L as [|v L].
  { unfold tag_listed_volumes. unfold_monad. simpl. by eexists. }
  unfold tag_listed_volumes, get_all_instances.
  unfold_monad. cbn [fst snd]. rewrite !add_trace_app.
  match goal with
  | |- context [for_each ?l ?a ?body ?w1] =>
      destruct (volume_loop_queries (instances_by_id
                  (filter (λ i, PyStr (Instance.id i) ∈
                     (list_to_set
                        (map (λ v, AttachData.instance_id (Volume.attach_data v))
                             (v :: L)) : gset pyval))
                     (instances (conn w)))) (length (v :: L)) l a w1)
        as (tr & Htr & Hq)
  end.
  destruct (for_each _ _ _ _) as [[c|e] w2]; cbn [fst snd] in Htr |- *;
    rewrite ?add_trace_app, ?trace_add_trace, Htr, ?trace_add_trace,
      <- ?app_assoc;
    eexists; (split; [reflexivity|]); rewrite !queries_app, Hq; done.
Qed.

Lemma tag_listed_snapshots_queries L w :
  ∃ tr,
    trace (tag_listed_snapshots L w).2 = trace w ++ tr ∧
    queries tr =
      match L with
      | [] => []
      | _ :: _ => [GetAllVolumes (Some (list_to_set (map Snapshot.volume_id L)))]
      end.
Proof.
  destruct L as [|s L].
  { unfold tag_listed_snapshots. unfold_monad. simpl. by eexists. }
  unfold tag_listed_snapshots, get_all_volumes.
  unfold_monad. cbn [fst snd]. rewrite !add_trace_app.
  match goal with
  | |- context [for_each ?l ?a (snapshot_body ?vs ?n) ?w1] =>
      destruct (snapshot_loop_queries vs n l a w1) as (tr & Htr & Hq)
  end.
  destruct (for_each _ _ _ _) as [[c|e] w2]; cbn [fst snd] in Htr |- *;
    rewrite ?add_trace_app, ?trace_add_trace, Htr, ?trace_add_trace,
      <- ?app_assoc;
    eexists; (split; [reflexivity|]); rewrite !queries_app, Hq; done.
Qed.

(** [tag_volumes] asks the provider at most twice, however many volumes there
    are and however the tagging goes: once for the volumes, with the
    requested ids as the filter if there are any, and, if volumes were found,
    once for the instances, with the [attach_data.instance_id] of the volumes
    found as the filter. *)
Theorem tag_volumes_queries (w : World) :
  ∃ tr,
    trace (tag_volumes w).2 = trace w ++ tr ∧
    queries tr =
      GetAllVolumes (id_filter (_volumes_to_tag (self w))) ::
      match listed_volumes (self w) (conn w) with
      | [] => []
      | L =>
          [GetAllInstances
             (list_to_set
                (map (λ v, AttachData.instance_id (Volume.attach_data v)) L))]
      end.
Proof.
  destruct (list_volumes_queries w) as (tr1 & Htr1 & Hq1).
  unfold tag_volumes. unfold mbind, M_bind.
  destruct (list_volumes_run w) as (tr & Hrun & _). rewrite Hrun in Htr1 |- *.
  match goal with
  | |- context [tag_listed_volumes ?L ?w1] =>
      destruct (tag_listed_volumes_queries L w1) as (tr2 & Htr2 & Hq2)
  end.
  simpl in Htr1. exists (tr1 ++ tr2).
  rewrite Htr2. cbn [trace snd]. rewrite Htr1, <- app_assoc.
  split; [done|]. rewrite queries_app, Hq1, Hq2.
  by destruct (listed_volumes (self w) (conn w)).
Qed.

(** [tag_snapshots] asks the provider at most twice: once for the snapshots
    of the account itself, and, if no snapshot ids were requested and
    snapshots were found, once for the volumes, with the [volume_id] of the
    snapshots found as the filter. *)
Theorem tag_snapshots_queries (w : World) :
  ∃ tr,
    trace (tag_snapshots w).2 = trace w ++ tr ∧
    queries tr =
      GetAllSnapshots (Some "self"%string)
        (id_filter (_snapshots_to_tag (self w))) ::
      match _snapshots_to_tag (self w), listed_snapshots (conn w) with
      | [], (_ :: _) as L =>
          [GetAllVolumes (Some (list_to_set (map Snapshot.volume_id L)))]
      | _, _ => []
      end.
Proof.
  unfold tag_snapshots. unfold mbind, M_bind. rewrite list_snapshots_run.
  destruct (_snapshots_to_tag (self w)) as [|x l].
  - match goal with
    | |- context [tag_listed_snapshots ?L ?w1] =>
        destruct (tag_listed_snapshots_queries L w1) as (tr2 & Htr2 & Hq2)
    end.
    rewrite Htr2, trace_add_trace, <- app_assoc. eexists. split; [done|].
    rewrite queries_app, Hq2. simpl. unfold listed_snapshots.
    by destruct (filter _ _).
  - simpl. eexists. split; [done|]. done.
Qed.

(** ** The list of requested volumes after the listing *)

Lemma list_remove_middle x pre suf :
  x ∉ pre → list_remove x (pre ++ x :: suf) = pre ++ suf.
Proof.
  induction pre as [|y pre IH]; intros Hx; simpl.
  - by rewrite decide_True.
  - rewrite decide_False.
    + rewrite IH; [done|]. intros Hin. apply Hx. by right.
    + intros ->. apply Hx. by left.
Qed.

Lemma dropped_scan ids ids' fuel :
  ∀ pre suf,
    NoDup (pre ++ suf) →
    (∀ x, x ∈ suf → x ∈ ids ↔ x ∈ ids') →
    length suf < fuel →
    dropped fuel (length pre) ids (pre ++ suf) = pre ++ scan_skipping ids' suf.
Proof.
  induction fuel as [|fuel IH]; intros pre suf Hnd Hids Hfuel; [lia|].
  destruct suf as [|x suf].
  { simpl. rewrite app_nil_r. by rewrite lookup_ge_None_2. }
  cbn [dropped]. rewrite list_lookup_middle by done.
  pose proof (Hids x (list_elem_of_here _ _)) as Hx.
  assert (∀ z, z ∈ suf → z ∈ ids ↔ z ∈ ids') as Hsuf.
  { intros z Hz. apply Hids. by right. }
  cbn [scan_skipping]. case_bool_decide as Hin.
  - rewrite decide_False by (intros Hx'; apply Hin, (proj2 Hx), Hx').
    apply NoDup_app in Hnd as (Hpre & Hdisj & Hxs).
    rewrite list_remove_middle by (intros Hp; by apply (Hdisj x Hp); left).
    destruct suf as [|y suf].
    { rewrite app_nil_r. destruct fuel as [|fuel]; [done|]. simpl.
      by rewrite lookup_ge_None_2 by lia. }
    replace (S (length pre)) with (length (pre ++ [y]))
      by (rewrite length_app; simpl; lia).
    rewrite (cons_middle y pre suf), app_assoc. rewrite IH.
    + by rewrite <- app_assoc.
    + rewrite <- app_assoc. simpl. apply NoDup_app. split; [done|].
      split; [|by apply NoDup_cons_1_2 in Hxs].
      intros z Hz Hz'. apply (Hdisj z Hz). by right.
    + intros z Hz. apply Hsuf. by right.
    + simpl in Hfuel. lia.
  - rewrite decide_True by (apply (proj1 Hx), Hin).
    replace (S (length pre)) with (length (pre ++ [x]))
      by (rewrite length_app; simpl; lia).
    rewrite (cons_middle x pre suf), app_assoc. rewrite IH.
    + by rewrite <- app_assoc.
    + by rewrite <- app_assoc.
    + done.
    + simpl in Hfuel. lia.
Qed.

(** When the requested volume ids are distinct, [list_volumes] leaves in
    [self._volumes_to_tag] what the scan that steps over the successor of each
    removed id leaves: an id that the provider does not know is removed, and
    the id that follows it is kept without being looked at, known or not. *)
Theorem list_volumes_skips_after_removal (w : World) :
  NoDup (_volumes_to_tag (self w)) →
  _volumes_to_tag (self (list_volumes w).2) =
  scan_skipping (map Volume.id (volumes (conn w))) (_volumes_to_tag (self w)).
Proof.
  intros Hnd. destruct (list_volumes_run w) as (tr & -> & _).
  cbn [snd self _volumes_to_tag set_volumes_to_tag].
  apply (dropped_scan _ _ _ []); [done| |lia].
  intros x Hx. unfold listed_volumes.
  destruct (_volumes_to_tag (self w)) as [|y l] eqn:Hl; [done|].
  change (map Volume.id) with (fmap (M:=list) Volume.id).
  rewrite !list_elem_of_fmap. split.
  - intros (v & -> & Hv). apply list_elem_of_filter in Hv as [_ Hv].
    by exists v.
  - intros (v & -> & Hv). exists v. split; [done|].
    apply list_elem_of_filter. split; [|done].
    by apply elem_of_list_to_set.
Qed.

Lemma list_volumes_skips_after_removal_witness :
  _volumes_to_tag (self (list_volumes ex_missing_volumes_world).2) =
  scan_skipping (map Volume.id (volumes (conn ex_missing_volumes_world)))
    (_volumes_to_tag (self ex_missing_volumes_world)).
Proof.
  apply (list_volumes_skips_after_removal ex_missing_volumes_world).
  apply (bool_decide_unpack _). vm_compute. exact I.
Defined.

(** ** When a stage completes, and when it does not *)

Lemma instances_by_id_lookup l k :
  is_Some (instances_by_id l !! k) ↔ ∃ i, i ∈ l ∧ Instance.id i = k.
Proof.
  unfold instances_by_id.
  assert (∀ d : gmap string Instance.t,
            is_Some (foldl (λ d i, <[Instance.id i := i]> d) d l !! k) ↔
            is_Some (d !! k) ∨ ∃ i, i ∈ l ∧ Instance.id i = k) as Hgen.
  { induction l as [|x l IH]; intros d; simpl.
    - split; [by left|]. intros [?|(i & Hi & _)]; [done|].
      by apply elem_of_nil in Hi.
    - rewrite IH. split.
      + intros [Hd|(i & Hi & Hk)].
        * destruct (decide (Instance.id x = k)) as [Hx|Hx].
          -- right. exists x. split; [by left|done].
          -- left. by rewrite lookup_insert_ne in Hd.
        * right. exists i. split; [by right|done].
      + intros [Hd|(i & Hi & Hk)].
        * left. destruct (decide (Instance.id x = k)) as [->|Hx];
            [by rewrite lookup_insert_eq | by rewrite lookup_insert_ne].
        * apply elem_of_cons in Hi as [->|Hi].
          -- left. rewrite <- Hk. by rewrite lookup_insert_eq.
          -- right. by exists i. }
  rewrite Hgen, lookup_empty. split; [|by right].
  intros [[? ?]|?]; done.
Qed.

Lemma volumes_by_id_lookup l k :
  is_Some (volumes_by_id l !! k) ↔ ∃ v, v ∈ l ∧ Volume.id v = k.
Proof.
  unfold volumes_by_id.
  assert (∀ d : gmap string Volume.t,
            is_Some (foldl (λ d v, <[Volume.id v := v]> d) d l !! k) ↔
            is_Some (d !! k) ∨ ∃ v, v ∈ l ∧ Volume.id v = k) as Hgen.
  { induction l as [|x l IH]; intros d; simpl.
    - split; [by left|]. intros [?|(i & Hi & _)]; [done|].
      by apply elem_of_nil in Hi.
    - rewrite IH. split.
      + intros [Hd|(i & Hi & Hk)].
        * destruct (decide (Volume.id x = k)) as [Hx|Hx].
          -- right. exists x. split; [by left|done].
          -- left. by rewrite lookup_insert_ne in Hd.
        * right. exists i. split; [by right|done].
      + intros [Hd|(i & Hi & Hk)].
        * left. destruct (decide (Volume.id x = k)) as [->|Hx];
            [by rewrite lookup_insert_eq | by rewrite lookup_insert_ne].
        * apply elem_of_cons in Hi as [->|Hi].
          -- left. rewrite <- Hk. by rewrite lookup_insert_eq.
          -- right. by exists i. }
  rewrite Hgen, lookup_empty. split; [|by right].
  intros [[? ?]|?]; done.
Qed.

(** The parent mapping of the volume stage holds the instance of each listed
    volume that is attached to an instance of the inventory. *)
Lemma volume_parents_lookup L p v i :
  v ∈ L → i ∈ instances p → Instance.id i ≠ ""%string →
  AttachData.instance_id (Volume.attach_data v) = PyStr (Instance.id i) →
  is_Some (volume_parent (volume_parents L p) v).
Proof.
  intros Hv Hi Hne Hatt. unfold volume_parent, or_none. rewrite Hatt. simpl.
  rewrite bool_decide_eq_false_2 by done. simpl.
  apply instances_by_id_lookup. exists i. split; [|done].
  apply list_elem_of_filter. split; [|done].
  apply elem_of_list_to_set. rewrite <- Hatt.
  change (map ?f L) with (fmap (M:=list) f L).
  apply list_elem_of_fmap. by exists v.
Qed.

(** The parent mapping of the snapshot stage holds the volume of a listed
    snapshot exactly when the provider has that volume. *)
Lemma snapshot_parents_lookup L p s :
  s ∈ L →
  is_Some (snapshot_parent (snapshot_parents L p) s) ↔
  Snapshot.volume_id s ∈ map Volume.id (volumes p).
Proof.
  intros Hs. unfold snapshot_parent, snapshot_parents.
  rewrite volumes_by_id_lookup.
  change (map Volume.id) with (fmap (M:=list) Volume.id).
  rewrite list_elem_of_fmap. split.
  - intros (v & Hv & Hid). apply list_elem_of_filter in Hv as [_ Hv].
    by exists v.
  - intros (v & Hid & Hv). exists v. split; [|done].
    apply list_elem_of_filter. split; [|done].
    apply elem_of_list_to_set. rewrite <- Hid.
    change (map ?f L) with (fmap (M:=list) f L).
    apply list_elem_of_fmap. by exists s.
Qed.

Lemma for_each_ok {A B} (body : A → B → M World B) (l : list A)
    (g : GraffitiMonkey) :
  (∀ x c w, x ∈ l → self w = g →
            ∃ c' w', body x c w = (Ok c', w') ∧ self w' = g) →
  ∀ c w, self w = g →
         ∃ c' w', for_each l c body w = (Ok c', w') ∧ self w' = g.
Proof.
  induction l as [|x l IH]; intros Hbody c w Hg; simpl.
  - by eexists _, _.
  - unfold mbind, M_bind.
    destruct (Hbody x c w (list_elem_of_here _ _) Hg) as (c1 & w1 & -> & Hg1).
    apply IH; [|done]. intros y c0 w0 Hy. apply Hbody. by right.
Qed.

Lemma for_each_app {St A B} (body : A → B → M St B) (l1 l2 : list A) c s :
  for_each (l1 ++ l2) c body s =
  match for_each l1 c body s with
  | (Ok c', s') => for_each l2 c' body s'
  | (Raise e, s') => (Raise e, s')
  end.
Proof.
  revert c s. induction l1 as [|x l1 IH]; intros c s; simpl; [done|].
  unfold mbind, M_bind. destruct (body x c s) as [[c1|e] s1]; [apply IH|done].
Qed.

Lemma volume_body_ok instances total v c w :
  (Volume.status v = "in-use"%string →
   is_Some (volume_parent instances v) ∧
   (Volume.tagged v = true ∨ _dryrun (self w) = true)) →
  ∃ c' w', volume_body instances total v c w = (Ok c', w') ∧ self w' = self w.
Proof.
  intros Hv.
  destruct (Framed_volume_body tagging_event (λ e He, He) instances total v c w)
    as [Hself _].
  unfold world_of, World_HasWorld in Hself.
  destruct (decide (Volume.status v = "in-use"%string)) as [Hst|Hst].
  - destruct (Hv Hst) as [Hpar Htag].
    revert Hself. unfold volume_body. unfold_monad. cbn [fst snd].
    rewrite bool_decide_eq_false_2 by by intros ?.
    unfold retry_tag_volume.
    match goal with
    | |- context [retry ?f1 ?f2 ?f3 ?op ?a ?l ?s] =>
        destruct (retry_catches f1 f2 f3 op _
                    (tag_volume_boto_only instances)
                    (λ tr w r H, H) a l s)
          as (o & [w' v'] & ->); [done|by left|]
    end.
    intros Hself. by eexists _, _.
  - destruct c as [n z]. revert Hself.
    rewrite volume_body_not_in_use by done. intros Hself. by eexists _, _.
Qed.

Lemma snapshot_body_ok volumes total s c w :
  is_Some (snapshot_parent volumes s) →
  Snapshot.tagged s = true ∨ _dryrun (self w) = true →
  ∃ c' w', snapshot_body volumes total s c w = (Ok c', w') ∧ self w' = self w.
Proof.
  intros Hpar Htag.
  destruct (Framed_snapshot_body tagging_event (λ e He, He) volumes total s c w)
    as [Hself _].
  unfold world_of, World_HasWorld in Hself.
  revert Hself. unfold snapshot_body. unfold_monad. cbn [fst snd].
  unfold retry_tag_snapshot.
  match goal with
  | |- context [retry ?f1 ?f2 ?f3 ?op ?a ?l ?s0] =>
      destruct (retry_catches f1 f2 f3 op _
                  (tag_snapshot_boto_only volumes)
                  (λ tr w r H, H) a l s0)
        as (o & [w' v'] & ->); [done|by left|]
  end.
  intros Hself. by eexists _, _.
Qed.

(** [tag_volumes] returns, whatever the provider answers to the write calls,
    when each listed volume that is in use is attached to an instance of the
    inventory and is a [TaggedEC2Object] (or the run is a dry run). *)
Theorem tag_volumes_completes (w : World) :
  (∀ v, v ∈ listed_volumes (self w) (conn w) →
        Volume.status v = "in-use"%string →
        (∃ i, i ∈ instances (conn w) ∧ Instance.id i ≠ ""%string ∧
              AttachData.instance_id (Volume.attach_data v) =
                PyStr (Instance.id i)) ∧
        (Volume.tagged v = true ∨ _dryrun (self w) = true)) →
  ∃ res w', tag_volumes w = (Ok res, w').
Proof.
  intros Hall. unfold tag_volumes. unfold mbind, M_bind.
  destruct (list_volumes_run w) as (tr & -> & _).
  destruct (listed_volumes (self w) (conn w)) as [|v L] eqn:HL.
  { unfold tag_listed_volumes. unfold_monad. simpl. by eexists _, _. }
  match goal with
  | |- context [tag_listed_volumes _ ?w1] =>
      destruct (tag_listed_volumes_run v L w1) as (tr0 & _ & ->);
      set (w0 := add_trace tr0 w1)
  end.
  cbn [conn].
  destruct (for_each_ok
              (volume_body (volume_parents (v :: L) (conn w)) (length (v :: L)))
              (v :: L) (self w0)) with (c := (0, 0%Z)) (w := w0)
    as (c' & w' & -> & _); [|done|by eexists _, _].
  intros x c w2 Hx Hw2. rewrite <- Hw2.
  apply volume_body_ok. intros Hst.
  destruct (Hall x Hx Hst) as [(i & Hi & Hne & Hatt) Htag].
  split; [by eapply volume_parents_lookup|].
  destruct Htag as [?|Hdry]; [by left|right]. by rewrite Hw2.
Qed.

(** [tag_snapshots] returns, whatever the provider answers to the write
    calls, when no snapshot ids are requested and each snapshot of the
    account is a [TaggedEC2Object] (or the run is a dry run) whose volume the
    provider has. *)
Theorem tag_snapshots_completes (w : World) :
  _snapshots_to_tag (self w) = [] →
  (∀ s, s ∈ listed_snapshots (conn w) →
        Snapshot.volume_id s ∈ map Volume.id (volumes (conn w)) ∧
        (Snapshot.tagged s = true ∨ _dryrun (self w) = true)) →
  ∃ res w', tag_snapshots w = (Ok res, w').
Proof.
  intros Hreq Hall. unfold tag_snapshots. unfold mbind, M_bind.
  rewrite list_snapshots_run, Hreq. fold (listed_snapshots (conn w)).
  destruct (listed_snapshots (conn w)) as [|s L] eqn:HL.
  { unfold tag_listed_snapshots. unfold_monad. simpl. by eexists _, _. }
  match goal with
  | |- context [tag_listed_snapshots _ ?w1] =>
      destruct (tag_listed_snapshots_run s L w1) as (tr0 & _ & ->);
      set (w0 := add_trace tr0 w1)
  end.
  rewrite conn_add_trace.
  destruct (for_each_ok
              (snapshot_body (snapshot_parents (s :: L) (conn w))
                 (length (s :: L)))
              (s :: L) (self w0)) with (c := 0) (w := w0)
    as (c' & w' & -> & _); [|done|by eexists _, _].
  intros x c w2 Hx Hw2. rewrite <- Hw2.
  destruct (Hall x Hx) as [Hvol Htag].
  apply snapshot_body_ok.
  - by apply snapshot_parents_lookup.
  - destruct Htag as [?|Hdry]; [by left|right]. by rewrite Hw2.
Qed.

Lemma tag_volumes_completes_witness :
  ∃ res w',
    tag_volumes (ex_world false false
                   [Some (ServerFault "RequestLimitExceeded");
                    Some (ClientFault "InvalidVolume.NotFound")]) = (Ok res, w').
Proof.
  apply (tag_volumes_completes
           (ex_world false false
              [Some (ServerFault "RequestLimitExceeded");
               Some (ClientFault "InvalidVolume.NotFound")])).
  intros v Hv Hst. vm_compute in Hv.
  apply elem_of_cons in Hv as [->|Hv].
  - split; [|by left]. exists ex_instance.
    split; [by left|]. split; [discriminate|reflexivity].
  - apply list_elem_of_singleton in Hv as ->. discriminate Hst.
Defined.

Lemma tag_snapshots_completes_witness :
  ∃ res w',
    tag_snapshots (ex_world false false
                     [Some (ServerFault "RequestLimitExceeded")]) = (Ok res, w').
Proof.
  apply (tag_snapshots_completes
           (ex_world false false [Some (ServerFault "RequestLimitExceeded")])
           eq_refl).
  intros s Hs. vm_compute in Hs.
  apply list_elem_of_singleton in Hs as ->.
  split; [|by left]. by left.
Defined.

Lemma snapshot_body_orphan volumes n s c w :
  snapshot_parent volumes s = None →
  snapshot_body volumes n s c w =
  (Raise (KeyError (PyStr (Snapshot.volume_id s))),
   add_trace [Log INFO "Processing snapshot %d of %d total snapshots"
                [ANat (S c); ANat n]] w).
Proof.
  intros Hpar. unfold snapshot_body, retry_tag_snapshot, range.
  unfold_monad. cbn [fst snd seq retry].
  by rewrite tag_snapshot_run, Hpar.
Qed.

Lemma snapshot_body_writes volumes n s c w :
  ∃ ws,
    writes (trace (snapshot_body volumes n s c w).2) = writes (trace w) ++ ws ∧
    ∀ x, x ∈ ws → x.1 = (KSnapshot, Snapshot.id s).
Proof.
  unfold snapshot_body. unfold_monad. cbn [fst snd].
  match goal with
  | |- context [retry_tag_snapshot volumes (?w1, s)] =>
      destruct (retry_tag_snapshot_writes volumes w1 s) as (ws & Hw & _ & Hall);
      unfold with_object in Hw;
      destruct (retry_tag_snapshot volumes (w1, s)) as [[o|e] [w2 s2]]
  end; cbn [fst snd] in Hw |- *; exists ws;
    rewrite Hw, trace_add_trace, writes_app; simpl; by rewrite app_nil_r.
Qed.

(** With no snapshot ids requested, [tag_snapshots] ends with a [KeyError] at
    the first snapshot of the account whose volume the provider does not
    have (the snapshots before it being taggable, with volumes that the
    provider has): the snapshots after it are not processed, every write call
    made being for a snapshot before it. *)
Theorem tag_snapshots_stops_at_orphan (w : World) pre s rest :
  _snapshots_to_tag (self w) = [] →
  listed_snapshots (conn w) = pre ++ s :: rest →
  (∀ s', s' ∈ pre →
         Snapshot.volume_id s' ∈ map Volume.id (volumes (conn w)) ∧
         (Snapshot.tagged s' = true ∨ _dryrun (self w) = true)) →
  Snapshot.volume_id s ∉ map Volume.id (volumes (conn w)) →
  (tag_snapshots w).1 = Raise (KeyError (PyStr (Snapshot.volume_id s))) ∧
  ∃ ws,
    writes (trace (tag_snapshots w).2) = writes (trace w) ++ ws ∧
    ∀ x, x ∈ ws → x.1.1 = KSnapshot ∧ x.1.2 ∈ map Snapshot.id pre.
Proof.
  intros Hreq HL Hpre Horphan. unfold tag_snapshots. unfold mbind, M_bind.
  rewrite list_snapshots_run, Hreq. fold (listed_snapshots (conn w)).
  rewrite HL.
  assert (∃ y L, pre ++ s :: rest = y :: L) as (y & L & HyL).
  { destruct pre; by eexists _, _. }
  rewrite HyL.
  match goal with
  | |- context [tag_listed_snapshots _ ?w1] =>
      destruct (tag_listed_snapshots_run y L w1) as (tr0 & Htr0 & ->);
      set (w0 := add_trace tr0 w1)
  end.
  rewrite conn_add_trace, <- HyL.
  set (parents := snapshot_parents (pre ++ s :: rest) (conn w)).
  set (n := length (pre ++ s :: rest)).
  set (Rel := λ w1 w2 : World,
         ∃ ws, writes (trace w2) = writes (trace w1) ++ ws ∧
               ∀ x, x ∈ ws → x.1.1 = KSnapshot ∧ x.1.2 ∈ map Snapshot.id pre).
  assert (∀ w1, Rel w1 w1) as Rel_refl.
  { intros w1. exists []. rewrite app_nil_r. split; [done|].
    intros x Hx. by apply elem_of_nil in Hx. }
  assert (∀ w1 w2 w3, Rel w1 w2 → Rel w2 w3 → Rel w1 w3) as Rel_trans.
  { intros w1 w2 w3 (ws1 & H1 & Ha1) (ws2 & H2 & Ha2). exists (ws1 ++ ws2).
    rewrite H2, H1, <- app_assoc. split; [done|].
    intros x Hx. apply elem_of_app in Hx as [Hx|Hx]; auto. }
  rewrite for_each_app.
  pose proof (for_each_rel Rel Rel_refl Rel_trans (snapshot_body parents n) pre)
    as Hrel.
  destruct (for_each_ok (snapshot_body parents n) pre (self w0))
    with (c := 0) (w := w0) as (c' & w' & Hloop & _); [|done|].
  { intros x c w2 Hx Hw2. rewrite <- Hw2.
    destruct (Hpre x Hx) as [Hvol Htag].
    apply snapshot_body_ok.
    - apply snapshot_parents_lookup; [|done].
      apply elem_of_app. by left.
    - destruct Htag as [?|Hdry]; [by left|right]. by rewrite Hw2. }
  assert (∀ x acc w1, x ∈ pre → Rel w1 (snapshot_body parents n x acc w1).2)
    as Hbody.
  { intros x acc w1 Hx.
    destruct (snapshot_body_writes parents n x acc w1) as (ws & Hws & Hall).
    exists ws. split; [done|]. intros z Hz. rewrite (Hall z Hz). simpl.
    split; [done|].
    change (map Snapshot.id) with (fmap (M:=list) Snapshot.id).
    apply list_elem_of_fmap. by exists x. }
  specialize (Hrel Hbody 0 w0).
  rewrite Hloop in Hrel |- *. cbn [snd] in Hrel.
  cbn [for_each]. unfold mbind, M_bind.
  rewrite snapshot_body_orphan.
  2:{ destruct (snapshot_parent parents s) eqn:Hs; [|done].
      exfalso. apply Horphan.
      apply (snapshot_parents_lookup (pre ++ s :: rest) (conn w) s).
      - apply elem_of_app. right. by left.
      - by eexists. }
  split; [done|]. cbn [snd].
  destruct Hrel as (ws & Hws & Hall). exists ws.
  rewrite trace_add_trace, writes_app, Hws. unfold w0.
  rewrite !trace_add_trace, !writes_app, Htr0. simpl.
  rewrite !app_nil_r. split; [done|exact Hall].
Qed.

Lemma tag_snapshots_stops_at_orphan_witness :
  (tag_snapshots ex_orphan_world).1 = Raise (KeyError (PyStr "vol-gone")) ∧
  ∃ ws,
    writes (trace (tag_snapshots ex_orphan_world).2) =
      writes (trace ex_orphan_world) ++ ws ∧
    ∀ x, x ∈ ws → x.1.1 = KSnapshot ∧ x.1.2 ∈ map Snapshot.id [].
Proof.
  apply (tag_snapshots_stops_at_orphan ex_orphan_world []
           ex_orphan_snapshot [ex_snapshot] eq_refl).
  - vm_compute; reflexivity.
  - intros s' Hs'. by apply elem_of_nil in Hs'.
  - apply (bool_decide_unpack _). vm_compute. exact I.
Defined.

(** ** What a stage leaves at the provider *)

Lemma copied_union names (parent_tags t : tagmap) :
  copied names parent_tags ∅ ∪ t = copied names parent_tags t.
Proof.
  apply map_eq. intros k. rewrite lookup_union, !copied_lookup, lookup_empty.
  destruct (parent_tags !! k) as [x|]; [destruct (decide (k ∈ names))|];
    by destruct (t !! k).
Qed.

Lemma volume_tags_to_set_union g instance v (t : tagmap) :
  volume_tags_to_set g instance v ∅ ∪ t = volume_tags_to_set g instance v t.
Proof.
  unfold volume_tags_to_set. by rewrite <- !insert_union_l, copied_union.
Qed.

Section stage_result.
Context `{EC2ObjectLaws R} {C : Type}.
Variable cfg : GraffitiMonkey → Prop.
Variable plan : R → Plan.
Variable body : R → C → M World C.

Hypothesis body_plan : follows_plan cfg plan body.

Lemma plan_ups_ids (L : list R) i d :
  (i, d) ∈ plan_ups plan L → i ∈ map obj_id L.
Proof.
  unfold plan_ups. intros Hin. apply list_elem_of_omap in Hin as (r & Hr & Hp).
  destruct (plan r); try done. injection Hp as <- <-.
  change (map obj_id L) with (fmap (M:=list) obj_id L).
  apply list_elem_of_fmap. by exists r.
Qed.

Lemma result_loop (L : list R) :
  ∀ c w c' w',
    cfg (self w) → faults (conn w) = [] →
    for_each L c body w = (Ok c', w') →
    self w' = self w ∧
    conn w' = apply_ups obj_kind (plan_ups plan L) (conn w) ∧
    ∀ r e, r ∈ L → plan r ≠ Abort e.
Proof.
  induction L as [|r L IH]; intros c w c' w' Hcfg Hf; simpl.
  - unfold_monad. intros [= <- <-]. split; [done|]. split; [done|].
    intros r e Hr. by apply elem_of_nil in Hr.
  - unfold mbind, M_bind.
    destruct (body_plan r c w Hcfg Hf) as [tr Hplan].
    unfold plan_ups. cbn [omap list_omap].
    destruct (plan r) as [|e|d] eqn:Hp.
    + destruct Hplan as [[c1 ->] _]. intros Hrun.
      apply IH in Hrun as (Hs & Hc & Hno); [|done..].
      split; [done|]. split; [done|].
      intros r0 e Hr0. apply elem_of_cons in Hr0 as [->|Hr0];
        [by rewrite Hp|by apply Hno].
    + destruct Hplan as [-> _]. done.
    + cbv zeta in Hplan. destruct Hplan as [[c1 ->] _]. intros Hrun.
      apply IH in Hrun as (Hs & Hc & Hno);
        [|done|simpl; by rewrite faults_provider_add_tags].
      split; [done|]. split; [done|].
      intros r0 e Hr0. apply elem_of_cons in Hr0 as [->|Hr0];
        [by rewrite Hp|by apply Hno].
Qed.

Lemma relist_planned (L : list R) :
  NoDup (map obj_id L) →
  ∀ r, r ∈ L → relist (plan_ups plan L) r = planned plan r.
Proof.
  induction L as [|x L IH]; intros Hnd r Hr; [by apply elem_of_nil in Hr|].
  simpl in Hnd. apply NoDup_cons in Hnd as [Hx Hnd].
  assert (∀ y, y ∈ L → obj_id y ≠ obj_id x) as Hother.
  { intros y Hy Heq. apply Hx. rewrite <- Heq.
    change (map obj_id L) with (fmap (M:=list) obj_id L).
    apply list_elem_of_fmap. by exists y. }
  assert (∀ i d, (i, d) ∈ plan_ups plan L → i ≠ obj_id x) as Hups.
  { intros i d Hi ->. apply Hx. by eapply plan_ups_ids. }
  unfold plan_ups. cbn [omap list_omap]. fold (plan_ups plan L).
  apply elem_of_cons in Hr as [->|Hr].
  - unfold planned. destruct (plan x) as [|e|d].
    + by apply relist_other.
    + by apply relist_other.
    + change (relist ((obj_id x, delta_of (obj_tags x) d) :: plan_ups plan L) x)
        with (relist (plan_ups plan L) (upd (obj_id x) (delta_of (obj_tags x) d) x)).
      unfold upd. rewrite decide_True by done. rewrite delta_of_union.
      apply relist_other. intros i e Hi. rewrite obj_id_with_tags.
      by eapply Hups.
  - destruct (plan x) as [|e|d]; [by apply IH..|].
    change (relist ((obj_id x, delta_of (obj_tags x) d) :: plan_ups plan L) r)
      with (relist (plan_ups plan L) (upd (obj_id x) (delta_of (obj_tags x) d) r)).
    rewrite upd_other by by apply Hother. by apply IH.
Qed.

End stage_result.

Lemma requested_listed g p v :
  v ∈ listed_volumes g p ↔ v ∈ volumes p ∧ requested g v = true.
Proof.
  unfold listed_volumes, requested.
  destruct (_volumes_to_tag g) as [|x l]; [by intuition|].
  rewrite list_elem_of_filter, elem_of_list_to_set, bool_decide_eq_true.
  by intuition.
Qed.

Lemma listed_snapshots_owned p s :
  s ∈ listed_snapshots p ↔
  s ∈ snapshots p ∧ owned_by p (Some "self"%string) s = true.
Proof.
  unfold listed_snapshots. rewrite list_elem_of_filter, andb_true_r.
  by intuition.
Qed.

Lemma map_fixed {A} (f : A → A) (l : list A) :
  (∀ x, x ∈ l → f x = x) → map f l = l.
Proof.
  induction l as [|x l IH]; intros Hf; [done|]. simpl.
  rewrite Hf by by left. rewrite IH; [done|].
  intros y Hy. apply Hf. by right.
Qed.

Lemma NoDup_map_inj {A B} (f : A → B) (l : list A) :
  NoDup (map f l) → ∀ x y, x ∈ l → y ∈ l → f x = f y → x = y.
Proof.
  induction l as [|a l IH]; intros Hnd x y Hx Hy Hxy;
    [by apply elem_of_nil in Hx|].
  simpl in Hnd. apply NoDup_cons in Hnd as [Ha Hnd].
  change (map f l) with (fmap (M:=list) f l) in Ha.
  apply elem_of_cons in Hx as [->|Hx]; apply elem_of_cons in Hy as [->|Hy].
  - done.
  - exfalso. apply Ha. rewrite Hxy. apply list_elem_of_fmap. by exists y.
  - exfalso. apply Ha. rewrite <- Hxy. apply list_elem_of_fmap. by exists x.
  - by apply IH.
Qed.

Lemma planned_volume g instances (v : Volume.t) :
  _dryrun g = false → _append g = false →
  (∀ e, volume_plan g instances v ≠ Abort e) →
  planned (volume_plan g instances) v = tagged_volume g instances v.
Proof.
  intros Hdry Happ Hno. unfold planned, tagged_volume.
  unfold volume_plan in *. case_bool_decide; [done|].
  destruct (volume_parent instances v) as [instance|]; [|done].
  rewrite Hdry, Happ in *.
  destruct (Volume.tagged v); simpl in *; [|by destruct (Hno _ eq_refl)].
  by rewrite volume_tags_to_set_union.
Qed.

Lemma planned_snapshot g volumes (s : Snapshot.t) :
  _dryrun g = false → _append g = false →
  (∀ e, snapshot_plan g volumes s ≠ Abort e) →
  planned (snapshot_plan g volumes) s = tagged_snapshot g volumes s.
Proof.
  intros Hdry Happ Hno. unfold planned, tagged_snapshot.
  unfold snapshot_plan in *.
  destruct (snapshot_parent volumes s) as [parent|]; [|done].
  rewrite Hdry, Happ in *.
  destruct (Snapshot.tagged s); simpl in *; [|by destruct (Hno _ eq_refl)].
  unfold snapshot_tags_to_set. by rewrite copied_union.
Qed.

Lemma tag_volumes_result_holds (w : World) res w' :
  faults (conn w) = [] →
  NoDup (map Volume.id (volumes (conn w))) →
  _dryrun (self w) = false → _append (self w) = false →
  tag_volumes w = (Ok res, w') →
  let parents :=
    volume_parents (listed_volumes (self w) (conn w)) (conn w) in
  volumes (conn w') =
    map (λ v, if requested (self w) v
              then tagged_volume (self w) parents v else v)
        (volumes (conn w)) ∧
  instances (conn w') = instances (conn w) ∧
  snapshots (conn w') = snapshots (conn w) ∧
  account (conn w') = account (conn w) ∧
  faults (conn w') = [].
Proof.
  intros Hf Hnd Hdry Happ. cbv zeta.
  unfold tag_volumes. unfold mbind, M_bind.
  destruct (list_volumes_run w) as (tr & -> & _).
  destruct (listed_volumes (self w) (conn w)) as [|v L] eqn:HL.
  { unfold tag_listed_volumes. unfold_monad. simpl. intros [= <- <-]. simpl.
    split; [|done]. symmetry. apply map_fixed. intros x Hx.
    destruct (requested (self w) x) eqn:Hreq; [|done].
    assert (x ∈ listed_volumes (self w) (conn w)) as Hin
      by by apply requested_listed.
    rewrite HL in Hin. by apply elem_of_nil in Hin. }
  match goal with
  | |- tag_listed_volumes _ ?w1 = _ → _ =>
      destruct (tag_listed_volumes_run v L w1) as (tr0 & _ & ->);
      set (w0 := add_trace tr0 w1)
  end.
  cbn [conn].
  set (parents := volume_parents (v :: L) (conn w)).
  destruct (for_each _ _ _ w0) as [[c|e] w2] eqn:Hloop; [|done].
  intros [= <- <-]. rewrite conn_add_trace.
  assert (faults (conn w0) = []) as Hf0 by exact Hf.
  assert (tagging_config (self w0) = tagging_config (self w)) as Hcfg0 by done.
  destruct (result_loop _ _ _
              (volume_body_follows_plan (self w) parents (length (v :: L)))
              _ _ _ _ _ Hcfg0 Hf0 Hloop) as (_ & -> & Hno).
  change (conn w0) with (conn w).
  rewrite volumes_apply_ups_volume.
  pose proof (faults_apply_ups KVolume
                (plan_ups (volume_plan (self w) parents) (v :: L)) (conn w))
    as Hfaults.
  rewrite Hf in Hfaults.
  destruct (apply_ups_volume_rest
              (plan_ups (volume_plan (self w) parents) (v :: L)) (conn w))
    as (Hacc & Hins & Hrest).
  split; [|by repeat split]. apply map_ext_in. intros x Hx. apply list_elem_of_In in Hx.
  destruct (requested (self w) x) eqn:Hreq.
  - assert (x ∈ v :: L) as Hin by (rewrite <- HL; by apply requested_listed).
    rewrite (relist_planned (volume_plan (self w) parents) (v :: L)); [|
      rewrite <- HL; by apply listed_volumes_NoDup | done].
    apply planned_volume; [done..|]. intros e. by apply Hno.
  - apply relist_other. intros i d Hi Heq.
    apply plan_ups_ids in Hi.
    change (map obj_id (v :: L)) with (fmap (M:=list) Volume.id (v :: L)) in Hi.
    apply list_elem_of_fmap in Hi as (y & -> & Hy).
    rewrite <- HL in Hy. apply requested_listed in Hy as [_ Hy].
    unfold requested in Hreq, Hy. simpl in Heq. rewrite Heq in Hy. congruence.
Qed.

Lemma tag_snapshots_result_holds (w : World) res w' :
  faults (conn w) = [] →
  NoDup (map Snapshot.id (snapshots (conn w))) →
  _dryrun (self w) = false → _append (self w) = false →
  tag_snapshots w = (Ok res, w') →
  let parents := snapshot_parents (listed_snapshots (conn w)) (conn w) in
  snapshots (conn w') =
    map (λ s, if owned_by (conn w) (Some "self"%string) s
              then tagged_snapshot (self w) parents s else s)
        (snapshots (conn w)) ∧
  instances (conn w') = instances (conn w) ∧
  volumes (conn w') = volumes (conn w) ∧
  account (conn w') = account (conn w) ∧
  faults (conn w') = [].
Proof.
  intros Hf Hnd Hdry Happ. cbv zeta.
  unfold tag_snapshots. unfold mbind, M_bind. rewrite list_snapshots_run.
  destruct (_snapshots_to_tag (self w)) as [|x0 l0]; [|done].
  fold (listed_snapshots (conn w)).
  destruct (listed_snapshots (conn w)) as [|s L] eqn:HL.
  { intros Hrun. assert (conn w' = conn w) as ->.
    { revert Hrun. unfold tag_listed_snapshots. unfold_monad. simpl.
      by intros [= <- <-]. }
    split; [|done]. symmetry. apply map_fixed. intros x Hx.
    destruct (owned_by (conn w) (Some "self"%string) x) eqn:Hown; [|done].
    assert (x ∈ listed_snapshots (conn w)) as Hin
      by by apply listed_snapshots_owned.
    rewrite HL in Hin. by apply elem_of_nil in Hin. }
  match goal with
  | |- tag_listed_snapshots _ ?w1 = _ → _ =>
      destruct (tag_listed_snapshots_run s L w1) as (tr0 & _ & ->);
      set (w0 := add_trace tr0 w1)
  end.
  rewrite conn_add_trace.
  set (parents := snapshot_parents (s :: L) (conn w)).
  destruct (for_each _ _ _ w0) as [[c|e] w2] eqn:Hloop; [|done].
  intros [= <- <-]. rewrite conn_add_trace.
  assert (faults (conn w0) = []) as Hf0 by exact Hf.
  assert (tagging_config (self w0) = tagging_config (self w)) as Hcfg0 by done.
  destruct (result_loop _ _ _
              (snapshot_body_follows_plan (self w) parents (length (s :: L)))
              _ _ _ _ _ Hcfg0 Hf0 Hloop) as (_ & -> & Hno).
  change (conn w0) with (conn w).
  rewrite snapshots_apply_ups_snapshot.
  pose proof (faults_apply_ups KSnapshot
                (plan_ups (snapshot_plan (self w) parents) (s :: L)) (conn w))
    as Hfaults.
  rewrite Hf in Hfaults.
  destruct (apply_ups_snapshot_rest
              (plan_ups (snapshot_plan (self w) parents) (s :: L)) (conn w))
    as (Hacc & Hins & Hrest).
  split; [|by repeat split]. apply map_ext_in. intros x Hx. apply list_elem_of_In in Hx.
  destruct (owned_by (conn w) (Some "self"%string) x) eqn:Hown.
  - assert (x ∈ s :: L) as Hin by (rewrite <- HL; by apply listed_snapshots_owned).
    rewrite (relist_planned (snapshot_plan (self w) parents) (s :: L)); [|
      rewrite <- HL; by apply NoDup_map_filter | done].
    apply planned_snapshot; [done..|]. intros e. by apply Hno.
  - apply relist_other. intros i d Hi Heq.
    apply plan_ups_ids in Hi.
    change (map obj_id (s :: L)) with (fmap (M:=list) Snapshot.id (s :: L)) in Hi.
    apply list_elem_of_fmap in Hi as (y & -> & Hy).
    rewrite <- HL in Hy. apply listed_snapshots_owned in Hy as [Hym Hy].
    assert (y = x) as -> by exact (NoDup_map_inj Snapshot.id _ Hnd y x Hym Hx Heq).
    congruence.
Qed.

(** A run of [tag_volumes] that returns, without dry-run and append mode, on
    an inventory with one entry per volume id and a provider that accepts the
    write calls: afterwards each volume that the stage works on and that is
    in use has the tags of its instance that are listed, its [instance_id]
    and its [device] assigned into the tags it had; the other volumes, the
    instances, the snapshots and the account are as they were, and the
    provider goes on accepting. *)
Theorem tag_volumes_result (w : World) res w' :
  faults (conn w) = [] →
  NoDup (map Volume.id (volumes (conn w))) →
  _dryrun (self w) = false → _append (self w) = false →
  tag_volumes w = (Ok res, w') →
  let parents :=
    volume_parents (listed_volumes (self w) (conn w)) (conn w) in
  volumes (conn w') =
    map (λ v, if requested (self w) v
              then tagged_volume (self w) parents v else v)
        (volumes (conn w)) ∧
  instances (conn w') = instances (conn w) ∧
  snapshots (conn w') = snapshots (conn w) ∧
  account (conn w') = account (conn w) ∧
  faults (conn w') = [].
Proof. apply tag_volumes_result_holds. Qed.

(** A run of [tag_snapshots] that returns, without dry-run and append mode,
    on an inventory with one entry per snapshot id and a provider that
    accepts the write calls: afterwards each snapshot of the account has the
    listed tags of its volume assigned into the tags it had; the snapshots of
    other owners, the volumes, the instances and the account are as they
    were, and the provider goes on accepting. *)
Theorem tag_snapshots_result (w : World) res w' :
  faults (conn w) = [] →
  NoDup (map Snapshot.id (snapshots (conn w))) →
  _dryrun (self w) = false → _append (self w) = false →
  tag_snapshots w = (Ok res, w') →
  let parents := snapshot_parents (listed_snapshots (conn w)) (conn w) in
  snapshots (conn w') =
    map (λ s, if owned_by (conn w) (Some "self"%string) s
              then tagged_snapshot (self w) parents s else s)
        (snapshots (conn w)) ∧
  instances (conn w') = instances (conn w) ∧
  volumes (conn w') = volumes (conn w) ∧
  account (conn w') = account (conn w) ∧
  faults (conn w') = [].
Proof. apply tag_snapshots_result_holds. Qed.

Lemma tag_volumes_result_witness :
  ∃ res w',
    tag_volumes (ex_world false false []) = (Ok res, w') ∧
    let parents :=
      volume_parents (listed_volumes (self (ex_world false false []))
                        (conn (ex_world false false [])))
        (conn (ex_world false false [])) in
    volumes (conn w') =
      map (λ v, if requested (self (ex_world false false [])) v
                then tagged_volume (self (ex_world false false [])) parents v
                else v)
          (volumes (conn (ex_world false false []))) ∧
    instances (conn w') = instances (conn (ex_world false false [])) ∧
    snapshots (conn w') = snapshots (conn (ex_world false false [])) ∧
    account (conn w') = account (conn (ex_world false false [])) ∧
    faults (conn w') = [].
Proof.
  eexists _, _. split; [vm_compute; reflexivity|].
  refine (tag_volumes_result (ex_world false false []) _ _
            eq_refl _ eq_refl eq_refl _).
  - apply (bool_decide_unpack _). vm_compute. exact I.
  - vm_compute; reflexivity.
Defined.

Lemma tag_snapshots_result_witness :
  ∃ res w',
    tag_snapshots (ex_world false false []) = (Ok res, w') ∧
    let parents :=
      snapshot_parents (listed_snapshots (conn (ex_world false false [])))
        (conn (ex_world false false [])) in
    snapshots (conn w') =
      map (λ s, if owned_by (conn (ex_world false false []))
                     (Some "self"%string) s
                then tagged_snapshot (self (ex_world false false [])) parents s
                else s)
          (snapshots (conn (ex_world false false []))) ∧
    instances (conn w') = instances (conn (ex_world false false [])) ∧
    volumes (conn w') = volumes (conn (ex_world false false [])) ∧
    account (conn w') = account (conn (ex_world false false [])) ∧
    faults (conn w') = [].
Proof.
  eexists _, _. split; [vm_compute; reflexivity|].
  refine (tag_snapshots_result (ex_world false false []) _ _
            eq_refl _ eq_refl eq_refl _).
  - apply (bool_decide_unpack _). vm_compute. exact I.
  - vm_compute; reflexivity.
Defined.

(** ** What a run may write *)

Lemma writes_within_refl Q w : writes_within Q w w.
Proof.
  split; [done|]. exists []. rewrite app_nil_r. split; [done|].
  intros x Hx. by apply elem_of_nil in Hx.
Qed.

Lemma writes_within_trans Q w1 w2 w3 :
  writes_within Q w1 w2 → writes_within Q w2 w3 → writes_within Q w1 w3.
Proof.
  intros (Hc1 & ws1 & Hw1 & Ha1) (Hc2 & ws2 & Hw2 & Ha2).
  split; [congruence|]. exists (ws1 ++ ws2).
  rewrite Hw2, Hw1, <- app_assoc. split; [done|].
  intros x Hx. apply elem_of_app in Hx as [Hx|Hx]; auto.
Qed.

Lemma writes_within_add_trace Q w tr :
  writes tr = [] → writes_within Q w (add_trace tr w).
Proof.
  intros Htr. split; [done|]. exists [].
  rewrite trace_add_trace, writes_app, Htr. split; [done|].
  intros x Hx. by apply elem_of_nil in Hx.
Qed.

Lemma writes_within_silent Q w tr :
  Forall silent tr → writes_within Q w (add_trace tr w).
Proof. intros Htr. by apply writes_within_add_trace, writes_silent. Qed.

Lemma writes_within_weaken (Q Q' : Kind * string * tagmap → Prop) w w' :
  (∀ x, Q x → Q' x) → writes_within Q w w' → writes_within Q' w w'.
Proof.
  intros HQ (Hc & ws & Hw & Ha). split; [done|]. exists ws. split; [done|].
  intros x Hx. by apply HQ, Ha.
Qed.

(** The retry loop keeps a relation that each attempt keeps, along an
    invariant on the resource. *)
Lemma retry_inv `{EC2Object R} (Rel : World → World → Prop)
    (Inv : World → R → Prop) f1 f2 f3 (op : M (World * R) bool) :
  (∀ w, Rel w w) →
  (∀ w1 w2 w3, Rel w1 w2 → Rel w2 w3 → Rel w1 w3) →
  (∀ w tr, Forall silent tr → Rel w (add_trace tr w)) →
  (∀ w r tr, Forall silent tr → Inv w r → Inv (add_trace tr w) r) →
  (∀ w r, Inv w r →
          Rel w (op (w, r)).2.1 ∧ Inv (op (w, r)).2.1 (op (w, r)).2.2) →
  ∀ attempts last w r,
    Inv w r → Rel w (retry f1 f2 f3 op attempts last (w, r)).2.1.
Proof.
  intros Rel_refl Rel_trans Rel_silent Inv_silent Hop attempts.
  induction attempts as [|a attempts IH]; intros last w r Hinv.
  - simpl. destruct last as [[c a]|]; unfold_monad; simpl; [|apply Rel_refl].
    apply (Rel_silent w [_]). by repeat constructor.
  - simpl retry. destruct (Hop w r Hinv) as [Hs Hinv'].
    destruct (op (w, r)) as [[b|e] [w' r']]; simpl in Hs, Hinv'; [done|].
    destruct e as [c|c|m|k|nm]; try done.
    + unfold_monad. simpl. eapply Rel_trans; [exact Hs|].
      apply (Rel_silent w' [_]). by repeat constructor.
    + unfold_monad. simpl. eapply Rel_trans; [exact Hs|].
      eapply Rel_trans; [|apply IH].
      * rewrite add_trace_app. apply Rel_silent. by repeat constructor.
      * rewrite add_trace_app. apply Inv_silent; [by repeat constructor|done].
Qed.

Lemma tagging_config_lists g g' :
  tagging_config g' = tagging_config g →
  _instance_tags_to_propagate g' = _instance_tags_to_propagate g ∧
  _volume_tags_to_propagate g' = _volume_tags_to_propagate g.
Proof. unfold tagging_config. by intros [= _ _ -> ->]. Qed.

Lemma tag_volume_within g p instances x w (r : Volume.t) :
  x ∈ volumes p → requested g x = true → Volume.status x = "in-use"%string →
  tagging_config (self w) = tagging_config g ∧ Volume.id r = Volume.id x →
  writes_within (volume_write_ok g p) w (tag_volume instances (w, r)).2.1 ∧
  (tagging_config (self (tag_volume instances (w, r)).2.1) = tagging_config g ∧
   Volume.id (tag_volume instances (w, r)).2.2 = Volume.id x).
Proof.
  intros Hx Hreq Hst [Hcfg Hid].
  destruct (Framed_tag_volume tagging_event (λ e He, He) instances (w, r))
    as [Hself _].
  unfold world_of, Obj_HasWorld in Hself.
  pose proof (tag_volume_step instances w r) as Hstep.
  destruct (tag_volume instances (w, r)) as [res [w' r']].
  simpl in Hself |- *. destruct Hstep as [Hid' Hw].
  split; [|split; congruence]. split; [by rewrite Hself|].
  destruct Hw as [Hw|(instance & _ & Hw)].
  - exists []. rewrite app_nil_r. split; [done|].
    intros y Hy. by apply elem_of_nil in Hy.
  - eexists. split; [exact Hw|]. intros y Hy.
    apply list_elem_of_singleton in Hy as ->.
    split; [done|]. split; [exists x; by rewrite Hid|].
    simpl. intros key [val Hk]. apply delta_of_lookup in Hk as [Hk _].
    apply tagging_config_lists in Hcfg as [<- _].
    destruct (volume_tags_to_set_lookup _ _ _ _ _ Hk) as [[? _]|[[? _]|[? _]]];
      auto.
Qed.

Lemma tag_snapshot_within g p volumes x w (r : Snapshot.t) :
  x ∈ snapshots p → Snapshot.owner_id x = account p →
  tagging_config (self w) = tagging_config g ∧ Snapshot.id r = Snapshot.id x →
  writes_within (snapshot_write_ok g p) w (tag_snapshot volumes (w, r)).2.1 ∧
  (tagging_config (self (tag_snapshot volumes (w, r)).2.1) = tagging_config g ∧
   Snapshot.id (tag_snapshot volumes (w, r)).2.2 = Snapshot.id x).
Proof.
  intros Hx Hown [Hcfg Hid].
  destruct (Framed_tag_snapshot tagging_event (λ e He, He) volumes (w, r))
    as [Hself _].
  unfold world_of, Obj_HasWorld in Hself.
  pose proof (tag_snapshot_step volumes w r) as Hstep.
  destruct (tag_snapshot volumes (w, r)) as [res [w' r']].
  simpl in Hself |- *. destruct Hstep as [Hid' Hw].
  split; [|split; congruence]. split; [by rewrite Hself|].
  destruct Hw as [Hw|(parent & _ & Hw)].
  - exists []. rewrite app_nil_r. split; [done|].
    intros y Hy. by apply elem_of_nil in Hy.
  - eexists. split; [exact Hw|]. intros y Hy.
    apply list_elem_of_singleton in Hy as ->.
    split; [done|]. split; [exists x; by rewrite Hid|].
    simpl. intros key [val Hk]. apply delta_of_lookup in Hk as [Hk _].
    apply tagging_config_lists in Hcfg as [_ <-].
    by destruct (snapshot_tags_to_set_lookup _ _ _ _ Hk) as [? _].
Qed.

Lemma volume_body_within g p instances n x c w :
  x ∈ volumes p → requested g x = true →
  tagging_config (self w) = tagging_config g →
  writes_within (volume_write_ok g p) w (volume_body instances n x c w).2.
Proof.
  intros Hx Hreq Hcfg. unfold volume_body. unfold_monad. cbn [fst snd].
  destruct (decide (Volume.status x = "in-use"%string)) as [Hst|Hst].
  - rewrite bool_decide_eq_false_2 by by intros ?.
    unfold retry_tag_volume.
    match goal with
    | |- context [retry ?f1 ?f2 ?f3 ?op ?a ?l (add_trace ?tr w, x)] =>
        apply (writes_within_trans _ w (add_trace tr w));
          [by apply writes_within_add_trace|];
        pose proof (retry_inv (R:=Volume.t)
                      (writes_within (volume_write_ok g p))
                      (λ w1 r1, tagging_config (self w1) = tagging_config g ∧
                                Volume.id r1 = Volume.id x)
                      f1 f2 f3 op
                      (writes_within_refl _) (writes_within_trans _)
                      (writes_within_silent _)
                      (λ w1 r1 tr1 _ Hi, Hi)
                      (λ w1 r1, tag_volume_within g p instances x w1 r1 Hx Hreq Hst)
                      a l (add_trace tr w) x (conj Hcfg eq_refl)) as Hq
    end.
    by destruct (retry _ _ _ _ _ _ _) as [[o|e] [w' r']].
  - rewrite bool_decide_eq_true_2 by done. simpl. rewrite add_trace_app.
    by apply writes_within_add_trace.
Qed.

Lemma snapshot_body_within g p volumes n x c w :
  x ∈ snapshots p → Snapshot.owner_id x = account p →
  tagging_config (self w) = tagging_config g →
  writes_within (snapshot_write_ok g p) w (snapshot_body volumes n x c w).2.
Proof.
  intros Hx Hown Hcfg. unfold snapshot_body. unfold_monad. cbn [fst snd].
  unfold retry_tag_snapshot.
  match goal with
  | |- context [retry ?f1 ?f2 ?f3 ?op ?a ?l (add_trace ?tr w, x)] =>
      apply (writes_within_trans _ w (add_trace tr w));
        [by apply writes_within_add_trace|];
      pose proof (retry_inv (R:=Snapshot.t)
                    (writes_within (snapshot_write_ok g p))
                    (λ w1 r1, tagging_config (self w1) = tagging_config g ∧
                              Snapshot.id r1 = Snapshot.id x)
                    f1 f2 f3 op
                    (writes_within_refl _) (writes_within_trans _)
                    (writes_within_silent _)
                    (λ w1 r1 tr1 _ Hi, Hi)
                    (λ w1 r1, tag_snapshot_within g p volumes x w1 r1 Hx Hown)
                    a l (add_trace tr w) x (conj Hcfg eq_refl)) as Hq
  end.
  by destruct (retry _ _ _ _ _ _ _) as [[o|e] [w' r']].
Qed.

(** A loop whose bodies keep the tagging configuration and write within
    [Q]. *)
Lemma for_each_within {A B} Q g (body : A → B → M World B) (l : list A) :
  (∀ x acc w, x ∈ l → tagging_config (self w) = tagging_config g →
              writes_within Q w (body x acc w).2) →
  ∀ acc w, tagging_config (self w) = tagging_config g →
           writes_within Q w (for_each l acc body w).2.
Proof.
  intros Hbody acc w.
  apply (for_each_rel
           (λ w w', tagging_config (self w) = tagging_config g →
                    writes_within Q w w')).
  - intros w0 _. apply writes_within_refl.
  - intros w1 w2 w3 H12 H23 Hc. specialize (H12 Hc).
    eapply writes_within_trans; [exact H12|]. apply H23.
    destruct H12 as [-> _]. done.
  - exact Hbody.
Qed.

Lemma tag_volumes_within w :
  writes_within (volume_write_ok (self w) (conn w)) w (tag_volumes w).2.
Proof.
  unfold tag_volumes. unfold mbind, M_bind.
  destruct (list_volumes_run w) as (tr & -> & Htr).
  match goal with
  | |- context [tag_listed_volumes _ ?w0] =>
      apply (writes_within_trans _ w w0);
        [split; [done|]; exists []; simpl;
         rewrite writes_app, Htr; split; [done|];
         intros x Hx; by apply elem_of_nil in Hx|]
  end.
  destruct (listed_volumes (self w) (conn w)) as [|v L] eqn:HL.
  { unfold tag_listed_volumes. unfold_monad. simpl.
    by apply (writes_within_add_trace _ _ [_]). }
  match goal with
  | |- context [tag_listed_volumes _ ?w1] =>
      destruct (tag_listed_volumes_run v L w1) as (tr0 & Htr0 & ->);
      apply (writes_within_trans _ w1 (add_trace tr0 w1));
        [by apply writes_within_add_trace|];
      set (w0 := add_trace tr0 w1)
  end.
  match goal with
  | |- context [for_each ?l ?a ?body w0] =>
      pose proof (for_each_within (volume_write_ok (self w) (conn w)) (self w)
                    body l) as Hq
  end.
  match type of Hq with ?A → _ => assert A as Hbody end.
  { intros x acc w1 Hx Hcfg. rewrite <- HL in Hx.
    apply requested_listed in Hx as [Hx Hreq].
    by apply volume_body_within. }
  specialize (Hq Hbody (0, 0%Z) w0 eq_refl).
  destruct (for_each _ _ _ w0) as [[c|e] w2]; [|done].
  eapply writes_within_trans; [exact Hq|]. by apply writes_within_add_trace.
Qed.

Lemma tag_snapshots_within w :
  writes_within (snapshot_write_ok (self w) (conn w)) w (tag_snapshots w).2.
Proof.
  unfold tag_snapshots. unfold mbind, M_bind. rewrite list_snapshots_run.
  destruct (_snapshots_to_tag (self w)) as [|x0 l0];
    [|by apply writes_within_add_trace].
  match goal with
  | |- context [tag_listed_snapshots _ (add_trace ?tr w)] =>
      apply (writes_within_trans _ w (add_trace tr w));
        [by apply writes_within_add_trace|]
  end.
  fold (listed_snapshots (conn w)).
  destruct (listed_snapshots (conn w)) as [|s L] eqn:HL.
  { unfold tag_listed_snapshots. unfold_monad. simpl.
    by apply (writes_within_add_trace _ _ [_]). }
  match goal with
  | |- context [tag_listed_snapshots _ ?w1] =>
      destruct (tag_listed_snapshots_run s L w1) as (tr0 & Htr0 & ->);
      apply (writes_within_trans _ w1 (add_trace tr0 w1));
        [by apply writes_within_add_trace|];
      set (w0 := add_trace tr0 w1)
  end.
  match goal with
  | |- context [for_each ?l ?a ?body w0] =>
      pose proof (for_each_within (snapshot_write_ok (self w) (conn w)) (self w)
                    body l) as Hq
  end.
  match type of Hq with ?A → _ => assert A as Hbody end.
  { intros x acc w1 Hx Hcfg. rewrite <- HL in Hx.
    apply listed_snapshots_owned in Hx as [Hx Hown].
    apply snapshot_body_within; [done| |done].
    unfold owned_by in Hown. simpl in Hown.
    by apply bool_decide_eq_true in Hown. }
  specialize (Hq Hbody 0 w0 eq_refl).
  destruct (for_each _ _ _ w0) as [[c|e] w2]; [|done].
  eapply writes_within_trans; [exact Hq|]. by apply writes_within_add_trace.
Qed.

Lemma keeps_snapshots_refl w : keeps_snapshots w w.
Proof. done. Qed.

Lemma keeps_snapshots_trans w1 w2 w3 :
  keeps_snapshots w1 w2 → keeps_snapshots w2 w3 → keeps_snapshots w1 w3.
Proof. intros [? ?] [? ?]. split; congruence. Qed.

Lemma keeps_snapshots_add_trace w tr : keeps_snapshots w (add_trace tr w).
Proof. done. Qed.

Lemma set_resource_tags_keeps t w (r : Volume.t) :
  keeps_snapshots w (_set_resource_tags t (w, r)).2.1.
Proof.
  destruct (Volume.tagged r) eqn:Ht.
  - rewrite set_resource_tags_run by done. cbv zeta.
    case_bool_decide; [done|]. rewrite add_tags_run. cbv zeta.
    by destruct (faults (conn w)) as [|[f|] rest].
  - unfold _set_resource_tags. unfold_monad. simpl. by rewrite Ht.
Qed.

Lemma tag_volume_keeps instances w (r : Volume.t) :
  keeps_snapshots w (tag_volume instances (w, r)).2.1.
Proof.
  rewrite tag_volume_run.
  destruct (volume_parent instances r) as [instance|]; [|done].
  cbv zeta. destruct (_dryrun (self w)); [done|].
  unfold mbind, M_bind.
  match goal with
  | |- context [_set_resource_tags ?t (?w1, ?r1)] =>
      pose proof (set_resource_tags_keeps t w1 r1) as Hk;
      destruct (_set_resource_tags t (w1, r1)) as [[[]|e] [w' r']]
  end; exact Hk.
Qed.

Lemma tag_volumes_keeps w : keeps_snapshots w (tag_volumes w).2.
Proof.
  unfold tag_volumes. unfold mbind, M_bind.
  destruct (list_volumes_run w) as (tr & -> & _).
  destruct (listed_volumes (self w) (conn w)) as [|v L].
  { unfold tag_listed_volumes. unfold_monad. by simpl. }
  match goal with
  | |- context [tag_listed_volumes _ ?w1] =>
      destruct (tag_listed_volumes_run v L w1) as (tr0 & _ & ->);
      set (w0 := add_trace tr0 w1)
  end.
  assert (keeps_snapshots w w0) as H0 by done.
  match goal with
  | |- context [for_each ?l ?a ?body w0] =>
      pose proof (for_each_rel keeps_snapshots keeps_snapshots_refl
                    keeps_snapshots_trans body l) as Hq
  end.
  match type of Hq with ?A → _ => assert A as Hbody end.
  { intros x acc w1 _. unfold volume_body. unfold_monad. cbn [fst snd].
    case_bool_decide; [done|]. unfold retry_tag_volume.
    match goal with
    | |- context [retry ?f1 ?f2 ?f3 ?op ?a ?l (?w2, x)] =>
        pose proof (retry_rel keeps_snapshots keeps_snapshots_refl
                      keeps_snapshots_trans
                      (λ w3 tr3 _, keeps_snapshots_add_trace w3 tr3)
                      (R:=Volume.t) f1 f2 f3 op (tag_volume_keeps _)
                      a l w2 x) as Hr
    end.
    by destruct (retry _ _ _ _ _ _ _) as [[o|e] [w' r']]. }
  specialize (Hq Hbody (0, 0%Z) w0).
  destruct (for_each _ _ _ w0) as [[c|e] w2]; simpl in Hq |- *;
    by eapply keeps_snapshots_trans.
Qed.

(** Whatever the configuration, the inventory and the answers of the
    provider, every write call of a run of [propagate_tags] is either for a
    volume of the inventory that is in use (and is among the requested
    volumes, if volume ids are requested), with no tag named otherwise than
    [device], [instance_id] or a listed instance tag, or for a snapshot of
    the inventory that the account itself owns, with no tag named otherwise
    than a listed volume tag. *)
Theorem propagate_tags_writes_safe (w : World) :
  ∃ ws,
    writes (trace (propagate_tags w).2) = writes (trace w) ++ ws ∧
    ∀ x, x ∈ ws →
         volume_write_ok (self w) (conn w) x ∨
         snapshot_write_ok (self w) (conn w) x.
Proof.
  set (Q := λ x, volume_write_ok (self w) (conn w) x ∨
                 snapshot_write_ok (self w) (conn w) x).
  assert (writes_within Q w (propagate_tags w).2) as (_ & ws & Hws & Hall);
    [|by exists ws].
  assert (∀ w1, tagging_config (self w1) = tagging_config (self w) →
                keeps_snapshots w w1 →
                writes_within Q w1 (tag_snapshots w1).2) as Hsnap.
  { intros w1 Hcfg [Hacc Hsn].
    eapply writes_within_weaken; [|apply tag_snapshots_within].
    intros x (Hk & (s & Hs & Hid & Hown) & Hkeys). right.
    apply tagging_config_lists in Hcfg as [_ Hv].
    split; [done|]. split.
    - exists s. by rewrite <- Hsn, <- Hacc.
    - intros key Hkey. rewrite <- Hv. by apply Hkeys. }
  pose proof (writes_within_weaken _ Q w _ (λ x Hx, or_introl Hx)
                (tag_volumes_within w)) as Hvol.
  pose proof (tag_volumes_keeps w) as Hkeep.
  unfold propagate_tags. unfold_monad.
  destruct (_novolumes (self w)).
  - destruct (_nosnapshots (self w)); [apply writes_within_refl|].
    specialize (Hsnap w eq_refl (keeps_snapshots_refl w)).
    by destruct (tag_snapshots w) as [[r|e] w'].
  - destruct (tag_volumes w) as [[r|e] w1]; [|done]. simpl in Hvol, Hkeep.
    destruct (_nosnapshots (self w1)); [done|].
    specialize (Hsnap w1 (proj1 Hvol) Hkeep).
    destruct (tag_snapshots w1) as [[r'|e] w2];
      simpl in Hsnap; by eapply writes_within_trans.
Qed.

(** ** The constructor *)

(** [__init__] returns the object exactly when the connection with the
    profile is made, or the profile is not found and the connection with the
    default credentials is made; the object then holds the ten arguments and
    that connection, and nothing was asked of the provider. It raises
    [GraffitiMonkeyException] exactly when one of the two calls finds no
    credentials; the default credentials are tried only after
    [ProfileNotFoundError], and a [ProfileNotFoundError] of the second call
    is not caught. *)
Theorem init_connects (connect : Connect) region profile
    instance_tags volume_tags dryrun append volumes_to_tag snapshots_to_tag
    novolumes nosnapshots :
  let first := connect region (Some profile) in
  let second := connect region None in
  match __init__ connect region profile instance_tags volume_tags dryrun append
          volumes_to_tag snapshots_to_tag novolumes nosnapshots with
  | Built w =>
      self w = mkGraffitiMonkey instance_tags volume_tags region profile
                 dryrun append volumes_to_tag snapshots_to_tag
                 novolumes nosnapshots ∧
      (first = inr (conn w) ∨
       first = inl ProfileNotFoundError ∧ second = inr (conn w)) ∧
      Forall silent (trace w)
  | Failed e tr =>
      e = GraffitiMonkeyException
            "No AWS credentials found - check your credentials" ∧
      (first = inl NoAuthHandlerFound ∨
       first = inl ProfileNotFoundError ∧ second = inl NoAuthHandlerFound) ∧
      Forall silent tr
  | FailedBoto e tr =>
      e = ProfileNotFoundError ∧
      first = inl ProfileNotFoundError ∧ second = inl ProfileNotFoundError ∧
      Forall silent tr
  end.
Proof.
  cbv zeta. unfold __init__. cbn [_region _profile].
  destruct (connect region (Some profile)) as [[]|p] eqn:H1.
  - split; [done|]. split; [by left|]. by repeat constructor.
  - destruct (connect region None) as [[]|p] eqn:H2.
    + split; [done|]. split; [by right|]. by repeat constructor.
    + split; [done|]. split; [done|]. split; [done|]. by repeat constructor.
    + split; [done|]. split; [by right|]. by repeat constructor.
  - split; [done|]. split; [by left|]. by repeat constructor.
Qed.


(** From the construction to the end of a run: an object built with the
    [dryrun] or the [append] argument set makes no write call at all and
    leaves the provider that it was connected to as it was. *)
Theorem constructed_dryrun_writes_nothing (connect : Connect) region profile
    instance_tags volume_tags dryrun append volumes_to_tag snapshots_to_tag
    novolumes nosnapshots w :
  __init__ connect region profile instance_tags volume_tags dryrun append
    volumes_to_tag snapshots_to_tag novolumes nosnapshots = Built w →
  dryrun = true ∨ append = true →
  writes (trace (propagate_tags w).2) = [] ∧
  conn (propagate_tags w).2 = conn w.
Proof.
  intros Hinit Hmode.
  assert (self w = mkGraffitiMonkey instance_tags volume_tags region profile
                     dryrun append volumes_to_tag snapshots_to_tag
                     novolumes nosnapshots ∧ writes (trace w) = [])
    as [Hself Htr].
  { revert Hinit. unfold __init__. cbn [_region _profile].
    destruct (connect region (Some profile)) as [[]|p]; [done| |].
    - destruct (connect region None) as [[]|p]; [done..|].
      by intros [= <-].
    - by intros [= <-]. }
  destruct (propagate_tags_quiet w) as (_ & Hc & Hw).
  - unfold no_write_mode. rewrite Hself. simpl.
    destruct Hmode as [->| ->]; [done|apply orb_true_r].
  - split; [congruence|done].
Qed.

Lemma constructed_dryrun_writes_nothing_witness :
  ∃ w,
    __init__ ex_connect "us-east-1" (PyStr "ops") ["env"%string] ["env"%string]
      true false [] [] false false = Built w ∧
    writes (trace (propagate_tags w).2) = [] ∧
    conn (propagate_tags w).2 = conn w.
Proof.
  eexists. split; [vm_compute; reflexivity|].
  refine (constructed_dryrun_writes_nothing ex_connect "us-east-1" (PyStr "ops")
            ["env"%string] ["env"%string] true false [] [] false false _ _
            (or_introl eq_refl)).
  vm_compute; reflexivity.
Defined.

(** ** Logging.configure *)

(** The two calls of [configure] are [basicConfig] and then [setLevel] on
    boto's logger. A higher verbosity never raises a level, and at no
    verbosity is boto's logger set below the level of the root logger: boto
    never logs what the program itself would not. *)
Theorem configure_levels (v v' : option Z) :
  Logging.le v v' →
  ∃ r f b r' f' b',
    Logging.configure v =
      [Logging.basicConfig r f "%F %T"; Logging.setLevel "boto" b] ∧
    Logging.configure v' =
      [Logging.basicConfig r' f' "%F %T"; Logging.setLevel "boto" b'] ∧
    (Logging.levelno r' ≤ Logging.levelno r)%Z ∧
    (Logging.levelno b' ≤ Logging.levelno b)%Z ∧
    (Logging.levelno r ≤ Logging.levelno b)%Z ∧
    (Logging.levelno r' ≤ Logging.levelno b')%Z.
Proof.
  intros Hle. unfold Logging.configure, Logging.ge.
  destruct v as [a|], v' as [a'|]; simpl in Hle; try done;
    repeat match goal with
           | |- context [(?n <=? ?m)%Z] => destruct (Z.leb_spec n m)
           end;
    try lia; by eexists _, _, _, _, _, _.
Qed.

Lemma configure_levels_witness :
  ∃ r f b r' f' b',
    Logging.configure (Some 1%Z) =
      [Logging.basicConfig r f "%F %T"; Logging.setLevel "boto" b] ∧
    Logging.configure (Some 3%Z) =
      [Logging.basicConfig r' f' "%F %T"; Logging.setLevel "boto" b'] ∧
    (Logging.levelno r' ≤ Logging.levelno r)%Z ∧
    (Logging.levelno b' ≤ Logging.levelno b)%Z ∧
    (Logging.levelno r ≤ Logging.levelno b)%Z ∧
    (Logging.levelno r' ≤ Logging.levelno b')%Z.
Proof.
  apply (configure_levels (Some 1%Z) (Some 3%Z)). simpl. lia.
Defined.

(** ** From the instance to the snapshot *)

Lemma instances_by_id_NoDup l x :
  NoDup (map Instance.id l) → x ∈ l →
  instances_by_id l !! Instance.id x = Some x.
Proof.
  unfold instances_by_id. induction l as [|a l IH] using rev_ind;
    intros Hnd Hx; [by apply elem_of_nil in Hx|].
  rewrite foldl_app. simpl. rewrite map_app in Hnd.
  apply NoDup_app in Hnd as (Hnd & Hdisj & _).
  apply elem_of_app in Hx as [Hx|Hx].
  - rewrite lookup_insert_ne; [by apply IH|].
    intros Heq. apply (Hdisj (Instance.id x)).
    + change (map Instance.id l) with (fmap (M:=list) Instance.id l).
      apply list_elem_of_fmap. by exists x.
    + simpl. rewrite Heq. by left.
  - apply list_elem_of_singleton in Hx as ->. by rewrite lookup_insert_eq.
Qed.

Lemma volumes_by_id_NoDup l x :
  NoDup (map Volume.id l) → x ∈ l →
  volumes_by_id l !! Volume.id x = Some x.
Proof.
  unfold volumes_by_id. induction l as [|a l IH] using rev_ind;
    intros Hnd Hx; [by apply elem_of_nil in Hx|].
  rewrite foldl_app. simpl. rewrite map_app in Hnd.
  apply NoDup_app in Hnd as (Hnd & Hdisj & _).
  apply elem_of_app in Hx as [Hx|Hx].
  - rewrite lookup_insert_ne; [by apply IH|].
    intros Heq. apply (Hdisj (Volume.id x)).
    + change (map Volume.id l) with (fmap (M:=list) Volume.id l).
      apply list_elem_of_fmap. by exists x.
    + simpl. rewrite Heq. by left.
  - apply list_elem_of_singleton in Hx as ->. by rewrite lookup_insert_eq.
Qed.

Lemma tagged_volume_id g parents v :
  Volume.id (tagged_volume g parents v) = Volume.id v.
Proof.
  unfold tagged_volume. case_bool_decide; [done|].
  by destruct (volume_parent parents v).
Qed.

(** One run carries a tag from the instance to the snapshot. Let the
    provider accept the write calls and the inventory have one entry per id;
    let the run be no dry run and not in append mode, with both stages on,
    and let it return. Then for an instance, a volume in use that is attached
    to it (and requested, if volume ids are requested) and a snapshot of that
    volume that the account owns: a tag of the instance whose name is in both
    lists of tag names (and is not [device] or [instance_id]) is afterwards a
    tag of the volume and of the snapshot at the provider, with the value that
    the instance has. *)
Theorem instance_tag_reaches_snapshot (w w' : World)
    (i : Instance.t) (v : Volume.t) (s : Snapshot.t) key val :
  faults (conn w) = [] →
  NoDup (map Instance.id (instances (conn w))) →
  NoDup (map Volume.id (volumes (conn w))) →
  NoDup (map Snapshot.id (snapshots (conn w))) →
  _dryrun (self w) = false → _append (self w) = false →
  _novolumes (self w) = false → _nosnapshots (self w) = false →
  propagate_tags w = (Ok tt, w') →
  i ∈ instances (conn w) → v ∈ volumes (conn w) → s ∈ snapshots (conn w) →
  Volume.status v = "in-use"%string → requested (self w) v = true →
  AttachData.instance_id (Volume.attach_data v) = PyStr (Instance.id i) →
  Instance.id i ≠ ""%string →
  Snapshot.volume_id s = Volume.id v →
  Snapshot.owner_id s = account (conn w) →
  key ∈ _instance_tags_to_propagate (self w) →
  key ∈ _volume_tags_to_propagate (self w) →
  key ≠ "device"%string → key ≠ "instance_id"%string →
  Instance.tags i !! key = Some val →
  ∃ v' s',
    v' ∈ volumes (conn w') ∧ Volume.id v' = Volume.id v ∧
    Volume.tags v' !! key = Some val ∧
    s' ∈ snapshots (conn w') ∧ Snapshot.id s' = Snapshot.id s ∧
    Snapshot.tags s' !! key = Some val.
Proof.
  intros Hf Hndi Hndv Hnds Hdry Happ Hnov Hnos Hrun Hi Hv Hs Hst Hreq Hatt Hne
    Hsv Hown Hki Hkv Hkd Hkid Hval.
  pose proof (tag_volumes_self w) as Hself. cbv zeta in Hself.
  revert Hrun. unfold propagate_tags. unfold_monad. rewrite Hnov.
  destruct (tag_volumes w) as [[r1|e] w1] eqn:Hvrun; [|done].
  cbn [snd] in Hself.
  assert (_nosnapshots (self w1) = false ∧ _dryrun (self w1) = false ∧
          _append (self w1) = false ∧
          _volume_tags_to_propagate (self w1) =
            _volume_tags_to_propagate (self w)) as (Hnos1 & Hdry1 & Happ1 & Hvtp1)
    by (by rewrite Hself).
  rewrite Hnos1.
  destruct (tag_snapshots w1) as [[r2|e] w2] eqn:Hsrun; [|done].
  intros [= <-].
  pose proof (tag_volumes_result_holds w r1 w1 Hf Hndv Hdry Happ Hvrun) as Hres.
  cbv zeta in Hres. destruct Hres as (Hvols & Hins & Hsnaps & Hacc & Hf1).
  set (parents := volume_parents (listed_volumes (self w) (conn w)) (conn w))
    in *.
  assert (volume_parent parents v = Some i) as Hpar.
  { unfold volume_parent, or_none. rewrite Hatt. simpl.
    rewrite bool_decide_eq_false_2 by done. simpl.
    unfold parents, volume_parents.
    apply instances_by_id_NoDup; [by apply NoDup_map_filter|].
    apply list_elem_of_filter. split; [|done].
    apply elem_of_list_to_set. rewrite <- Hatt.
    change (map ?f ?l) with (fmap (M:=list) f l).
    apply list_elem_of_fmap. exists v. split; [done|].
    by apply requested_listed. }
  set (v1 := Volume.with_tags
               (volume_tags_to_set (self w) i v (Volume.tags v)) v).
  assert (tagged_volume (self w) parents v = v1) as HFv.
  { unfold tagged_volume. rewrite bool_decide_eq_false_2 by (intros Hc; by apply Hc).
    by rewrite Hpar. }
  assert (v1 ∈ volumes (conn w1)) as Hv1.
  { rewrite Hvols. change (map ?f ?l) with (fmap (M:=list) f l).
    apply list_elem_of_fmap. exists v. split; [|done]. by rewrite Hreq, HFv. }
  assert (Volume.tags v1 !! key = Some val) as Hv1key.
  { simpl. unfold volume_tags_to_set. rewrite !lookup_insert_ne by done.
    rewrite copied_lookup, Hval. by rewrite decide_True. }
  assert (NoDup (map Snapshot.id (snapshots (conn w1)))) as Hnds1
    by by rewrite Hsnaps.
  pose proof (tag_snapshots_result_holds w1 r2 w2 Hf1 Hnds1 Hdry1 Happ1 Hsrun)
    as Hres.
  cbv zeta in Hres. destruct Hres as (Hsn2 & _ & Hvols2 & _ & _).
  set (parents1 := snapshot_parents (listed_snapshots (conn w1)) (conn w1)) in *.
  assert (owned_by (conn w1) (Some "self"%string) s = true) as Hown1.
  { unfold owned_by. simpl. rewrite Hacc. by apply bool_decide_eq_true. }
  assert (s ∈ listed_snapshots (conn w1)) as Hs1.
  { apply listed_snapshots_owned. by rewrite Hsnaps. }
  assert (snapshot_parent parents1 s = Some v1) as Hpar1.
  { unfold snapshot_parent, parents1, snapshot_parents. rewrite Hsv.
    change (Volume.id v) with (Volume.id v1).
    apply volumes_by_id_NoDup.
    - apply NoDup_map_filter. rewrite Hvols, map_map.
      erewrite map_ext; [exact Hndv|].
      intros x. simpl. destruct (requested (self w) x); [|done].
      apply tagged_volume_id.
    - apply list_elem_of_filter. split; [|done].
      apply elem_of_list_to_set. simpl. rewrite <- Hsv.
      change (map ?f ?l) with (fmap (M:=list) f l).
      apply list_elem_of_fmap. by exists s. }
  exists v1, (Snapshot.with_tags
                (snapshot_tags_to_set (self w1) v1 (Snapshot.tags s)) s).
  split; [by rewrite Hvols2|]. split; [done|]. split; [done|]. split.
  - rewrite Hsn2. change (map ?f ?l) with (fmap (M:=list) f l).
    apply list_elem_of_fmap. exists s. split; [|by rewrite Hsnaps].
    rewrite Hown1. unfold tagged_snapshot. by rewrite Hpar1.
  - split; [done|]. simpl. unfold snapshot_tags_to_set.
    rewrite copied_lookup, Hv1key, Hvtp1. by rewrite decide_True.
Qed.

Lemma instance_tag_reaches_snapshot_witness :
  ∃ w',
    propagate_tags (ex_world false false []) = (Ok tt, w') ∧
    ∃ v' s',
      v' ∈ volumes (conn w') ∧ Volume.id v' = Volume.id ex_volume ∧
      Volume.tags v' !! "env"%string = Some (PyStr "prod") ∧
      s' ∈ snapshots (conn w') ∧ Snapshot.id s' = Snapshot.id ex_snapshot ∧
      Snapshot.tags s' !! "env"%string = Some (PyStr "prod").
Proof.
  eexists. split; [vm_compute; reflexivity|].
  apply (instance_tag_reaches_snapshot (ex_world false false []) _
           ex_instance ex_volume ex_snapshot "env" (PyStr "prod")).
  - reflexivity.
  - apply (bool_decide_unpack _). vm_compute. exact I.
  - apply (bool_decide_unpack _). vm_compute. exact I.
  - apply (bool_decide_unpack _). vm_compute. exact I.
  - reflexivity.
  - reflexivity.
  - reflexivity.
  - reflexivity.
  - vm_compute; reflexivity.
  - by left.
  - by left.
  - by left.
  - reflexivity.
  - reflexivity.
  - reflexivity.
  - discriminate.
  - reflexivity.
  - reflexivity.
  - by left.
  - by left.
  - discriminate.
  - discriminate.
  - reflexivity.
Defined.

Lemma copy_tags_copies_listed_witness :
  ∃ t' w' r',
    copy_tags "Trying to propagate instance tag: %s" ["env"%string] ex_tags
      (Fresh ∅) (ex_world false false [], ex_volume) = (Ok t', (w', r')) ∧
    conn w' = conn (ex_world false false []) ∧
    writes (trace w') = writes (trace (ex_world false false [])) ∧
    ∀ k, ref_dict t' r' !! k =
         match ex_tags !! k with
         | Some v =>
             if decide (k ∈ ["env"%string]) then Some v
             else ref_dict (Fresh ∅) ex_volume !! k
         | None => ref_dict (Fresh ∅) ex_volume !! k
         end.
Proof.
  exact (copy_tags_copies_listed (R:=Volume.t)
           "Trying to propagate instance tag: %s" ["env"%string] ex_tags
           (Fresh ∅) (ex_world false false []) ex_volume).
Defined.
